(** * P2Poker: the poker engine and the table replica, embedded and verified

    A shallow embedding of the Go packages [engine] (cards, betting state
    machine, phase progression, showdown) and [table] (the replicated
    per-table state machine) together with the properties the system
    specification states about them.

    Conventions of the embedding.
    - Go's [int64] and [int] are integers in [Z] kept in the signed 64-bit
      range by [wrap64]; [uint64] is kept in range by [wrapU64]; a [byte]
      is an integer in [0, 255].  Every arithmetic operation of the source
      is followed by the wrap the machine performs.
    - A Go map is a [gmap]; a slice is a [list]; a nil pointer dereference
      or an index out of range is a run-time panic, modelled by [None].
    - An engine method mutates its receiver and returns an [error]; here it
      returns a [Result] carrying the state it leaves behind.
    - Standard library functions the source calls (the JSON codec, the
      random source, the wall clock) are parameters of the model. *)

From Stdlib Require Import ZArith List Bool Lia String Ascii.
From stdpp Require Import base option list gmap fin_maps strings.

Local Open Scope Z_scope.

(* ===================================================================== *)
(** ** Machine integers *)
(* ===================================================================== *)

Definition two64 : Z := 18446744073709551616.
Definition two63 : Z := 9223372036854775808.
Definition MaxInt64 : Z := 9223372036854775807.
Definition MinInt64 : Z := -9223372036854775808.

(** Two's complement reduction into [MinInt64, MaxInt64]. *)
Definition wrap64 (x : Z) : Z := (x + two63) mod two64 - two63.
(** Reduction into [0, 2^64). *)
Definition wrapU64 (x : Z) : Z := x mod two64.
(** Reduction into [0, 2^8). *)
Definition wrap8 (x : Z) : Z := x mod 256.

Definition add64 (a b : Z) : Z := wrap64 (a + b).
Definition sub64 (a b : Z) : Z := wrap64 (a - b).
Definition mul64 (a b : Z) : Z := wrap64 (a * b).
(** Go's [/] and [%] truncate toward zero. *)
Definition div64 (a b : Z) : Z := wrap64 (Z.quot a b).
Definition rem64 (a b : Z) : Z := Z.rem a b.

Definition inInt64 (x : Z) : Prop := MinInt64 <= x <= MaxInt64.

(** [s[i]] on a slice: a panic when [i] is out of range. *)
Definition index {A} (l : list A) (i : Z) : option A :=
  if i <? 0 then None else l !! Z.to_nat i.

Definition len {A} (l : list A) : Z := Z.of_nat (length l).

(* ===================================================================== *)
(** ** engine: cards *)
(* ===================================================================== *)

(** [type Suit byte], [type Rank byte]. *)
Definition SuitClubs : Z := 0.
Definition SuitDiamonds : Z := 1.
Definition SuitHearts : Z := 2.
Definition SuitSpades : Z := 3.

Definition RankTwo : Z := 2.
Definition RankThree : Z := 3.
Definition RankFour : Z := 4.
Definition RankFive : Z := 5.
Definition RankSix : Z := 6.
Definition RankSeven : Z := 7.
Definition RankEight : Z := 8.
Definition RankNine : Z := 9.
Definition RankTen : Z := 10.
Definition RankJack : Z := 11.
Definition RankQueen : Z := 12.
Definition RankKing : Z := 13.
Definition RankAce : Z := 14.

Record Card := mkCard { Rank : Z; Suit : Z }.

#[global] Instance Card_eq_dec : EqDecision Card.
Proof. solve_decision. Defined.

(** A card of the 52-card deck. *)
Definition validCard (c : Card) : Prop :=
  2 <= Rank c <= 14 /\ 0 <= Suit c <= 3.

Definition validCardb (c : Card) : bool :=
  (2 <=? Rank c) && (Rank c <=? 14) && (0 <=? Suit c) && (Suit c <=? 3).

(** *** card_json.go

    Bytes are integers; the character constants of the source are written
    by their ASCII codes. *)

Definition ch_0 : Z := 48.
Definition ch_2 : Z := 50.
Definition ch_3 : Z := 51.
Definition ch_4 : Z := 52.
Definition ch_5 : Z := 53.
Definition ch_6 : Z := 54.
Definition ch_7 : Z := 55.
Definition ch_8 : Z := 56.
Definition ch_9 : Z := 57.
Definition ch_A : Z := 65.
Definition ch_J : Z := 74.
Definition ch_K : Z := 75.
Definition ch_Q : Z := 81.
Definition ch_T : Z := 84.
Definition ch_Z : Z := 90.
Definition ch_a : Z := 97.
Definition ch_c : Z := 99.
Definition ch_d : Z := 100.
Definition ch_h : Z := 104.
Definition ch_s : Z := 115.
Definition ch_z : Z := 122.

Definition rankToChar (r : Z) : option Z :=
  if r =? RankTwo then Some ch_2
  else if r =? RankThree then Some ch_3
  else if r =? RankFour then Some ch_4
  else if r =? RankFive then Some ch_5
  else if r =? RankSix then Some ch_6
  else if r =? RankSeven then Some ch_7
  else if r =? RankEight then Some ch_8
  else if r =? RankNine then Some ch_9
  else if r =? RankTen then Some ch_T
  else if r =? RankJack then Some ch_J
  else if r =? RankQueen then Some ch_Q
  else if r =? RankKing then Some ch_K
  else if r =? RankAce then Some ch_A
  else None.

Definition charToRank (ch : Z) : option Z :=
  let u := if (ch_a <=? ch) && (ch <=? ch_z) then wrap8 (ch - (ch_a - ch_A)) else ch in
  if u =? ch_2 then Some RankTwo
  else if u =? ch_3 then Some RankThree
  else if u =? ch_4 then Some RankFour
  else if u =? ch_5 then Some RankFive
  else if u =? ch_6 then Some RankSix
  else if u =? ch_7 then Some RankSeven
  else if u =? ch_8 then Some RankEight
  else if u =? ch_9 then Some RankNine
  else if u =? ch_T then Some RankTen
  else if u =? ch_J then Some RankJack
  else if u =? ch_Q then Some RankQueen
  else if u =? ch_K then Some RankKing
  else if u =? ch_A then Some RankAce
  else None.

Definition suitToChar (s : Z) : option Z :=
  if s =? SuitClubs then Some ch_c
  else if s =? SuitDiamonds then Some ch_d
  else if s =? SuitHearts then Some ch_h
  else if s =? SuitSpades then Some ch_s
  else None.

(** The [switch u] of [UnmarshalJSON], after the suit byte is lowercased. *)
Definition charToSuit (sCh : Z) : option Z :=
  let u := if (ch_A <=? sCh) && (sCh <=? ch_Z) then wrap8 (sCh + (ch_a - ch_A)) else sCh in
  if u =? ch_c then Some SuitClubs
  else if u =? ch_d then Some SuitDiamonds
  else if u =? ch_h then Some SuitHearts
  else if u =? ch_s then Some SuitSpades
  else None.

(** [unicode/utf8] and [strings.TrimSpace], which [UnmarshalJSON] calls on
    the decoded string.  A string is the list of its bytes; a rune is its
    code point. *)
Definition RuneError : Z := 65533.
Definition RuneSelf : Z := 128.

(** The table [first] of package [utf8] for a leading byte of a sequence of
    two to four bytes: the length of the sequence and the range accepted for
    its second byte.  [None] stands for the entries [as] (ASCII) and [xx]
    (not a leading byte). *)
Definition firstInfo (b : Z) : option (nat * Z * Z) :=
  if (194 <=? b) && (b <=? 223) then Some (2%nat, 128, 191)
  else if b =? 224 then Some (3%nat, 160, 191)
  else if (225 <=? b) && (b <=? 236) then Some (3%nat, 128, 191)
  else if b =? 237 then Some (3%nat, 128, 159)
  else if (238 <=? b) && (b <=? 239) then Some (3%nat, 128, 191)
  else if b =? 240 then Some (4%nat, 144, 191)
  else if (241 <=? b) && (b <=? 243) then Some (4%nat, 128, 191)
  else if b =? 244 then Some (4%nat, 128, 143)
  else None.

(** A continuation byte, [locb <= b <= hicb]. *)
Definition isCont (b : Z) : bool := (128 <=? b) && (b <=? 191).

(** [utf8.DecodeRuneInString]: the first rune of [s] and its width in bytes;
    [(RuneError, 1)] for an encoding that is not valid, [(RuneError, 0)] for
    the empty string. *)
Definition DecodeRuneInString (s : list Z) : Z * nat :=
  match s with
  | [] => (RuneError, 0%nat)
  | s0 :: rest =>
    match firstInfo s0 with
    | None => if s0 <? RuneSelf then (s0, 1%nat) else (RuneError, 1%nat)
    | Some (sz, lo, hi) =>
      if (length s <? sz)%nat then (RuneError, 1%nat)
      else
        match rest with
        | [] => (RuneError, 1%nat)
        | s1 :: rest1 =>
          if (s1 <? lo) || (hi <? s1) then (RuneError, 1%nat)
          else if (sz <=? 2)%nat
          then (Z.lor (Z.shiftl (Z.land s0 31) 6) (Z.land s1 63), 2%nat)
          else
            match rest1 with
            | [] => (RuneError, 1%nat)
            | s2 :: rest2 =>
              if negb (isCont s2) then (RuneError, 1%nat)
              else if (sz <=? 3)%nat
              then (Z.lor (Z.lor (Z.shiftl (Z.land s0 15) 12)
                                 (Z.shiftl (Z.land s1 63) 6))
                          (Z.land s2 63), 3%nat)
              else
                match rest2 with
                | [] => (RuneError, 1%nat)
                | s3 :: _ =>
                  if negb (isCont s3) then (RuneError, 1%nat)
                  else (Z.lor (Z.lor (Z.lor (Z.shiftl (Z.land s0 7) 18)
                                            (Z.shiftl (Z.land s1 63) 12))
                                     (Z.shiftl (Z.land s2 63) 6))
                              (Z.land s3 63), 4%nat)
                end
            end
        end
    end
  end.

(** [utf8.RuneStart]: the byte is not a continuation byte. *)
Definition RuneStart (b : Z) : bool := negb (Z.land b 192 =? 128).

(** The loop of [utf8.DecodeLastRuneInString] that walks back from [start]
    to the first byte that can start a rune, not below [lim]; it looks at no
    more than [UTFMax = 4] bytes. *)
Fixpoint backToStart (s : list Z) (start lim : Z) (fuel : nat) : Z :=
  match fuel with
  | O => start
  | S fuel' =>
    if start <? lim then start
    else if RuneStart (nth (Z.to_nat start) s 0) then start
    else backToStart s (start - 1) lim fuel'
  end.

(** [utf8.DecodeLastRuneInString]: the last rune of [s] and its width. *)
Definition DecodeLastRuneInString (s : list Z) : Z * nat :=
  let end_ := Z.of_nat (length s) in
  if end_ =? 0 then (RuneError, 0%nat)
  else
    let r := nth (Z.to_nat (end_ - 1)) s 0 in
    if r <? RuneSelf then (r, 1%nat)
    else
      let lim := Z.max 0 (end_ - 4) in
      let start := backToStart s (end_ - 2) lim 4 in
      let start := if start <? lim then lim else start in
      let '(r, size) := DecodeRuneInString (drop (Z.to_nat start) s) in
      if start + Z.of_nat size =? end_ then (r, size) else (RuneError, 1%nat).

(** [unicode.IsSpace]: the Latin-1 white space, and the rest of the
    [White_Space] table. *)
Definition IsSpace (r : Z) : bool :=
  if r <=? 255 then
    (r =? 9) || (r =? 10) || (r =? 11) || (r =? 12) || (r =? 13) || (r =? 32) ||
    (r =? 133) || (r =? 160)
  else
    (r =? 5760) || ((8192 <=? r) && (r <=? 8202)) || ((8232 <=? r) && (r <=? 8233)) ||
    (r =? 8239) || (r =? 8287) || (r =? 12288).

(** The table [asciiSpace] of package [strings]: tab, line feed, vertical
    tab, form feed, carriage return, space. *)
Definition asciiSpace (b : Z) : bool :=
  ((9 <=? b) && (b <=? 13)) || (b =? 32).

(** [indexFunc(s, unicode.IsSpace, false)]: the byte index of the first rune
    that is not white space; [None] is the result -1.  [i] is the index of
    the first byte of [s] in the whole string. *)
Fixpoint indexNotSpace (fuel : nat) (s : list Z) (i : nat) : option nat :=
  match fuel with
  | O => None
  | S fuel' =>
    match s with
    | [] => None
    | _ =>
      let '(r, size) := DecodeRuneInString s in
      if IsSpace r then indexNotSpace fuel' (drop size s) (i + size) else Some i
    end
  end.

(** [lastIndexFunc(s, unicode.IsSpace, false)]: the byte index of the last
    rune that is not white space, looking at the first [i] bytes. *)
Fixpoint lastIndexNotSpace (fuel : nat) (s : list Z) (i : nat) : option nat :=
  match fuel with
  | O => None
  | S fuel' =>
    if (i =? 0)%nat then None
    else
      let '(r, size) := DecodeLastRuneInString (take i s) in
      let i := (i - size)%nat in
      if IsSpace r then lastIndexNotSpace fuel' s i else Some i
  end.

(** [strings.TrimLeftFunc], [TrimRightFunc] and [TrimFunc] with
    [unicode.IsSpace]. *)
Definition TrimLeftSpace (s : list Z) : list Z :=
  match indexNotSpace (length s) s 0 with
  | None => []
  | Some i => drop i s
  end.

Definition TrimRightSpace (s : list Z) : list Z :=
  match lastIndexNotSpace (length s) s (length s) with
  | Some i =>
    if RuneSelf <=? nth i s 0
    then take (i + snd (DecodeRuneInString (drop i s))) s
    else take (i + 1) s
  | None => []
  end.

Definition TrimFuncSpace (s : list Z) : list Z := TrimRightSpace (TrimLeftSpace s).

(** [strings.TrimSpace].  Its first loop skips the ASCII white space at the
    front and hands what is left to [TrimFunc] at the first byte that is not
    ASCII ([inl]: the result); its second loop does the same from the end
    ([rs] is the string from [start] to [stop], reversed) and hands over to
    [TrimRightFunc]. *)
Fixpoint trimSpaceStart (s : list Z) : list Z + list Z :=
  match s with
  | [] => inr []
  | c :: s' =>
    if RuneSelf <=? c then inl (TrimFuncSpace s)
    else if asciiSpace c then trimSpaceStart s'
    else inr s
  end.

Fixpoint trimSpaceStop (rs : list Z) : list Z :=
  match rs with
  | [] => []
  | c :: rs' =>
    if RuneSelf <=? c then TrimRightSpace (rev rs)
    else if asciiSpace c then trimSpaceStop rs'
    else rev rs
  end.

Definition TrimSpace (s : list Z) : list Z :=
  match trimSpaceStart s with
  | inl r => r
  | inr rest => trimSpaceStop (rev rest)
  end.

(** The two bytes [MarshalJSON] hands to [json.Marshal]. *)
Definition cardText (c : Card) : option (list Z) :=
  match rankToChar (Rank c) with
  | None => None
  | Some r =>
    match suitToChar (Suit c) with
    | None => None
    | Some s => Some [r; s]
    end
  end.

(** What [UnmarshalJSON] does with the string [json.Unmarshal] decoded. *)
Definition parseCardText (s0 : list Z) : option Card :=
  let s := TrimSpace s0 in
  match s with
  | [rCh; sCh] =>
    match charToRank rCh with
    | None => None
    | Some r =>
      match charToSuit sCh with
      | None => None
      | Some suit => Some (mkCard r suit)
      end
    end
  | _ => None
  end.

(** A byte that [encoding/json] writes and reads back unescaped. *)
Definition plainByte (b : Z) : Prop :=
  32 <= b < 127 /\ b <> 34 /\ b <> 92.

Section CardJSON.
(** [json.Marshal] and [json.Unmarshal] at type [string]. *)
Variable json_Marshal_string : list Z -> list Z.
Variable json_Unmarshal_string : list Z -> option (list Z).

Definition MarshalJSON (c : Card) : option (list Z) :=
  json_Marshal_string <$> cardText c.

Definition UnmarshalJSON (b : list Z) : option Card :=
  match json_Unmarshal_string b with
  | None => None
  | Some s => parseCardText s
  end.

End CardJSON.

(** The characters the encoder can emit. *)
Definition rankChars : list Z :=
  [ch_2; ch_3; ch_4; ch_5; ch_6; ch_7; ch_8; ch_9; ch_T; ch_J; ch_Q; ch_K; ch_A].
Definition suitChars : list Z := [ch_c; ch_d; ch_h; ch_s].

(** ASCII case folding, used to state that the parser ignores case. *)
Definition toLower (b : Z) : Z :=
  if (ch_A <=? b) && (b <=? ch_Z) then b + 32 else b.
Definition toUpper (b : Z) : Z :=
  if (ch_a <=? b) && (b <=? ch_z) then b - 32 else b.
Definition sameLetter (b b' : Z) : Prop :=
  b' = toLower b \/ b' = toUpper b.

(** A JSON string codec for plain ASCII text: the text between quotes. *)
Definition quoteString (s : list Z) : list Z := 34 :: s ++ [34].
Definition unquoteString (b : list Z) : option (list Z) :=
  match b with
  | 34 :: rest =>
    match rev rest with
    | 34 :: r => Some (rev r)
    | _ => None
    end
  | _ => None
  end.

(* ===================================================================== *)
(** ** engine: state (types.go) *)
(* ===================================================================== *)

(** [type Phase int]. *)
Definition PhasePreflop : Z := 0.
Definition PhaseFlop : Z := 1.
Definition PhaseTurn : Z := 2.
Definition PhaseRiver : Z := 3.
Definition PhaseShowdown : Z := 4.

Definition PlayerID := string.

Record Seat := mkSeat {
  Player : string;
  Stack : Z;
  Committed : Z;
  InHand : bool;
  AllIn : bool;
  Folded : bool
}.

Record State := mkState {
  SmallBlind : Z;
  BigBlind : Z;
  DealerIdx : Z;
  Order : list string;
  TurnIdx : Z;
  Phase : Z;
  Pot : Z;
  Seats : gmap string Seat;
  Deck : list Card;
  Board : list Card;
  Holes : gmap string (list Card);
  CurrentBet : Z;
  ActorsToAct : Z;
  LastRaiseSize : Z;
  HandActive : bool
}.

Record EngineSnapshot := mkEngineSnapshot {
  esSmallBlind : Z;
  esBigBlind : Z;
  esDealerIdx : Z;
  esOrder : list string;
  esTurnIdx : Z;
  esPhase : Z;
  esPot : Z;
  esBoard : list Card;
  esSeats : gmap string Seat
}.

(** Field assignments. *)
Definition set_Stack (st : Seat) (v : Z) : Seat :=
  mkSeat (Player st) v (Committed st) (InHand st) (AllIn st) (Folded st).
Definition set_Committed (st : Seat) (v : Z) : Seat :=
  mkSeat (Player st) (Stack st) v (InHand st) (AllIn st) (Folded st).
Definition set_InHand (st : Seat) (v : bool) : Seat :=
  mkSeat (Player st) (Stack st) (Committed st) v (AllIn st) (Folded st).
Definition set_AllIn (st : Seat) (v : bool) : Seat :=
  mkSeat (Player st) (Stack st) (Committed st) (InHand st) v (Folded st).
Definition set_Folded (st : Seat) (v : bool) : Seat :=
  mkSeat (Player st) (Stack st) (Committed st) (InHand st) (AllIn st) v.

Definition set_SmallBlind (s : State) (v : Z) : State :=
  mkState v (BigBlind s) (DealerIdx s) (Order s) (TurnIdx s) (Phase s) (Pot s)
    (Seats s) (Deck s) (Board s) (Holes s) (CurrentBet s) (ActorsToAct s)
    (LastRaiseSize s) (HandActive s).
Definition set_BigBlind (s : State) (v : Z) : State :=
  mkState (SmallBlind s) v (DealerIdx s) (Order s) (TurnIdx s) (Phase s) (Pot s)
    (Seats s) (Deck s) (Board s) (Holes s) (CurrentBet s) (ActorsToAct s)
    (LastRaiseSize s) (HandActive s).
Definition set_DealerIdx (s : State) (v : Z) : State :=
  mkState (SmallBlind s) (BigBlind s) v (Order s) (TurnIdx s) (Phase s) (Pot s)
    (Seats s) (Deck s) (Board s) (Holes s) (CurrentBet s) (ActorsToAct s)
    (LastRaiseSize s) (HandActive s).
Definition set_Order (s : State) (v : list string) : State :=
  mkState (SmallBlind s) (BigBlind s) (DealerIdx s) v (TurnIdx s) (Phase s) (Pot s)
    (Seats s) (Deck s) (Board s) (Holes s) (CurrentBet s) (ActorsToAct s)
    (LastRaiseSize s) (HandActive s).
Definition set_TurnIdx (s : State) (v : Z) : State :=
  mkState (SmallBlind s) (BigBlind s) (DealerIdx s) (Order s) v (Phase s) (Pot s)
    (Seats s) (Deck s) (Board s) (Holes s) (CurrentBet s) (ActorsToAct s)
    (LastRaiseSize s) (HandActive s).
Definition set_Phase (s : State) (v : Z) : State :=
  mkState (SmallBlind s) (BigBlind s) (DealerIdx s) (Order s) (TurnIdx s) v (Pot s)
    (Seats s) (Deck s) (Board s) (Holes s) (CurrentBet s) (ActorsToAct s)
    (LastRaiseSize s) (HandActive s).
Definition set_Pot (s : State) (v : Z) : State :=
  mkState (SmallBlind s) (BigBlind s) (DealerIdx s) (Order s) (TurnIdx s) (Phase s) v
    (Seats s) (Deck s) (Board s) (Holes s) (CurrentBet s) (ActorsToAct s)
    (LastRaiseSize s) (HandActive s).
Definition set_Seats (s : State) (v : gmap string Seat) : State :=
  mkState (SmallBlind s) (BigBlind s) (DealerIdx s) (Order s) (TurnIdx s) (Phase s) (Pot s)
    v (Deck s) (Board s) (Holes s) (CurrentBet s) (ActorsToAct s)
    (LastRaiseSize s) (HandActive s).
Definition set_Deck (s : State) (v : list Card) : State :=
  mkState (SmallBlind s) (BigBlind s) (DealerIdx s) (Order s) (TurnIdx s) (Phase s) (Pot s)
    (Seats s) v (Board s) (Holes s) (CurrentBet s) (ActorsToAct s)
    (LastRaiseSize s) (HandActive s).
Definition set_Board (s : State) (v : list Card) : State :=
  mkState (SmallBlind s) (BigBlind s) (DealerIdx s) (Order s) (TurnIdx s) (Phase s) (Pot s)
    (Seats s) (Deck s) v (Holes s) (CurrentBet s) (ActorsToAct s)
    (LastRaiseSize s) (HandActive s).
Definition set_Holes (s : State) (v : gmap string (list Card)) : State :=
  mkState (SmallBlind s) (BigBlind s) (DealerIdx s) (Order s) (TurnIdx s) (Phase s) (Pot s)
    (Seats s) (Deck s) (Board s) v (CurrentBet s) (ActorsToAct s)
    (LastRaiseSize s) (HandActive s).
Definition set_CurrentBet (s : State) (v : Z) : State :=
  mkState (SmallBlind s) (BigBlind s) (DealerIdx s) (Order s) (TurnIdx s) (Phase s) (Pot s)
    (Seats s) (Deck s) (Board s) (Holes s) v (ActorsToAct s)
    (LastRaiseSize s) (HandActive s).
Definition set_ActorsToAct (s : State) (v : Z) : State :=
  mkState (SmallBlind s) (BigBlind s) (DealerIdx s) (Order s) (TurnIdx s) (Phase s) (Pot s)
    (Seats s) (Deck s) (Board s) (Holes s) (CurrentBet s) v
    (LastRaiseSize s) (HandActive s).
Definition set_LastRaiseSize (s : State) (v : Z) : State :=
  mkState (SmallBlind s) (BigBlind s) (DealerIdx s) (Order s) (TurnIdx s) (Phase s) (Pot s)
    (Seats s) (Deck s) (Board s) (Holes s) (CurrentBet s) (ActorsToAct s)
    v (HandActive s).
Definition set_HandActive (s : State) (v : bool) : State :=
  mkState (SmallBlind s) (BigBlind s) (DealerIdx s) (Order s) (TurnIdx s) (Phase s) (Pot s)
    (Seats s) (Deck s) (Board s) (Holes s) (CurrentBet s) (ActorsToAct s)
    (LastRaiseSize s) v.

(** [*seat = ...] through the pointer the map holds for [p]. *)
Definition putSeat (s : State) (p : string) (st : Seat) : State :=
  set_Seats s (<[p := st]> (Seats s)).

(** The errors the engine returns. *)
Inductive EngineError :=
| ErrAlreadySeated
| ErrUnknownPlayer
| ErrInsufficient
| ErrNotPlayersTurn
| ErrNeedTwoPlayers
| ErrDeckUnderflow
| ErrBetExists
| ErrBetBelowBigBlind
| ErrBetNotPositive
| ErrCannotCheck
| ErrNothingToCall
| ErrAlreadyMatched
| ErrNothingToRaise
| ErrRaiseNotPositive
| ErrRaiseBelowMin.

(** What a call of an engine method leaves behind: the receiver after a
    nil error, the receiver and the error, a run-time panic, or (for the
    one self-recursive method) no return at all. *)
Inductive Result :=
| Ok (s : State)
| Fail (e : EngineError) (s : State)
| Panic
| Diverge.

(** *** Snapshot, RestoreFromSnapshot *)

Definition Snapshot (s : State) : EngineSnapshot :=
  let seatsCopy := Seats s in
  mkEngineSnapshot (SmallBlind s) (BigBlind s) (DealerIdx s) ([] ++ Order s)
    (TurnIdx s) (Phase s) (Pot s) ([] ++ Board s) seatsCopy.

Definition RestoreFromSnapshot (s : State) (ss : EngineSnapshot) : State :=
  let s := set_SmallBlind s (esSmallBlind ss) in
  let s := set_BigBlind s (esBigBlind ss) in
  let s := set_DealerIdx s (esDealerIdx ss) in
  let s := set_Order s ([] ++ esOrder ss) in
  let s := set_TurnIdx s (esTurnIdx ss) in
  let s := set_Phase s (esPhase ss) in
  let s := set_Pot s (esPot ss) in
  let s := set_Board s ([] ++ esBoard ss) in
  (* every key deleted, then every seat of the snapshot inserted *)
  let cleared : gmap string Seat := filter (fun _ => False) (Seats s) in
  set_Seats s (map_fold (fun id st acc => <[id := st]> acc) cleared (esSeats ss)).

(** *** NewState, Sit, Leave *)

Definition NewState (sb bb : Z) : State :=
  mkState sb bb 0 [] 0 PhasePreflop 0 ∅ [] [] ∅ 0 0 0 false.

(** [sort.Slice(s.Order, less)] with [less] the byte order of strings. *)
Fixpoint insertBy {A} (lt : A -> A -> bool) (x : A) (l : list A) : list A :=
  match l with
  | [] => [x]
  | y :: l' => if lt y x then y :: insertBy lt x l' else x :: l
  end.
Definition sortBy {A} (lt : A -> A -> bool) (l : list A) : list A :=
  foldr (insertBy lt) [] l.

Definition sortOrder (s : State) : State :=
  set_Order s (sortBy String.ltb (Order s)).

Definition Sit (s : State) (p : string) (buyin : Z) : Result :=
  match Seats s !! p with
  | Some _ => Fail ErrAlreadySeated s
  | None =>
    let s := putSeat s p (mkSeat p buyin 0 false false false) in
    let s := set_Order s (Order s ++ [p]) in
    Ok (sortOrder s)
  end.

Definition Leave (s : State) (p : string) : State :=
  let s := set_Seats s (delete p (Seats s)) in
  let s := set_Holes s (delete p (Holes s)) in
  let s := set_Order s (List.filter (fun id => negb (String.eqb id p)) (Order s)) in
  if len (Order s) <=? TurnIdx s then set_TurnIdx s 0 else s.

(** *** NewDeck *)

(** A [*rand.Rand]: the raw value its [k]-th draw is computed from. *)
Definition Rand := nat -> Z.
(** [r.Intn(n)] at the [k]-th draw, a value in [0, n). *)
Definition Intn (r : Rand) (k : nat) (n : Z) : Z := (r k) mod n.

Definition orderedDeck : list Card :=
  s ← [SuitClubs; SuitDiamonds; SuitHearts; SuitSpades];
  rnk ← [RankTwo; RankThree; RankFour; RankFive; RankSix; RankSeven; RankEight;
         RankNine; RankTen; RankJack; RankQueen; RankKing; RankAce];
  [mkCard rnk s].

(** [deck[i], deck[j] = deck[j], deck[i]]. *)
Definition swap {A} (l : list A) (i j : nat) : list A :=
  match l !! i, l !! j with
  | Some x, Some y => <[i := y]> (<[j := x]> l)
  | _, _ => l
  end.

(** The Fisher-Yates loop, [i] counting down to 1; [k] numbers the draws. *)
Fixpoint shuffle (r : Rand) (i : nat) (k : nat) (deck : list Card) : list Card :=
  match i with
  | O => deck
  | S i' =>
    let j := Intn r k (Z.of_nat i + 1) in
    shuffle r i' (S k) (swap deck i (Z.to_nat j))
  end.

Definition NewDeck (r : Rand) : list Card :=
  shuffle r (length orderedDeck - 1) 0 orderedDeck.

(** *** Betting helpers (rules) *)

Definition eligible (s : State) (pid : string) : bool :=
  match Seats s !! pid with
  | Some st => InHand st && negb (Folded st) && negb (AllIn st)
  | None => false
  end.

Definition countNeedToAct (s : State) : Z :=
  if len (Order s) =? 0 then 0
  else
    foldl (fun need pid =>
      if negb (eligible s pid) then need
      else
        match Seats s !! pid with
        | Some st =>
          if CurrentBet s =? 0 then add64 need 1
          else if Committed st <? CurrentBet s then add64 need 1
          else need
        | None => need
        end) 0 (Order s).

Definition RoundClosed (s : State) : bool :=
  if negb (HandActive s) then false
  else
    let elig := foldl (fun e pid => if eligible s pid then add64 e 1 else e) 0 (Order s) in
    (ActorsToAct s <=? 0) || (elig <=? 1).

Definition min64 (a b : Z) : Z := if a <? b then a else b.

(** *** StartHand *)

Definition postBlind (s : State) (p : string) (amt : Z) : option State :=
  seat ← Seats s !! p;
  if Stack seat <=? 0 then Some (putSeat s p (set_AllIn seat true))
  else
    let pay := if Stack seat <? amt then Stack seat else amt in
    let seat := if Stack seat <? amt then set_AllIn seat true else seat in
    let seat := set_Stack seat (sub64 (Stack seat) pay) in
    let seat := set_Committed seat (add64 (Committed seat) pay) in
    Some (set_Pot (putSeat s p seat) (add64 (Pot s) pay)).

(** The loop dealing two hole cards to each seat in [Order]. *)
Fixpoint dealHoles (s : State) (order : list string) : Result :=
  match order with
  | [] => Ok s
  | pid :: rest =>
    match Seats s !! pid with
    | None => Panic
    | Some st =>
      if InHand st && negb (Folded st) then
        match Deck s with
        | c0 :: c1 :: deck' =>
          dealHoles (set_Deck (set_Holes s (<[pid := [c0; c1]]> (Holes s))) deck') rest
        | _ => Fail ErrDeckUnderflow s
        end
      else dealHoles s rest
    end
  end.

Definition resetSeatForHand (seat : Seat) : Seat :=
  set_AllIn (set_Folded (set_InHand (set_Committed seat 0) true) false) false.

Definition StartHand (s : State) (r : Rand) : Result :=
  if len (Order s) <? 2 then Fail ErrNeedTwoPlayers s
  else
    let n := len (Order s) in
    let s := set_Pot s 0 in
    let s := set_Seats s (resetSeatForHand <$> Seats s) in
    let s := set_HandActive s true in
    let s := set_DealerIdx s (rem64 (add64 (DealerIdx s) 1) n) in
    let sbIdx := rem64 (add64 (DealerIdx s) 1) n in
    let bbIdx := rem64 (add64 (DealerIdx s) 2) n in
    match index (Order s) sbIdx ≫= (fun p => postBlind s p (SmallBlind s)) with
    | None => Panic
    | Some s =>
      match index (Order s) bbIdx ≫= (fun p => postBlind s p (BigBlind s)) with
      | None => Panic
      | Some s =>
        let s := set_TurnIdx s (rem64 (add64 bbIdx 1) n) in
        let s := set_Phase s PhasePreflop in
        let s := set_CurrentBet s (BigBlind s) in
        let s := set_LastRaiseSize s (BigBlind s) in
        let s := set_ActorsToAct s (countNeedToAct s) in
        let s := set_Deck s (NewDeck r) in
        let s := set_Board s [] in
        let s := set_Holes s ∅ in
        dealHoles s (Order s)
      end
    end.

(** *** AdvancePhase *)

Definition resetCommittedAndSetTurnFromDealer (s : State) : State :=
  let s := set_Seats s ((fun seat => set_Committed seat 0) <$> Seats s) in
  if len (Order s) =? 0 then
    let s := set_TurnIdx s 0 in
    let s := set_CurrentBet s 0 in
    let s := set_LastRaiseSize s (BigBlind s) in
    set_ActorsToAct s 0
  else
    let first := rem64 (add64 (DealerIdx s) 1) (len (Order s)) in
    let s := set_TurnIdx s first in
    let s := set_CurrentBet s 0 in
    let s := set_LastRaiseSize s (BigBlind s) in
    set_ActorsToAct s (countNeedToAct s).

(** [s.Board = append(s.Board, s.Deck[:n]...); s.Deck = s.Deck[n:]] when the
    deck holds at least [n] cards. *)
Definition dealBoard (s : State) (n : nat) : State :=
  if Z.of_nat n <=? len (Deck s)
  then set_Deck (set_Board s (Board s ++ take n (Deck s))) (drop n (Deck s))
  else s.

Definition AdvancePhase (s : State) : State :=
  if Phase s =? PhasePreflop then
    set_Phase (resetCommittedAndSetTurnFromDealer (dealBoard s 3)) PhaseFlop
  else if Phase s =? PhaseFlop then
    set_Phase (resetCommittedAndSetTurnFromDealer (dealBoard s 1)) PhaseTurn
  else if Phase s =? PhaseTurn then
    set_Phase (resetCommittedAndSetTurnFromDealer (dealBoard s 1)) PhaseRiver
  else if Phase s =? PhaseRiver then
    set_HandActive (set_Phase s PhaseShowdown) false
  else s.

(** *** Turn handling *)

Definition CurrentPlayer (s : State) : option string :=
  if len (Order s) =? 0 then Some EmptyString else index (Order s) (TurnIdx s).

Definition Dealer (s : State) : option string :=
  if len (Order s) =? 0 then Some EmptyString else index (Order s) (DealerIdx s).

(** [Some true]: it is [p]'s turn; [Some false]: [ErrNotPlayersTurn]. *)
Definition ensureTurn (s : State) (p : string) : option bool :=
  cur ← CurrentPlayer s; Some (String.eqb cur p).

Fixpoint advanceTurnLoop (n : nat) (s : State) : option State :=
  match n with
  | O => Some s
  | S n' =>
    let s := set_TurnIdx s (rem64 (add64 (TurnIdx s) 1) (len (Order s))) in
    pid ← index (Order s) (TurnIdx s);
    st ← Seats s !! pid;
    if InHand st && negb (Folded st) && negb (AllIn st) then Some s
    else advanceTurnLoop n' s
  end.

Definition advanceTurn (s : State) : option State :=
  if len (Order s) =? 0 then Some s
  else advanceTurnLoop (length (Order s)) s.

Definition finish (o : option State) : Result :=
  match o with
  | Some s => Ok s
  | None => Panic
  end.

(** *** Bet, Check, Fold, Call, Raise *)

Definition Bet (s : State) (p : string) (amt : Z) : Result :=
  match Seats s !! p with
  | None => Fail ErrUnknownPlayer s
  | Some st =>
    match ensureTurn s p with
    | None => Panic
    | Some false => Fail ErrNotPlayersTurn s
    | Some true =>
      if 0 <? CurrentBet s then Fail ErrBetExists s
      else if amt <? BigBlind s then Fail ErrBetBelowBigBlind s
      else if amt <=? 0 then Fail ErrBetNotPositive s
      else if Stack st <? amt then Fail ErrInsufficient s
      else
        let st := set_Stack st (sub64 (Stack st) amt) in
        let st := set_Committed st (add64 (Committed st) amt) in
        let s := set_Pot (putSeat s p st) (add64 (Pot s) amt) in
        let s := set_CurrentBet s (Committed st) in
        let s := set_LastRaiseSize s amt in
        let s := set_ActorsToAct s (countNeedToAct s) in
        finish (advanceTurn s)
    end
  end.

Definition Check (s : State) (p : string) : Result :=
  match Seats s !! p with
  | None => Fail ErrUnknownPlayer s
  | Some st =>
    match ensureTurn s p with
    | None => Panic
    | Some false => Fail ErrNotPlayersTurn s
    | Some true =>
      if CurrentBet s =? 0 then
        finish (advanceTurn (set_ActorsToAct s (sub64 (ActorsToAct s) 1)))
      else if negb (Committed st =? CurrentBet s) then Fail ErrCannotCheck s
      else finish (advanceTurn (set_ActorsToAct s (sub64 (ActorsToAct s) 1)))
    end
  end.

Definition Fold (s : State) (p : string) : Result :=
  match Seats s !! p with
  | None => Fail ErrUnknownPlayer s
  | Some st =>
    match ensureTurn s p with
    | None => Panic
    | Some false => Fail ErrNotPlayersTurn s
    | Some true =>
      let s := if (0 <? CurrentBet s) && (Committed st <? CurrentBet s)
               then set_ActorsToAct s (sub64 (ActorsToAct s) 1) else s in
      let st := set_InHand (set_Folded st true) false in
      finish (advanceTurn (putSeat s p st))
    end
  end.

Definition Call (s : State) (p : string) : Result :=
  match Seats s !! p with
  | None => Fail ErrUnknownPlayer s
  | Some st =>
    match ensureTurn s p with
    | None => Panic
    | Some false => Fail ErrNotPlayersTurn s
    | Some true =>
      if CurrentBet s =? 0 then Fail ErrNothingToCall s
      else
        let need := sub64 (CurrentBet s) (Committed st) in
        if need <=? 0 then Fail ErrAlreadyMatched s
        else if need <=? Stack st then
          (* full call *)
          let st := set_Stack st (sub64 (Stack st) need) in
          let st := set_Committed st (add64 (Committed st) need) in
          let s := set_Pot (putSeat s p st) (add64 (Pot s) need) in
          let s := set_ActorsToAct s (sub64 (ActorsToAct s) 1) in
          finish (advanceTurn s)
        else
          (* short all-in call *)
          let allin := Stack st in
          if allin <=? 0 then Fail ErrInsufficient s
          else
            let st := set_Stack st 0 in
            let st := set_AllIn st true in
            let st := set_Committed st (add64 (Committed st) allin) in
            let s := set_Pot (putSeat s p st) (add64 (Pot s) allin) in
            let s := set_ActorsToAct s (sub64 (ActorsToAct s) 1) in
            finish (advanceTurn s)
    end
  end.

(** [Raise] ends with a call of itself on the same arguments; [fuel] bounds
    the depth of that recursion. *)
Fixpoint Raise (fuel : nat) (s : State) (p : string) (add : Z) : Result :=
  match fuel with
  | O => Diverge
  | S fuel' =>
    match Seats s !! p with
    | None => Fail ErrUnknownPlayer s
    | Some st =>
      match ensureTurn s p with
      | None => Panic
      | Some false => Fail ErrNotPlayersTurn s
      | Some true =>
        if CurrentBet s =? 0 then Fail ErrNothingToRaise s
        else if add <=? 0 then Fail ErrRaiseNotPositive s
        else
          let need := if Committed st <? CurrentBet s
                      then sub64 (CurrentBet s) (Committed st) else 0 in
          let total := add64 need add in
          if (LastRaiseSize s <=? add) && (total <=? Stack st) then
            (* full raise *)
            let st1 := if 0 <? need
                       then set_Committed (set_Stack st (sub64 (Stack st) need))
                                          (add64 (Committed st) need)
                       else st in
            let pot1 := if 0 <? need then add64 (Pot s) need else Pot s in
            let st2 := set_Stack st1 (sub64 (Stack st1) add) in
            let st2 := set_Committed st2 (add64 (Committed st2) add) in
            let s := set_Pot (putSeat s p st2) (add64 pot1 add) in
            let s := set_CurrentBet s (Committed st2) in
            let s := set_LastRaiseSize s add in
            let s := set_ActorsToAct s (countNeedToAct s) in
            finish (advanceTurn s)
          else if Stack st <? total then
            (* short all-in raise *)
            let callPart := min64 (Stack st) need in
            let st1 := if 0 <? callPart
                       then set_Committed (set_Stack st (sub64 (Stack st) callPart))
                                          (add64 (Committed st) callPart)
                       else st in
            let pot1 := if 0 <? callPart then add64 (Pot s) callPart else Pot s in
            let s1 := set_Pot (putSeat s p st1) pot1 in
            let remain := Stack st1 in
            if remain <=? 0 then Fail ErrInsufficient s1
            else
              let st2 := set_Stack st1 0 in
              let st2 := set_AllIn st2 true in
              let st2 := set_Committed st2 (add64 (Committed st2) remain) in
              let s := set_Pot (putSeat s1 p st2) (add64 pot1 remain) in
              let s :=
                if sub64 (Committed st2) remain <? CurrentBet s
                then set_ActorsToAct s (sub64 (ActorsToAct s) 1)
                else if 0 <? need
                then set_ActorsToAct s (sub64 (ActorsToAct s) 1)
                else s in
              finish (advanceTurn s)
          else if add <? LastRaiseSize s then Fail ErrRaiseBelowMin s
          else Raise fuel' s p add
      end
    end
  end.

(* ===================================================================== *)
(** ** engine: hand evaluation and showdown *)
(* ===================================================================== *)

(** [type Category int]. *)
Definition CatHighCard : Z := 0.
Definition CatOnePair : Z := 1.
Definition CatTwoPair : Z := 2.
Definition CatTrips : Z := 3.
Definition CatStraight : Z := 4.
Definition CatFlush : Z := 5.
Definition CatFullHouse : Z := 6.
Definition CatQuads : Z := 7.
Definition CatStraightFlush : Z := 8.

(** [Ranks] is the array [[5]Rank], a list of five entries. *)
Record HandValue := mkHandValue { Cat : Z; Ranks : list Z }.

Fixpoint lessRanks (a b : list Z) : bool :=
  match a, b with
  | x :: a', y :: b' => if negb (x =? y) then x <? y else lessRanks a' b'
  | _, _ => false
  end.

Definition Less (hv other : HandValue) : bool :=
  if negb (Cat hv =? Cat other) then Cat hv <? Cat other
  else lessRanks (Ranks hv) (Ranks other).

Fixpoint equalRanks (a b : list Z) : bool :=
  match a, b with
  | x :: a', y :: b' => if negb (x =? y) then false else equalRanks a' b'
  | _, _ => true
  end.

Definition Equal (hv other : HandValue) : bool :=
  if negb (Cat hv =? Cat other) then false
  else equalRanks (Ranks hv) (Ranks other).

Definition zeroCard : Card := mkCard 0 0.

(** A five-entry array from the entries written so far. *)
Definition pad5 {A} (z : A) (l : list A) : list A := take 5 (l ++ replicate 5 z).

(** [fill(cat, ks...)]. *)
Definition fill (cat : Z) (ks : list Z) : HandValue :=
  mkHandValue cat (pad5 0 ks).

(** The ranks the descending loops [for r := 14; r >= 2; r--] visit. *)
Definition ranksDown : list Z := [14; 13; 12; 11; 10; 9; 8; 7; 6; 5; 4; 3; 2].

(** [rankCount[r]] and [suitCount[s]] after the counting loop. *)
Definition rankCount (all : list Card) (r : Z) : Z :=
  len (List.filter (fun c => Rank c =? r) all).
Definition suitCount (all : list Card) (s : Z) : Z :=
  len (List.filter (fun c => Suit c =? s) all).
Definition bySuit (all : list Card) (s : Z) : list Card :=
  List.filter (fun c => Suit c =? s) all.

(** The [uint16] bit set of the ranks of [cards]. *)
Definition rankBits (cards : list Card) : Z :=
  foldl (fun bits c => Z.lor bits (Z.shiftl 1 (Rank c) mod 65536)) 0 cards.

Definition wheelMask : Z :=
  Z.lor (Z.shiftl 1 14) (Z.lor (Z.shiftl 1 5) (Z.lor (Z.shiftl 1 4)
    (Z.lor (Z.shiftl 1 3) (Z.shiftl 1 2)))).

Fixpoint straightRun (bits : Z) (rs : list Z) (run : Z) : Z :=
  match rs with
  | [] => 0
  | r :: rs' =>
    if Z.land (Z.shiftr bits r) 1 =? 1 then
      if run + 1 =? 5 then wrap8 (r + 4) else straightRun bits rs' (run + 1)
    else straightRun bits rs' 0
  end.

Definition straightTop (bits : Z) : Z :=
  if Z.land bits wheelMask =? wheelMask then 5
  else straightRun bits ranksDown 0.

Definition highestExcept (all : list Card) (except : Z) : Z :=
  hd 0 (List.filter (fun r => negb (r =? except) && (0 <? rankCount all r)) ranksDown).

Definition topKicker (all : list Card) (ex1 ex2 : Z) : Z :=
  hd 0 (List.filter
          (fun r => negb ((r =? ex1) || (r =? ex2)) && (0 <? rankCount all r))
          ranksDown).

(** [topKickers(rankCount, ex, 2)]. *)
Definition topKickers (all : list Card) (ex : Z) : Z * Z :=
  match take 2 (List.filter (fun r => negb (r =? ex) && (0 <? rankCount all r)) ranksDown) with
  | [] => (0, 0)
  | [a] => (a, 0)
  | a :: b :: _ => (a, b)
  end.

Definition topKickers3 (all : list Card) (ex : Z) : Z * Z * Z :=
  match take 3 (List.filter (fun r => negb (r =? ex) && (0 <? rankCount all r)) ranksDown
                ++ [0; 0; 0]) with
  | a :: b :: c :: _ => (a, b, c)
  | _ => (0, 0, 0)
  end.

(** [topNRanks(rankCount, n, nil)]. *)
Definition topNRanks (all : list Card) (n : nat) : list Z :=
  take n (List.filter (fun r => 0 <? rankCount all r) ranksDown ++ replicate n 0).

Definition collectOfRank (all : list Card) (r : Z) (want : nat) : list Card :=
  pad5 zeroCard (take want (List.filter (fun c => Rank c =? r) all)).

Definition kickerCard (all : list Card) (r : Z) : Card :=
  snd (foldl (fun '(found, best) c =>
                if Rank c =? r then
                  if negb found || (Suit best <? Suit c) then (true, c) else (found, best)
                else (found, best))
             (false, zeroCard) all).

(** The inner loop of [pickStraight]: the index of the unused card of rank
    [want] with the highest suit. *)
Fixpoint pickBest (all : list Card) (whole : list Card) (used : list nat) (want : Z)
    (i : nat) (bestIdx : option nat) : option nat :=
  match all with
  | [] => bestIdx
  | c :: rest =>
    let bestIdx' :=
      if bool_decide (i ∈ used) then bestIdx
      else if Rank c =? want then
        match bestIdx with
        | None => Some i
        | Some b =>
          match whole !! b with
          | Some cb => if Suit cb <? Suit c then Some i else bestIdx
          | None => bestIdx
          end
        end
      else bestIdx in
    pickBest rest whole used want (S i) bestIdx'
  end.

Fixpoint pickLoop (all : list Card) (need : list Z) (used : list nat) (five : list Card)
    : list Card :=
  match need with
  | [] => five
  | want :: need' =>
    match pickBest all all used want 0%nat None with
    | Some b =>
      match all !! b with
      | Some c => pickLoop all need' (b :: used) (five ++ [c])
      | None => pickLoop all need' used five
      end
    | None => pickLoop all need' used five
    end
  end.

Definition pickStraight (all : list Card) (top : Z) : HandValue * list Card :=
  let need := if top =? 5 then [5; 4; 3; 2; 14]
              else [top; wrap8 (top - 1); wrap8 (top - 2); wrap8 (top - 3); wrap8 (top - 4)] in
  (mkHandValue CatStraight (pad5 0 [top]), pad5 zeroCard (pickLoop all need [] [])).

(** The rank groups, most frequent first, then highest rank first. *)
Definition groupLess (a b : Z * Z) : bool :=
  if negb (snd a =? snd b) then snd b <? snd a else fst b <? fst a.

Definition groupsOf (all : list Card) : list (Z * Z) :=
  sortBy groupLess
    (omap (fun r => if 0 <? rankCount all r then Some (r, rankCount all r) else None)
          ranksDown).

Definition flushSuitOf (all : list Card) : option Z :=
  head (List.filter (fun s => 5 <=? suitCount all s) [0; 1; 2; 3]).

Definition setAt {A} (l : list A) (i : nat) (x : A) : list A := <[i := x]> l.

(** [BestHand7]; a card whose rank exceeds 14 or whose suit exceeds 3 is an
    index out of range in the counting loop. *)
Definition BestHand7 (board holes : list Card) : option (HandValue * list Card) :=
  let all := board ++ holes in
  if negb (forallb (fun c => (0 <=? Rank c) && (Rank c <=? 14) && (0 <=? Suit c) && (Suit c <=? 3)) all)
  then None
  else
  let present := rankBits all in
  let groups := groupsOf all in
  let g0 := head groups in
  let g1 := groups !! 1%nat in
  match flushSuitOf all with
  | Some fs =>
    let suited := bySuit all fs in
    let top := straightTop (rankBits suited) in
    if negb (top =? 0) then
      Some (fill CatStraightFlush [top], snd (pickStraight suited top))
    else
      let five := take 5 (sortBy (fun a b => Rank b <? Rank a) suited) in
      Some (fill CatFlush (Rank <$> five), pad5 zeroCard five)
  | None =>
    let fullHouse :=
      match g0, g1 with
      | Some (trip1, 3), Some _ =>
        match head (List.filter (fun g => 2 <=? snd g) (drop 1 groups)) with
        | Some (pairOrTrip, _) =>
          if negb (pairOrTrip =? 0) then
            let five := collectOfRank all trip1 3 in
            let two := collectOfRank all pairOrTrip 2 in
            Some (fill CatFullHouse [trip1; pairOrTrip],
                  setAt (setAt five 3 (nth 0%nat two zeroCard)) 4 (nth 1%nat two zeroCard))
          else None
        | None => None
        end
      | _, _ => None
      end in
    match g0 with
    | Some (quad, 4) =>
      let kicker := highestExcept all quad in
      let five := collectOfRank all quad 4 in
      Some (fill CatQuads [quad; kicker], setAt five 4 (kickerCard all kicker))
    | _ =>
      match fullHouse with
      | Some r => Some r
      | None =>
        let top := straightTop present in
        if negb (top =? 0) then
          Some (fill CatStraight [top], snd (pickStraight all top))
        else
          match g0, g1 with
          | Some (trip, 3), _ =>
            let '(k1, k2) := topKickers all trip in
            let five := collectOfRank all trip 3 in
            Some (fill CatTrips [trip; k1; k2],
                  setAt (setAt five 3 (kickerCard all k1)) 4 (kickerCard all k2))
          | Some (high, 2), Some (low, 2) =>
            let k := topKicker all high low in
            let five := collectOfRank all high 2 in
            let p2 := collectOfRank all low 2 in
            Some (fill CatTwoPair [high; low; k],
                  setAt (setAt (setAt five 2 (nth 0%nat p2 zeroCard)) 3 (nth 1%nat p2 zeroCard))
                        4 (kickerCard all k))
          | Some (pr, 2), _ =>
            let '(k1, k2, k3) := topKickers3 all pr in
            let five := collectOfRank all pr 2 in
            Some (fill CatOnePair [pr; k1; k2; k3],
                  setAt (setAt (setAt five 2 (kickerCard all k1)) 3 (kickerCard all k2))
                        4 (kickerCard all k3))
          | _, _ =>
            let hi := topNRanks all 5 in
            Some (fill CatHighCard hi, pad5 zeroCard (kickerCard all <$> hi))
          end
      end
    end
  end.

(** *** ResolveShowdown *)

Record ShowdownWinner := mkShowdownWinner {
  swPlayer : string;
  swValue : HandValue;
  swCards : list Card
}.

Record ShowdownSummary := mkShowdownSummary {
  Winners : list ShowdownWinner;
  PayoutPer : Z;
  Remainder : Z;
  TotalPayout : Z
}.

(** A seat still contending for the pot. *)
Definition contender (s : State) (pid : string) : bool :=
  match Seats s !! pid with
  | Some st => InHand st && negb (Folded st)
  | None => false
  end.

(** The first loop: one evaluation per contending seat, in [Order]. *)
Fixpoint collectEvals (s : State) (order : list string) : option (list ShowdownWinner) :=
  match order with
  | [] => Some []
  | pid :: rest =>
    if contender s pid then
      let hc := default [] (Holes s !! pid) in
      '(hv, five) ← BestHand7 (Board s) hc;
      evals ← collectEvals s rest;
      Some (mkShowdownWinner pid hv five :: evals)
    else collectEvals s rest
  end.

Definition bestOf (evals : list ShowdownWinner) : HandValue :=
  match evals with
  | [] => mkHandValue 0 []
  | e :: rest =>
    foldl (fun best e => if Less best (swValue e) then swValue e else best) (swValue e) rest
  end.

Definition isBest (best : HandValue) (e : ShowdownWinner) : bool :=
  negb (Less best (swValue e)) && negb (Less (swValue e) best).

(** [winSet[w.Player] = i] for every winner. *)
Fixpoint buildWinSet (i : nat) (ws : list ShowdownWinner) (m : gmap string nat)
    : gmap string nat :=
  match ws with
  | [] => m
  | w :: ws' => buildWinSet (S i) ws' (<[swPlayer w := i]> m)
  end.

(** [st.Stack += per] for every winner that has a seat. *)
Definition payPer (per : Z) (seats : gmap string Seat) (w : ShowdownWinner)
    : gmap string Seat :=
  match seats !! swPlayer w with
  | Some st => <[swPlayer w := set_Stack st (add64 (Stack st) per)]> seats
  | None => seats
  end.

(** The remainder loop: [n] iterations left, [i] the loop counter. *)
Fixpoint remainderLoop (n : nat) (i start : Z) (winners : list ShowdownWinner)
    (winSet : gmap string nat) (s : State) (rem : Z) : option (State * Z) :=
  match n with
  | O => Some (s, rem)
  | S n' =>
    if rem <=? 0 then Some (s, rem)
    else
      pid ← index (Order s) (rem64 (add64 start i) (len (Order s)));
      match winSet !! pid with
      | Some idx =>
        w ← winners !! idx;
        match Seats s !! swPlayer w with
        | Some st =>
          remainderLoop n' (add64 i 1) start winners winSet
            (putSeat s (swPlayer w) (set_Stack st (add64 (Stack st) 1))) (sub64 rem 1)
        | None => remainderLoop n' (add64 i 1) start winners winSet s rem
        end
      | None => remainderLoop n' (add64 i 1) start winners winSet s rem
      end
  end.

Definition posInOrder (order : list string) (pid : string) : Z :=
  match list_find (fun id => id = pid) order with
  | Some (i, _) => Z.of_nat i
  | None => Z.shiftl 1 30
  end.

Definition ResolveShowdown (s : State) : option (State * ShowdownSummary) :=
  evals ← collectEvals s (Order s);
  match evals with
  | [] =>
    let per := 0 in
    let rem := Pot s in
    let s := set_HandActive (set_Pot s 0) false in
    Some (s, mkShowdownSummary [] per rem (add64 per rem))
  | _ =>
    let best := bestOf evals in
    let winners := List.filter (isBest best) evals in
    let nw := len winners in
    let per := if (0 <? Pot s) && (0 <? nw) then div64 (Pot s) nw else 0 in
    let rem := if (0 <? Pot s) && (0 <? nw) then rem64 (Pot s) nw else 0 in
    let s1 := set_Seats s (foldl (payPer per) (Seats s) winners) in
    s2 ← (if 0 <? rem then
            let start := rem64 (add64 (DealerIdx s1) 1) (len (Order s1)) in
            fst <$> remainderLoop (length (Order s1)) 0 start winners
                      (buildWinSet 0 winners ∅) s1 rem
          else Some s1);
    let total := add64 (mul64 per nw) (sub64 (Pot s2) (mul64 per nw)) in
    let s3 := set_HandActive (set_Pot s2 0) false in
    let sorted := sortBy (fun a b => posInOrder (Order s3) (swPlayer a)
                                     <? posInOrder (Order s3) (swPlayer b)) winners in
    Some (s3, mkShowdownSummary sorted per 0 total)
  end.

(* ===================================================================== *)
(** ** protocol: actions, messages, snapshots, the Lamport clock *)
(* ===================================================================== *)

(** [type ActionType string]; [ActOther] stands for every string that is
    none of the twelve constants. *)
Inductive ActionType :=
| ActCreateTable
| ActJoin
| ActLeave
| ActStartHand
| ActBet
| ActCall
| ActRaise
| ActCheck
| ActFold
| ActKick
| ActAdvance
| ActShowdown
| ActOther.

#[global] Instance ActionType_eq_dec : EqDecision ActionType.
Proof. solve_decision. Defined.

(** A value of [map[string]any]: a string, or anything else. *)
Inductive MetaValue :=
| MetaString (v : string)
| MetaOther.

Record Action := mkAction {
  aID : string;
  aType : ActionType;
  aPlayerID : string;
  aAmount : Z;
  aMeta : option (gmap string MetaValue)
}.

Inductive MsgType :=
| MsgPropose
| MsgCommit
| MsgSnapshot
| MsgStateQuery
| MsgHeartbeat
| MsgOther.

(** [types.TableConfig]; durations are [int64] nanoseconds. *)
Record TableConfig := mkTableConfig {
  cfgName : string;
  cfgMinBuyin : Z;
  cfgSmallBlind : Z;
  cfgBigBlind : Z;
  cfgAuthorityTick : Z;
  cfgFollowerTO : Z
}.

(** Modelled from the spec: the declaration of [protocol.Epoch] is not among
    the sources; the callers convert a [uint64] to it and print it with
    [%d], and the spec calls it a counter incremented on takeover.  It is
    [uint64] here. *)
Definition Epoch := Z.

Record TableSnapshot := mkTableSnapshot {
  ssCfg : TableConfig;
  ssSeq : Z;
  ssEpoch : Z;
  ssAuthority : string;
  ssEngineJSON : list Z
}.

Record NetMessage := mkNetMessage {
  msgTable : string;
  msgFrom : string;
  msgType : MsgType;
  msgEpoch : Z;
  msgLamport : Z;
  msgSeq : Z;
  msgAction : option Action;
  msgState : option TableSnapshot
}.

(** [Lamport.TickLocal] and [Lamport.TickRemote]: the new counter value. *)
Definition TickLocal (v : Z) : Z := wrapU64 (v + 1).
Definition TickRemote (v remote : Z) : Z :=
  if v <=? remote then wrapU64 (remote + 1) else wrapU64 (v + 1).

(* ===================================================================== *)
(** ** table: the replica *)
(* ===================================================================== *)

(** The replica.  [t_netOut] lists what was sent on the [netOut] channel,
    oldest first; [t_clock] is the counter behind the [*Lamport]; [t_rand]
    counts the calls of [protocol.RandActionID] made so far. *)
Record Table := mkTable {
  t_id : string;
  t_self : string;
  t_cfg : TableConfig;
  t_authority : bool;
  t_epoch : Z;
  t_clock : Z;
  t_netOut : list NetMessage;
  t_seq : Z;
  t_log : list Action;
  t_dedup : gset string;
  t_followers : gset string;
  t_authorityID : string;
  t_eng : State;
  t_lastHeartbeat : Z;
  t_rand : nat
}.

Definition set_cfg (t : Table) (v : TableConfig) : Table :=
  mkTable (t_id t) (t_self t) v (t_authority t) (t_epoch t) (t_clock t) (t_netOut t)
    (t_seq t) (t_log t) (t_dedup t) (t_followers t) (t_authorityID t) (t_eng t)
    (t_lastHeartbeat t) (t_rand t).
Definition set_authority (t : Table) (v : bool) : Table :=
  mkTable (t_id t) (t_self t) (t_cfg t) v (t_epoch t) (t_clock t) (t_netOut t)
    (t_seq t) (t_log t) (t_dedup t) (t_followers t) (t_authorityID t) (t_eng t)
    (t_lastHeartbeat t) (t_rand t).
Definition set_epoch (t : Table) (v : Z) : Table :=
  mkTable (t_id t) (t_self t) (t_cfg t) (t_authority t) v (t_clock t) (t_netOut t)
    (t_seq t) (t_log t) (t_dedup t) (t_followers t) (t_authorityID t) (t_eng t)
    (t_lastHeartbeat t) (t_rand t).
Definition set_clock (t : Table) (v : Z) : Table :=
  mkTable (t_id t) (t_self t) (t_cfg t) (t_authority t) (t_epoch t) v (t_netOut t)
    (t_seq t) (t_log t) (t_dedup t) (t_followers t) (t_authorityID t) (t_eng t)
    (t_lastHeartbeat t) (t_rand t).
Definition set_netOut (t : Table) (v : list NetMessage) : Table :=
  mkTable (t_id t) (t_self t) (t_cfg t) (t_authority t) (t_epoch t) (t_clock t) v
    (t_seq t) (t_log t) (t_dedup t) (t_followers t) (t_authorityID t) (t_eng t)
    (t_lastHeartbeat t) (t_rand t).
Definition set_seq (t : Table) (v : Z) : Table :=
  mkTable (t_id t) (t_self t) (t_cfg t) (t_authority t) (t_epoch t) (t_clock t) (t_netOut t)
    v (t_log t) (t_dedup t) (t_followers t) (t_authorityID t) (t_eng t)
    (t_lastHeartbeat t) (t_rand t).
Definition set_log (t : Table) (v : list Action) : Table :=
  mkTable (t_id t) (t_self t) (t_cfg t) (t_authority t) (t_epoch t) (t_clock t) (t_netOut t)
    (t_seq t) v (t_dedup t) (t_followers t) (t_authorityID t) (t_eng t)
    (t_lastHeartbeat t) (t_rand t).
Definition set_dedup (t : Table) (v : gset string) : Table :=
  mkTable (t_id t) (t_self t) (t_cfg t) (t_authority t) (t_epoch t) (t_clock t) (t_netOut t)
    (t_seq t) (t_log t) v (t_followers t) (t_authorityID t) (t_eng t)
    (t_lastHeartbeat t) (t_rand t).
Definition set_authorityID (t : Table) (v : string) : Table :=
  mkTable (t_id t) (t_self t) (t_cfg t) (t_authority t) (t_epoch t) (t_clock t) (t_netOut t)
    (t_seq t) (t_log t) (t_dedup t) (t_followers t) v (t_eng t)
    (t_lastHeartbeat t) (t_rand t).
Definition set_eng (t : Table) (v : State) : Table :=
  mkTable (t_id t) (t_self t) (t_cfg t) (t_authority t) (t_epoch t) (t_clock t) (t_netOut t)
    (t_seq t) (t_log t) (t_dedup t) (t_followers t) (t_authorityID t) v
    (t_lastHeartbeat t) (t_rand t).
Definition set_lastHeartbeat (t : Table) (v : Z) : Table :=
  mkTable (t_id t) (t_self t) (t_cfg t) (t_authority t) (t_epoch t) (t_clock t) (t_netOut t)
    (t_seq t) (t_log t) (t_dedup t) (t_followers t) (t_authorityID t) (t_eng t)
    v (t_rand t).
Definition set_rand (t : Table) (v : nat) : Table :=
  mkTable (t_id t) (t_self t) (t_cfg t) (t_authority t) (t_epoch t) (t_clock t) (t_netOut t)
    (t_seq t) (t_log t) (t_dedup t) (t_followers t) (t_authorityID t) (t_eng t)
    (t_lastHeartbeat t) v.

(** What a call of a table method leaves behind: the replica, a run-time
    panic, or no return within the recursion depth allowed. *)
Inductive Outcome :=
| Done (t : Table)
| Panicked
| Diverged.

Definition andThen (o : Outcome) (k : Table -> Outcome) : Outcome :=
  match o with
  | Done t => k t
  | Panicked => Panicked
  | Diverged => Diverged
  end.

(** [t.netOut <- m], stamped with [t.clock.TickLocal()]. *)
Definition send (t : Table) (ty : MsgType) (sq : Z) (a : option Action)
    (st : option TableSnapshot) : Table :=
  let c := TickLocal (t_clock t) in
  let t := set_clock t c in
  set_netOut t (t_netOut t ++ [mkNetMessage (t_id t) (t_self t) ty (t_epoch t) c sq a st]).

(** [seedFromActionID]: 64-bit FNV-1a of the bytes of the id, as [int64]. *)
Definition fnvOffset64 : Z := 14695981039346656037.
Definition fnvPrime64 : Z := 1099511628211.
Definition seedFromActionID (id : string) : Z :=
  wrap64 (foldl (fun h c => wrapU64 (Z.lxor h (Z.of_nat (nat_of_ascii c)) * fnvPrime64))
                fnvOffset64 (list_ascii_of_string id)).

Definition maxDur (a b : Z) : Z := if b <? a then a else b.

Definition Second : Z := 1000000000.

(** The arguments of the [log.Printf] calls of [apply] that index
    [s.Order]: [Some tt] when evaluating them does not panic. *)
Definition dealerOf (s : State) : option string :=
  if len (Order s) =? 0 then Some EmptyString else index (Order s) (DealerIdx s).

Definition dealerTag (s : State) (pid : string) : option unit :=
  if String.eqb pid EmptyString || (len (Order s) =? 0) then Some tt
  else _ ← index (Order s) (DealerIdx s); Some tt.

Definition logTurn (s : State) : option unit :=
  cur ← CurrentPlayer s; dealerTag s cur.

Definition logStart (s : State) : option unit :=
  cur ← CurrentPlayer s;
  dealer ← dealerOf s;
  _ ← dealerTag s dealer;
  dealerTag s cur.

(** A step of the event loop of [Run]. *)
Inductive ReplicaStep :=
| StepNet (now : Z) (msg : NetMessage)
| StepTakeover (now : Z)
| StepHeartbeat.

Section Replica.

(** The standard library behind the replica: [protocol.RandActionID] at its
    [k]-th call, [rand.New(rand.NewSource(seed))], and [encoding/json] at
    type [engine.EngineSnapshot] ([None]: an error). *)
Variable RandActionID : nat -> string.
Variable newRand : Z -> Rand.
Variable json_Marshal_engine : EngineSnapshot -> option (list Z).
Variable json_Unmarshal_engine : list Z -> option EngineSnapshot.

(** *** snapshot.go *)

Definition snapshot (t : Table) : TableSnapshot :=
  let es := Snapshot (t_eng t) in
  let payload := default [] (json_Marshal_engine es) in
  mkTableSnapshot (t_cfg t) (t_seq t) (t_epoch t) (t_authorityID t) payload.

Definition installSnapshot (t : Table) (ss : TableSnapshot) : Table :=
  let t := set_cfg t (ssCfg ss) in
  let t := set_seq t (ssSeq ss) in
  let t := set_epoch t (ssEpoch ss) in
  let t := set_authorityID t (ssAuthority ss) in
  let alignBlinds :=
    set_eng t (set_BigBlind (set_SmallBlind (t_eng t) (cfgSmallBlind (t_cfg t)))
                            (cfgBigBlind (t_cfg t))) in
  if 0 <? len (ssEngineJSON ss) then
    match json_Unmarshal_engine (ssEngineJSON ss) with
    | Some es => set_eng t (RestoreFromSnapshot (t_eng t) es)
    | None => alignBlinds
    end
  else alignBlinds.

Definition sendSnapshotTo (t : Table) (target : string) : Table :=
  if negb (t_authority t) then t
  else send t MsgSnapshot 0 None (Some (snapshot t)).

(** *** takeover.go *)

Definition sendHeartbeat (t : Table) : Table :=
  if negb (t_authority t) then t
  else send t MsgHeartbeat (t_seq t) None None.

Definition isSmallestNodeID (t : Table) : bool :=
  if String.eqb (t_authorityID t) EmptyString then true
  else String.ltb (t_self t) (t_authorityID t).

(** [now] is the reading of the wall clock. *)
Definition tryAuthorityTakeover (now : Z) (t : Table) : Table :=
  if t_authority t then t
  else if now - t_lastHeartbeat t <? maxDur (cfgFollowerTO (t_cfg t)) (3 * Second) then t
  else if negb (isSmallestNodeID t) then t
  else
    let t := set_authority t true in
    let t := set_epoch t (wrapU64 (t_epoch t + 1)) in
    let t := set_authorityID t (t_self t) in
    let t := sendHeartbeat t in
    sendSnapshotTo t EmptyString.

(** *** apply.go *)

(** An engine call made by [apply]: the engine left behind and whether the
    call returned an error. *)
Definition engineCall (t : Table) (r : Result) (k : Table -> bool -> Outcome) : Outcome :=
  match r with
  | Ok s => k (set_eng t s) false
  | Fail _ s => k (set_eng t s) true
  | Panic => Panicked
  | Diverge => Diverged
  end.

Definition guardLog (o : option unit) (k : Outcome) : Outcome :=
  match o with
  | Some _ => k
  | None => Panicked
  end.

(** The target of a kick: [a.Meta["target"].(string)]. *)
Definition kickTarget (a : Action) : option string :=
  match aMeta a with
  | Some m =>
    match m !! "target"%string with
    | Some (MetaString target) => Some target
    | _ => None
    end
  | None => None
  end.

(** The depth of [Raise]'s recursion that is followed. *)
Definition raiseFuel : nat := 2.

(** The [case protocol.ActRaise] of [apply]: the amount is the bet to raise
    to. *)
Definition applyRaise (s : State) (a : Action) : Result :=
  match Seats s !! aPlayerID a with
  | None => Fail ErrUnknownPlayer s
  | Some st =>
    let current := CurrentBet s in
    let committed := Committed st in
    let to := aAmount a in
    if to <=? current then Call s (aPlayerID a)
    else
      let additional := sub64 to committed in
      if additional <=? 0 then Ok s
      else
        let needCall := if committed <? current then sub64 current committed else 0 in
        let raiseBy := sub64 additional needCall in
        if raiseBy <=? 0 then Call s (aPlayerID a)
        else Raise raiseFuel s (aPlayerID a) raiseBy
  end.

(** [apply] and [commitAndBroadcast] call each other.  Their bodies are
    written over [rec], the function that stands for [apply] at the calls
    made inside them. *)
Definition commitWith (rec : Table -> Action -> Outcome) (t : Table) (a : Action) : Outcome :=
  if bool_decide (aID a ∈ t_dedup t) then Done t
  else
    let t := set_seq t (wrapU64 (t_seq t + 1)) in
    andThen (rec t a) (fun t =>
      let t := set_log t (t_log t ++ [a]) in
      let t := set_dedup t ({[aID a]} ∪ t_dedup t) in
      Done (send t MsgCommit (t_seq t) (Some a) None)).

(** The statements of [apply] after the [switch]: return on an error, the
    three announcements, and the advance the authority schedules when the
    betting round is closed. *)
Definition epilogue (rec : Table -> Action -> Outcome) (a : Action) (t : Table)
    (err announceStart announcePhase announceTurn : bool) : Outcome :=
  if err then Done t
  else
    guardLog (if announceStart then logStart (t_eng t) else Some tt) (
    guardLog (if announcePhase then logTurn (t_eng t) else Some tt) (
    guardLog (if announceTurn then logTurn (t_eng t) else Some tt) (
      if t_authority t && HandActive (t_eng t) && RoundClosed (t_eng t)
         && negb (bool_decide (aType a = ActAdvance))
      then
        let adv := mkAction (RandActionID (t_rand t)) ActAdvance (t_self t) 0 None in
        commitWith rec (set_rand t (S (t_rand t))) adv
      else Done t))).

Definition applyBody (rec : Table -> Action -> Outcome) (t : Table) (a : Action) : Outcome :=
  match aType a with
  | ActCreateTable => epilogue rec a t false false false false
  | ActJoin =>
    match Seats (t_eng t) !! aPlayerID a with
    | Some _ => Done t
    | None =>
      engineCall t (Sit (t_eng t) (aPlayerID a) (cfgMinBuyin (t_cfg t)))
        (fun t err => epilogue rec a t err false false false)
    end
  | ActLeave =>
    epilogue rec a (set_eng t (Leave (t_eng t) (aPlayerID a))) false false false true
  | ActKick =>
    match kickTarget a with
    | Some target =>
      epilogue rec a (set_eng t (Leave (t_eng t) target)) false false false true
    | None => epilogue rec a t false false false false
    end
  | ActStartHand =>
    let r := newRand (seedFromActionID (aID a)) in
    engineCall t (StartHand (t_eng t) r)
      (fun t err => epilogue rec a t err (negb err) false (negb err))
  | ActCheck =>
    engineCall t (Check (t_eng t) (aPlayerID a))
      (fun t err => epilogue rec a t err false false (negb err))
  | ActFold =>
    engineCall t (Fold (t_eng t) (aPlayerID a))
      (fun t err => epilogue rec a t err false false (negb err))
  | ActCall =>
    engineCall t (Call (t_eng t) (aPlayerID a))
      (fun t err => epilogue rec a t err false false false)
  | ActRaise =>
    engineCall t (applyRaise (t_eng t) a)
      (fun t err => epilogue rec a t err false false false)
  | ActBet =>
    if CurrentBet (t_eng t) =? 0 then
      engineCall t (Bet (t_eng t) (aPlayerID a) (aAmount a))
        (fun t err => epilogue rec a t err false false false)
    else
      rec t (mkAction (aID a) ActRaise (aPlayerID a) (aAmount a) (aMeta a))
  | ActAdvance =>
    let t := set_eng t (AdvancePhase (t_eng t)) in
    if t_authority t && (Phase (t_eng t) =? PhaseShowdown) then
      let sh := mkAction (RandActionID (t_rand t)) ActShowdown (t_self t) 0 None in
      andThen (commitWith rec (set_rand t (S (t_rand t))) sh)
        (fun t => epilogue rec a t false false true false)
    else epilogue rec a t false false true true
  | ActShowdown =>
    match ResolveShowdown (t_eng t) with
    | Some (s, _) => epilogue rec a (set_eng t s) false false false false
    | None => Panicked
    end
  | ActOther => epilogue rec a t false false false false
  end.

(** [apply], followed to a depth of [fuel] calls. *)
Fixpoint apply (fuel : nat) (t : Table) (a : Action) : Outcome :=
  match fuel with
  | O => Diverged
  | S fuel' => applyBody (apply fuel') t a
  end.

(** The depth the calls of [apply] reach: a bet turned into a raise, the
    advance it schedules, the showdown the advance schedules. *)
Definition applyFuel : nat := 4.

Definition commitAndBroadcast (t : Table) (a : Action) : Outcome :=
  commitWith (apply applyFuel) t a.

(** *** util.go *)

Definition applyCommit (t : Table) (a : Action) (sq : Z) : Outcome :=
  if bool_decide (aID a ∈ t_dedup t) then Done t
  else if negb (sq =? wrapU64 (t_seq t + 1)) then
    Done (send t MsgStateQuery 0 None None)
  else
    let t := set_seq t sq in
    andThen (apply applyFuel t a) (fun t =>
      let t := set_log t (t_log t ++ [a]) in
      Done (set_dedup t ({[aID a]} ∪ t_dedup t))).

Definition isKick (a : Action) : bool := bool_decide (aType a = ActKick).

(** [now] is what [time.Now()] returns when the handler reads it. *)
Definition onNet (now : Z) (t : Table) (msg : NetMessage) : Outcome :=
  let t := set_clock t (TickRemote (t_clock t) (msgLamport msg)) in
  match msgType msg with
  | MsgPropose =>
    if negb (t_authority t) then Done t
    else
      match msgAction msg with
      | None => Done t
      | Some a =>
        if isKick a && negb (String.eqb (msgFrom msg) (t_authorityID t)) then Done t
        else commitAndBroadcast t a
      end
  | MsgCommit =>
    match msgAction msg with
    | None => Done t
    | Some a =>
      if msgEpoch msg <? t_epoch t then Done t
      else if isKick a && negb (String.eqb (msgFrom msg) (t_authorityID t)) then Done t
      else
        andThen (applyCommit t a (msgSeq msg)) (fun t =>
          let t := if (t_epoch t <? msgEpoch msg) || String.eqb (t_authorityID t) EmptyString
                   then set_authorityID (set_epoch t (msgEpoch msg)) (msgFrom msg)
                   else t in
          Done (set_lastHeartbeat t now))
    end
  | MsgSnapshot =>
    match msgState msg with
    | None => Done t
    | Some ss =>
      if msgEpoch msg <? t_epoch t then Done t
      else Done (set_lastHeartbeat (installSnapshot t ss) now)
    end
  | MsgHeartbeat =>
    if msgEpoch msg <? t_epoch t then Done t
    else
      Done (set_lastHeartbeat (set_authorityID (set_epoch t (msgEpoch msg)) (msgFrom msg)) now)
  | MsgStateQuery =>
    if t_authority t then Done (sendSnapshotTo t (msgFrom msg)) else Done t
  | MsgOther => Done t
  end.

Definition ProposeLocal (t : Table) (a : Action) : Outcome :=
  if t_authority t then commitAndBroadcast t a
  else Done (send t MsgPropose 0 (Some a) None).

(** One iteration of the loop of [Run]: a message from the inbox, the
    follower's timeout, or the authority's heartbeat tick. *)
Definition runStep (t : Table) (st : ReplicaStep) : Outcome :=
  match st with
  | StepNet now msg => onNet now t msg
  | StepTakeover now => Done (tryAuthorityTakeover now t)
  | StepHeartbeat => Done (sendHeartbeat t)
  end.

End Replica.

(* ===================================================================== *)
(** ** Notions the properties are stated with *)
(* ===================================================================== *)

(** Every player in [Order] has a seat, and [Order] is a slice Go can hold
    (a slice of strings has fewer than 2^60 entries). *)
Definition wellSeated (s : State) : Prop :=
  forallb (fun pid => bool_decide (is_Some (Seats s !! pid))) (Order s) = true /\
  2 * len (Order s) <= MaxInt64.

(** The round state a phase advance is said to leave behind. *)
Definition roundReset (s : State) : Prop :=
  (forall p st, Seats s !! p = Some st -> Committed st = 0) /\
  CurrentBet s = 0 /\
  LastRaiseSize s = BigBlind s.

(** [s'] is [s] with the turn moved [k] seats on: the seats passed over
    cannot act, and the seat reached can, unless the walk went once around
    the table. *)
Definition turnAdvanced (s s' : State) : Prop :=
  s' = set_TurnIdx s (TurnIdx s') /\
  ((Order s = [] /\ TurnIdx s' = TurnIdx s) \/
   exists k : Z,
     1 <= k <= len (Order s) /\
     TurnIdx s' = (TurnIdx s + k) mod len (Order s) /\
     (forall j pid, 1 <= j < k ->
        index (Order s) ((TurnIdx s + j) mod len (Order s)) = Some pid ->
        eligible s pid = false) /\
     (k = len (Order s) \/
      exists pid, index (Order s) (TurnIdx s') = Some pid /\ eligible s pid = true)).

(** The state [Call] hands to [advanceTurn] after [p] paid [x] chips. *)
Definition afterCall (s : State) (p : string) (st' : Seat) (x : Z) : State :=
  set_ActorsToAct (set_Pot (putSeat s p st') (add64 (Pot s) x)) (sub64 (ActorsToAct s) 1).

(** The state a full raise of [add] hands to [advanceTurn] after [p] paid
    [total] chips. *)
Definition afterRaise (s : State) (p : string) (st' : Seat) (total add : Z) : State :=
  let s1 := set_LastRaiseSize
              (set_CurrentBet (set_Pot (putSeat s p st') (add64 (Pot s) total))
                              (Committed st')) add in
  set_ActorsToAct s1 (countNeedToAct s1).

(** The chips on the table, as an [int64] accumulator adds them up. *)
Definition sumStacks (seats : gmap string Seat) : Z :=
  map_fold (fun _ st acc => Stack st + acc) 0 seats.
Definition chips (s : State) : Z := wrap64 (sumStacks (Seats s) + Pot s).

(** Equal as [int64] values: equal up to a multiple of 2^64. *)
Definition eqm64 (a b : Z) : Prop := exists k, a = b + k * two64.

(** *** The showdown, as the specification words it *)

Definition isWinner (winners : list ShowdownWinner) (pid : string) : bool :=
  bool_decide (pid ∈ swPlayer <$> winners).

(** The evaluations that tie for the best hand. *)
Definition showdownWinners (evals : list ShowdownWinner) : list ShowdownWinner :=
  List.filter (isBest (bestOf evals)) evals.

(** The seats in the order the remainder walk visits them: the seat left of
    the dealer first. *)
Definition seatWalk (s : State) : list string :=
  rotate (Z.to_nat ((DealerIdx s + 1) mod len (Order s))) (Order s).

(** The winners that receive one of the [rem] odd chips. *)
Definition oddChipSeats (s : State) (winners : list ShowdownWinner) (rem : Z) : list string :=
  take (Z.to_nat rem) (List.filter (isWinner winners) (seatWalk s)).

(** One chip to each winner met along [visit] until [rem] chips are gone. *)
Fixpoint giveOdd (isW : string -> bool) (visit : list string)
    (seats : gmap string Seat) (rem : Z) : gmap string Seat * Z :=
  match visit with
  | [] => (seats, rem)
  | pid :: rest =>
    if rem <=? 0 then (seats, rem)
    else if isW pid then
      match seats !! pid with
      | Some st =>
        giveOdd isW rest (<[pid := set_Stack st (add64 (Stack st) 1)]> seats) (rem - 1)
      | None => giveOdd isW rest seats rem
      end
    else giveOdd isW rest seats rem
  end.

(** What the showdown leaves in the seat of [pid]: a winner's stack grows by
    [per], and by one more chip for the winners in [odd]. *)
Definition paidSeat (winners : list ShowdownWinner) (odd : list string) (per : Z)
    (pid : string) (st : Seat) : Seat :=
  if isWinner winners pid
  then set_Stack st (wrap64 (Stack st + per + (if bool_decide (pid ∈ odd) then 1 else 0)))
  else st.

(** *** The replica *)

(** [n] increments of a [uint64] sequence number. *)
Definition incrSeq (n : nat) (x : Z) : Z := Nat.iter n (fun x => wrapU64 (x + 1)) x.

(** [t1] is [t] after some actions were committed: the log grew by the
    actions [l], the sequence number by their count, their ids were
    recorded, the engine may have changed, and the role, the epoch and the
    authority did not.  A follower commits nothing on its own. *)
Definition grows (t t1 : Table) : Prop :=
  t_id t1 = t_id t /\ t_self t1 = t_self t /\ t_cfg t1 = t_cfg t /\
  t_authority t1 = t_authority t /\ t_epoch t1 = t_epoch t /\
  t_authorityID t1 = t_authorityID t /\ t_lastHeartbeat t1 = t_lastHeartbeat t /\
  exists l,
    t_log t1 = t_log t ++ l /\
    t_seq t1 = incrSeq (length l) (t_seq t) /\
    t_dedup t1 = list_to_set (aID <$> l) ∪ t_dedup t /\
    (t_authority t = false ->
     l = [] /\ t_netOut t1 = t_netOut t /\ t_clock t1 = t_clock t /\ t_rand t1 = t_rand t).

(** What a commit is about: the sequence number, the log, the ids seen and
    the engine. *)
Definition sameReplicated (t t' : Table) : Prop :=
  t_seq t' = t_seq t /\ t_log t' = t_log t /\ t_dedup t' = t_dedup t /\
  t_eng t' = t_eng t.


(** [q] is a state query of replica [t]. *)
Definition isStateQuery (t : Table) (q : NetMessage) : Prop :=
  msgType q = MsgStateQuery /\ msgTable q = t_id t /\ msgFrom q = t_self t /\
  msgEpoch q = t_epoch t /\ msgAction q = None /\ msgState q = None.

(** The steps a replica meets among peers that run this code: a snapshot
    message carries the epoch of its snapshot, and the epoch counter is
    below its last value when it is incremented. *)
Definition honestStep (t : Table) (st : ReplicaStep) : Prop :=
  match st with
  | StepNet _ msg =>
    msgType msg = MsgSnapshot ->
    forall ss, msgState msg = Some ss -> ssEpoch ss = msgEpoch msg
  | StepTakeover _ => 0 <= t_epoch t < two64 - 1
  | StepHeartbeat => True
  end.

(** *** Sequences of engine operations on one hand *)

Inductive EngineOp :=
| OpBet (p : string) (amt : Z)
| OpCheck (p : string)
| OpCall (p : string)
| OpRaise (p : string) (add : Z)
| OpFold (p : string)
| OpAdvance
| OpShowdown.

(** The state a successful operation leaves; [None] when the operation
    returned an error or did not return. *)
Definition runOp (s : State) (op : EngineOp) : option State :=
  match op with
  | OpBet p amt => match Bet s p amt with Ok s' => Some s' | _ => None end
  | OpCheck p => match Check s p with Ok s' => Some s' | _ => None end
  | OpCall p => match Call s p with Ok s' => Some s' | _ => None end
  | OpRaise p add => match Raise 1 s p add with Ok s' => Some s' | _ => None end
  | OpFold p => match Fold s p with Ok s' => Some s' | _ => None end
  | OpAdvance => Some (AdvancePhase s)
  | OpShowdown => fst <$> ResolveShowdown s
  end.

Fixpoint runOps (s : State) (ops : list EngineOp) : option State :=
  match ops with
  | [] => Some s
  | op :: rest =>
    match runOp s op with
    | Some s' => runOps s' rest
    | None => None
    end
  end.

(** A showdown that has somebody to pay: a seat of [Order] still contends,
    the pot is a non-negative [int64] and the dealer index lies in [Order]. *)
Definition showdownReady (s : State) : bool :=
  existsb (contender s) (Order s) &&
  (0 <=? Pot s) && (Pot s <=? MaxInt64) &&
  (0 <=? DealerIdx s) && (DealerIdx s <? len (Order s)) &&
  (2 * len (Order s) <=? MaxInt64).

Definition isShowdown (op : EngineOp) : bool :=
  match op with
  | OpShowdown => true
  | _ => false
  end.

(** Every showdown of the sequence is resolved in a state that is ready. *)
Fixpoint showdownsReady (s : State) (ops : list EngineOp) : bool :=
  match ops with
  | [] => true
  | op :: rest =>
    (if isShowdown op then showdownReady s else true) &&
    match runOp s op with
    | Some s' => showdownsReady s' rest
    | None => true
    end
  end.

(** Three players tie on a royal flush on the board for a pot of 101 chips;
    "b" is the dealer. *)
Definition demoTie : State :=
  mkState 5 10 1 ["a"; "b"; "c"]%string 2 PhaseShowdown 101
    (list_to_map [("a", mkSeat "a" 966 0 true false false);
                  ("b", mkSeat "b" 967 0 true false false);
                  ("c", mkSeat "c" 966 0 true false false)]%string)
    []
    [mkCard 14 3; mkCard 13 3; mkCard 12 3; mkCard 11 3; mkCard 10 3]
    (list_to_map [("a", [mkCard 2 0; mkCard 3 1]);
                  ("b", [mkCard 4 0; mkCard 5 1]);
                  ("c", [mkCard 6 0; mkCard 7 1])]%string)
    0 0 10 false.
Definition demoTieEvals : list ShowdownWinner :=
  default [] (collectEvals demoTie (Order demoTie)).

(** A hand played to the showdown, and one that everybody folds. *)
Definition demoHand : list EngineOp :=
  [OpCall "b"; OpCall "c"; OpCheck "a"; OpAdvance; OpBet "c" 20; OpRaise "a" 25;
   OpFold "b"; OpCall "c"; OpAdvance; OpAdvance; OpAdvance; OpShowdown].
Definition demoFolds : list EngineOp :=
  [OpFold "b"; OpFold "c"; OpFold "a"; OpShowdown].

(** [winSet] maps exactly the winners, each to an index of [winners] that
    holds it. *)
Definition winSetOk (winners : list ShowdownWinner) (winSet : gmap string nat) : Prop :=
  (forall pid idx, winSet !! pid = Some idx ->
     exists w, winners !! idx = Some w /\ swPlayer w = pid) /\
  (forall pid, isWinner winners pid = true -> is_Some (winSet !! pid)) /\
  (forall pid, isWinner winners pid = false -> winSet !! pid = None).

(** What is assumed of [rec], the calls of [apply] inside its body. *)
Definition recGrows (rec : Table -> Action -> Outcome) : Prop :=
  forall t a t1, rec t a = Done t1 -> grows t t1.

(** The replica after the clock of the message was merged. *)
Definition merged (t : Table) (msg : NetMessage) : Table :=
  set_clock t (TickRemote (t_clock t) (msgLamport msg)).

(** *** Every call the replica makes on its engine *)

Inductive EngineCall :=
| CallSit (p : string) (buyin : Z)
| CallLeave (p : string)
| CallStartHand (r : Rand)
| CallBet (p : string) (amt : Z)
| CallCheck (p : string)
| CallCall (p : string)
| CallRaise (p : string) (add : Z)
| CallFold (p : string)
| CallAdvancePhase
| CallResolveShowdown
| CallRestore (ss : EngineSnapshot)
| CallAlignBlinds (sb bb : Z).

(** The engine a call leaves behind when it returns, with or without an
    error. *)
Definition afterCallOf (s : State) (c : EngineCall) : option State :=
  let st (r : Result) :=
    match r with
    | Ok s' => Some s'
    | Fail _ s' => Some s'
    | _ => None
    end in
  match c with
  | CallSit p buyin => st (Sit s p buyin)
  | CallLeave p => Some (Leave s p)
  | CallStartHand r => st (StartHand s r)
  | CallBet p amt => st (Bet s p amt)
  | CallCheck p => st (Check s p)
  | CallCall p => st (Call s p)
  | CallRaise p add => st (Raise raiseFuel s p add)
  | CallFold p => st (Fold s p)
  | CallAdvancePhase => Some (AdvancePhase s)
  | CallResolveShowdown => fst <$> ResolveShowdown s
  | CallRestore ss => Some (RestoreFromSnapshot s ss)
  | CallAlignBlinds sb bb => Some (set_BigBlind (set_SmallBlind s sb) bb)
  end.

(** The states the engine of a replica goes through. *)
Inductive reachable (sb bb : Z) : State -> Prop :=
| reach_new : reachable sb bb (NewState sb bb)
| reach_call s c s' :
    reachable sb bb s -> afterCallOf s c = Some s' -> reachable sb bb s'.

(** Whenever a bet stands, the last raise size is positive. *)
Definition raiseFloor (s : State) : Prop :=
  0 < CurrentBet s -> 0 < LastRaiseSize s.

(** *** Sample states *)

Definition stateOf (r : Result) : State :=
  match r with
  | Ok s => s
  | Fail _ s => s
  | _ => NewState 0 0
  end.

Definition demoRand : Rand := fun k => Z.of_nat k.

(** Three players seated with 1000 chips each, blinds 5/10. *)
Definition demoSeated : State :=
  stateOf (Sit (stateOf (Sit (stateOf (Sit (NewState 5 10) "a" 1000)) "b" 1000)) "c" 1000).
(** The hand started: "c" posted 5, "a" posted 10, "b" is to act. *)
Definition demoStart : State := stateOf (StartHand demoSeated demoRand).
(** "b" and "c" called, "a" checked. *)
Definition demoPreflopDone : State :=
  stateOf (Check (stateOf (Call (stateOf (Call demoStart "b")) "c")) "a").
(** On the river with a bet of 20 by "c" called by "a" and "b". *)
Definition demoRiver : State :=
  let s := AdvancePhase (AdvancePhase (AdvancePhase demoPreflopDone)) in
  stateOf (Call (stateOf (Call (stateOf (Bet s "c" 20)) "a")) "b").
(** Everybody folded before the flop. *)
Definition demoAllFolded : State :=
  stateOf (Fold (stateOf (Fold (stateOf (Fold demoStart "b")) "c")) "a").

(** *** Sample replicas *)

Definition demoCfg : TableConfig := mkTableConfig "t" 1000 5 10 0 0.
Definition demoIDs : nat -> string := fun _ => "auto"%string.
Definition demoNewRand : Z -> Rand := fun _ => demoRand.
Definition noMarshal : EngineSnapshot -> option (list Z) := fun _ => None.
Definition noUnmarshal : list Z -> option EngineSnapshot := fun _ => None.

(** A follower at sequence number 2 whose engine is at the start of the
    sample hand, and the authority of the same table after "b" called. *)
Definition demoFollower : Table :=
  mkTable "T" "n2" demoCfg false 4 0 [] 2 [] ∅ ∅ "n1" demoStart 0 0.
Definition demoAuthority : Table :=
  mkTable "T" "n1" demoCfg true 4 0 [] 2 [] ∅ ∅ "n1" (stateOf (Call demoStart "b")) 0 0.
Definition demoCommit (sq : Z) (a : Action) : NetMessage :=
  mkNetMessage "T" "n1" MsgCommit 4 7 sq (Some a) None.
Definition demoCallB : Action := mkAction "a-1" ActCall "b" 0 None.
(** A snapshot message of epoch 5 whose snapshot is of epoch 3. *)
Definition demoSnapshotMsg : NetMessage :=
  mkNetMessage "T" "n1" MsgSnapshot 5 7 0 None
    (Some (mkTableSnapshot demoCfg 9 3 "n1" [])).
(** A follower whose epoch counter is at its last value. *)
Definition demoLastEpoch : Table :=
  mkTable "T" "n2" demoCfg false (two64 - 1) 0 [] 2 [] ∅ ∅ "" demoStart 0 0.

(* ===================================================================== *)
(** ** netx: the length-prefixed codec (codec.go) *)
(* ===================================================================== *)

Definition two32 : Z := 4294967296.
(** Reduction into [0, 2^32): the conversion [uint32(len(b))]. *)
Definition wrapU32 (x : Z) : Z := x mod two32.

(** [binary.BigEndian.PutUint32] and [binary.BigEndian.Uint32]. *)
Definition putUint32 (v : Z) : list Z :=
  [wrap8 (Z.shiftr v 24); wrap8 (Z.shiftr v 16); wrap8 (Z.shiftr v 8); wrap8 v].
Definition getUint32 (b0 b1 b2 b3 : Z) : Z :=
  Z.lor (Z.lor (Z.lor b3 (Z.shiftl b2 8)) (Z.shiftl b1 16)) (Z.shiftl b0 24).

(** The largest frame [Decode] accepts: [10*1024*1024] bytes. *)
Definition maxFrame : Z := 10 * 1024 * 1024.

(** The errors of [Decode]: [io.EOF], [io.ErrUnexpectedEOF], the frame that
    is too large, and the error of [json.Unmarshal]. *)
Inductive DecodeError :=
| ErrEOF
| ErrUnexpectedEOF
| ErrFrameTooLarge (n : Z)
| ErrUnmarshal.

(** [io.ReadFull(r, buf)] for a buffer of [n] bytes on a reader that will
    deliver the bytes [r] and then end: the bytes read, or the error, and
    what is left of the reader. *)
Definition readFull (r : list Z) (n : nat) : (DecodeError + list Z) * list Z :=
  if (n =? 0)%nat then (inr [], r)
  else if (length r =? 0)%nat then (inl ErrEOF, [])
  else if (length r <? n)%nat then (inl ErrUnexpectedEOF, [])
  else (inr (take n r), drop n r).

Section Codec.

(** [json.Marshal] and [json.Unmarshal] at type [protocol.NetMessage]
    ([None]: an error). *)
Variable json_Marshal_msg : NetMessage -> option (list Z).
Variable json_Unmarshal_msg : list Z -> option NetMessage.

(** [Encode]: the frame, or [None] for the error of [json.Marshal]; the
    writes into the [bytes.Buffer] do not fail. *)
Definition Encode (msg : NetMessage) : option (list Z) :=
  match json_Marshal_msg msg with
  | None => None
  | Some b => Some (putUint32 (wrapU32 (len b)) ++ b)
  end.

(** [Decode] on a reader that will deliver the bytes [r] and then end: the
    message or the error, and what is left of the reader. *)
Definition Decode (r : list Z) : (DecodeError + NetMessage) * list Z :=
  match readFull r 4 with
  | (inl e, r1) => (inl e, r1)
  | (inr hdr, r1) =>
    match hdr with
    | [b0; b1; b2; b3] =>
      let n := getUint32 b0 b1 b2 b3 in
      if maxFrame <? n then (inl (ErrFrameTooLarge n), r1)
      else
        match readFull r1 (Z.to_nat n) with
        | (inl e, r2) => (inl e, r2)
        | (inr buf, r2) =>
          match json_Unmarshal_msg buf with
          | Some msg => (inr msg, r2)
          | None => (inl ErrUnmarshal, r2)
          end
        end
    | _ => (inl ErrUnexpectedEOF, r1)
    end
  end.

End Codec.

(* ===================================================================== *)
(** ** table: the slice helpers (util.go) *)
(* ===================================================================== *)

(** [contains]: the loop returns at the first element equal to [x]. *)
Fixpoint contains (ss : list string) (x : string) : bool :=
  match ss with
  | [] => false
  | s :: ss' => if String.eqb s x then true else contains ss' x
  end.

(** The loop of [removeStr].  [out] is the slice [ss] cut to length 0 and
    shares its array, so [append(out, s)] writes [s] into that array at index [len(out)] while
    the [range] loop still reads from it: [arr] is the array, [w] is
    [len(out)], [i] the index the loop reads next and [todo] the number of
    iterations left. *)
Fixpoint removeStrLoop (x : string) (arr : list string) (w i : nat) (todo : nat)
    : list string * nat :=
  match todo with
  | O => (arr, w)
  | S todo' =>
    match arr !! i with
    | None => (arr, w)
    | Some s =>
      if String.eqb s x then removeStrLoop x arr w (S i) todo'
      else removeStrLoop x (<[w := s]> arr) (S w) (S i) todo'
    end
  end.

(** [removeStr(&ss, x)]: the new value of [ss], the first [len(out)] cells
    of the array. *)
Definition removeStr (ss : list string) (x : string) : list string :=
  let '(arr, w) := removeStrLoop x ss 0 0 (length ss) in take w arr.

(** The elements of [ss] other than [x], in their order. *)
Definition keepOthers (x : string) (ss : list string) : list string :=
  List.filter (fun s => negb (String.eqb s x)) ss.

(* ===================================================================== *)
(** ** Further notions the properties are stated with *)
(* ===================================================================== *)

(** The hole cards of the players of [order], in that order. *)
Definition holeCards (s : State) (order : list string) : list Card :=
  flat_map (fun pid => default [] (Holes s !! pid)) order.

(** The seat takes part in the hand. *)
Definition inPlay (st : Seat) : Prop := InHand st = true /\ Folded st = false.

(** The seat a blind of [amt] leaves: what the stack covers is paid, and a
    stack below the blind is all-in. *)
Definition blindSeat (st : Seat) (amt : Z) : Seat :=
  mkSeat (Player st) (Stack st - Z.min (Stack st) amt) (Z.min (Stack st) amt)
    true (bool_decide (Stack st < amt)) false.

(** [Order] ascends: no player id is greater than the next one. *)
Fixpoint ascending (l : list string) : bool :=
  match l with
  | a :: (b :: _) as rest => negb (String.ltb b a) && ascending rest
  | _ => true
  end.

(** [Order] lists exactly the seated players, once each, in ascending
    order of their ids. *)
Definition seatingOk (s : State) : Prop :=
  NoDup (Order s) /\ ascending (Order s) = true /\
  forall p, p ∈ Order s <-> is_Some (Seats s !! p).

(** [s'] has the players of [s], in the same order. *)
Definition sameSeating (s s' : State) : Prop :=
  Order s' = Order s /\
  forall q, is_Some (Seats s' !! q) <-> is_Some (Seats s !! q).

(** The call is [RestoreFromSnapshot], which installs whatever seats and
    order the snapshot holds. *)
Definition isRestore (c : EngineCall) : bool :=
  match c with
  | CallRestore _ => true
  | _ => false
  end.

(** The state [Bet] hands to [advanceTurn] after [p] paid [amt] chips. *)
Definition afterBet (s : State) (p : string) (st' : Seat) (amt : Z) : State :=
  let s1 := set_LastRaiseSize
              (set_CurrentBet (set_Pot (putSeat s p st') (add64 (Pot s) amt))
                              (Committed st')) amt in
  set_ActorsToAct s1 (countNeedToAct s1).

(** The state [Check] hands to [advanceTurn]. *)
Definition afterCheck (s : State) : State :=
  set_ActorsToAct s (sub64 (ActorsToAct s) 1).

(** The state [Fold] hands to [advanceTurn] when the seat [st] of [p]
    folds. *)
Definition afterFold (s : State) (p : string) (st : Seat) : State :=
  let s1 := if (0 <? CurrentBet s) && (Committed st <? CurrentBet s)
            then set_ActorsToAct s (sub64 (ActorsToAct s) 1) else s in
  putSeat s1 p (set_InHand (set_Folded st true) false).

(** The player still has to act in the betting round: seated, in the hand,
    not folded and not all-in, and either no bet stands or the player's
    committed chips are below it. *)
Definition needsToAct (s : State) (pid : string) : bool :=
  match Seats s !! pid with
  | Some st =>
    InHand st && negb (Folded st) && negb (AllIn st) &&
    ((CurrentBet s =? 0) || (Committed st <? CurrentBet s))
  | None => false
  end.

(** Every stack is a non-negative [int64]. *)
Definition stacksOk (s : State) : Prop :=
  forall p st, Seats s !! p = Some st -> 0 <= Stack st <= MaxInt64.

(** The rank and the suit of [c] index the counting arrays of [BestHand7],
    [rankCount [15]int] and [suitCount [4]int], without a panic. *)
Definition cardInRange (c : Card) : bool :=
  (0 <=? Rank c) && (Rank c <=? 14) && (0 <=? Suit c) && (Suit c <=? 3).

(** Every logged action has its id recorded. *)
Definition logRecorded (t : Table) : Prop :=
  forall a, a ∈ t_log t -> aID a ∈ t_dedup t.

(** *** Further sample values *)

(** The sample hand after "b" called: "c" is to act and is the one player
    left to act. *)
Definition demoCalled : State := stateOf (Call demoStart "b").
(** The flop of the sample hand: nobody has bet, "c" is to act. *)
Definition demoFlop : State := AdvancePhase demoPreflopDone.
(** A board for the hand evaluator, with three hearts. *)
Definition demoBoard : list Card :=
  [mkCard 14 2; mkCard 13 2; mkCard 5 2; mkCard 9 1; mkCard 2 0].
(** A heartbeat, and a JSON codec that knows this one message. *)
Definition demoHeartbeat : NetMessage := mkNetMessage "T" "n1" MsgHeartbeat 4 7 2 None None.
Definition demoMarshalMsg : NetMessage -> option (list Z) := fun _ => Some [123; 125].
Definition demoUnmarshalMsg : list Z -> option NetMessage := fun _ => Some demoHeartbeat.
(** A JSON codec that knows the engine snapshot of the sample hand. *)
Definition demoMarshal : EngineSnapshot -> option (list Z) := fun _ => Some [123; 125].
Definition demoUnmarshal : list Z -> option EngineSnapshot :=
  fun _ => Some (Snapshot demoStart).

(* ===================================================================== *)
(** * Properties *)
(* ===================================================================== *)

(** ** Machine integers *)

Lemma wrap64_range x : MinInt64 <= wrap64 x <= MaxInt64.
Proof.
  unfold wrap64, MinInt64, MaxInt64.
  pose proof (Z.mod_pos_bound (x + two63) two64 eq_refl) as H.
  unfold two63, two64 in *. lia.
Qed.

Lemma wrap64_id x : MinInt64 <= x <= MaxInt64 -> wrap64 x = x.
Proof.
  unfold wrap64, MinInt64, MaxInt64, two63, two64. intros H.
  rewrite Z.mod_small by lia. lia.
Qed.

Lemma wrap64_spec x : exists k, wrap64 x = x + k * two64.
Proof.
  exists (- ((x + two63) / two64)). unfold wrap64.
  pose proof (Z.div_mod (x + two63) two64 ltac:(unfold two64; lia)). lia.
Qed.

Lemma wrap64_congr a b : (exists k, a = b + k * two64) -> wrap64 a = wrap64 b.
Proof.
  intros [k ->]. unfold wrap64.
  replace (b + k * two64 + two63) with (b + two63 + k * two64) by lia.
  now rewrite Z.mod_add by (unfold two64; lia).
Qed.

Lemma wrap64_add_l a b : wrap64 (wrap64 a + b) = wrap64 (a + b).
Proof.
  destruct (wrap64_spec a) as [k ->]. apply wrap64_congr. exists k. lia.
Qed.

Lemma wrap64_add_r a b : wrap64 (a + wrap64 b) = wrap64 (a + b).
Proof.
  destruct (wrap64_spec b) as [k ->]. apply wrap64_congr. exists k. lia.
Qed.

Lemma wrap64_sub_l a b : wrap64 (wrap64 a - b) = wrap64 (a - b).
Proof.
  destruct (wrap64_spec a) as [k ->]. apply wrap64_congr. exists k. lia.
Qed.

Lemma wrap64_sub_r a b : wrap64 (a - wrap64 b) = wrap64 (a - b).
Proof.
  destruct (wrap64_spec b) as [k ->]. apply wrap64_congr. exists (- k). lia.
Qed.

Lemma wrap64_idem a : wrap64 (wrap64 a) = wrap64 a.
Proof. apply wrap64_id, wrap64_range. Qed.

(** Pushes every inner reduction out of a sum or difference. *)
Ltac wrap_norm :=
  unfold add64, sub64;
  repeat first [ rewrite wrap64_add_l | rewrite wrap64_add_r
               | rewrite wrap64_sub_l | rewrite wrap64_sub_r
               | rewrite wrap64_idem ].

Ltac wrap_eq := wrap_norm; first [ reflexivity | f_equal; lia ].

(** ** Card text form *)

Section CardJSONFacts.

Variable json_Marshal_string : list Z -> list Z.
Variable json_Unmarshal_string : list Z -> option (list Z).
Hypothesis json_string_roundtrip :
  forall s, Forall plainByte s ->
    json_Unmarshal_string (json_Marshal_string s) = Some s.

Lemma cardText_valid c :
  validCard c ->
  exists r s, cardText c = Some [r; s] /\ In r rankChars /\ In s suitChars /\
    charToRank r = Some (Rank c) /\ charToRank (toLower r) = Some (Rank c) /\
    charToSuit s = Some (Suit c) /\ charToSuit (toUpper s) = Some (Suit c).
Proof.
  intros [Hr Hs]. destruct c as [r s]; simpl in *.
  assert (Er : r = 2 \/ r = 3 \/ r = 4 \/ r = 5 \/ r = 6 \/ r = 7 \/ r = 8
               \/ r = 9 \/ r = 10 \/ r = 11 \/ r = 12 \/ r = 13 \/ r = 14) by lia.
  assert (Es : s = 0 \/ s = 1 \/ s = 2 \/ s = 3) by lia.
  unfold cardText; simpl.
  repeat (destruct Er as [Er | Er]); subst r;
    repeat (destruct Es as [Es | Es]); subst s;
    (do 2 eexists; split; [reflexivity |]);
    vm_compute; intuition congruence.
Qed.

Lemma rankChars_plain r : In r rankChars -> plainByte r /\ asciiSpace r = false /\ toUpper r = r.
Proof.
  intros H. repeat (destruct H as [<- | H]; [vm_compute; intuition congruence |]).
  destruct H.
Qed.

Lemma suitChars_plain s : In s suitChars -> plainByte s /\ asciiSpace s = false /\ toLower s = s.
Proof.
  intros H. repeat (destruct H as [<- | H]; [vm_compute; intuition congruence |]).
  destruct H.
Qed.

Lemma TrimSpace_two r s :
  r < RuneSelf -> s < RuneSelf -> asciiSpace r = false -> asciiSpace s = false ->
  TrimSpace [r; s] = [r; s].
Proof.
  intros Hr Hs Wr Ws. unfold TrimSpace. cbn [trimSpaceStart].
  assert ((RuneSelf <=? r) = false) as -> by (apply Z.leb_gt; exact Hr).
  rewrite Wr. cbn [rev app trimSpaceStop].
  assert ((RuneSelf <=? s) = false) as -> by (apply Z.leb_gt; exact Hs).
  rewrite Ws. reflexivity.
Qed.

(** C8.  Every valid card has a two-character text form, an uppercase rank
    character followed by a lowercase suit character; decoding the JSON the
    encoder produced gives the card back, and so does parsing the text with
    the rank or the suit character in the other case. *)
Theorem card_text_roundtrip c :
  validCard c ->
  exists r s,
    cardText c = Some [r; s] /\ In r rankChars /\ In s suitChars /\
    (exists b, MarshalJSON json_Marshal_string c = Some b /\
               UnmarshalJSON json_Unmarshal_string b = Some c) /\
    (forall r' s', sameLetter r r' -> sameLetter s s' ->
       parseCardText [r'; s'] = Some c).
Proof.
  intros Hc. destruct (cardText_valid c Hc) as (r & s & Ht & Hr & Hs & R1 & R2 & S1 & S2).
  exists r, s. split; [exact Ht |]. split; [exact Hr |]. split; [exact Hs |].
  destruct (rankChars_plain r Hr) as (Pr & Wr & Ur).
  destruct (suitChars_plain s Hs) as (Ps & Ws & Ls).
  assert (Hall : forall r' s', sameLetter r r' -> sameLetter s s' ->
            parseCardText [r'; s'] = Some c).
  { intros r' s' Hr' Hs'.
    assert (Wr' : asciiSpace r' = false /\ r' < RuneSelf).
    { destruct Hr' as [-> | ->].
      - clear -Hr. repeat (destruct Hr as [<- | Hr]; [split; reflexivity |]). destruct Hr.
      - rewrite Ur. clear -Hr.
        repeat (destruct Hr as [<- | Hr]; [split; reflexivity |]). destruct Hr. }
    assert (Ws' : asciiSpace s' = false /\ s' < RuneSelf).
    { destruct Hs' as [-> | ->].
      - rewrite Ls. clear -Hs.
        repeat (destruct Hs as [<- | Hs]; [split; reflexivity |]). destruct Hs.
      - clear -Hs. repeat (destruct Hs as [<- | Hs]; [split; reflexivity |]). destruct Hs. }
    unfold parseCardText.
    rewrite (TrimSpace_two r' s' (proj2 Wr') (proj2 Ws') (proj1 Wr') (proj1 Ws')).
    assert (charToRank r' = Some (Rank c)) as ->
      by (destruct Hr' as [-> | ->]; [exact R2 | now rewrite Ur]).
    assert (charToSuit s' = Some (Suit c)) as ->
      by (destruct Hs' as [-> | ->]; [now rewrite Ls | exact S2]).
    now destruct c. }
  split; [| exact Hall].
  exists (json_Marshal_string [r; s]). unfold MarshalJSON, UnmarshalJSON.
  rewrite Ht. split; [reflexivity |].
  rewrite json_string_roundtrip
    by (apply Forall_cons; split; [exact Pr | apply Forall_cons; split; [exact Ps | apply Forall_nil_2]]).
  apply Hall; [right; exact (eq_sym Ur) | left; exact (eq_sym Ls)].
Qed.

End CardJSONFacts.

Lemma quoteString_roundtrip s :
  Forall plainByte s -> unquoteString (quoteString s) = Some s.
Proof.
  intros _. unfold quoteString, unquoteString.
  rewrite rev_unit, rev_involutive. reflexivity.
Qed.

Lemma card_text_roundtrip_witness :
  validCard (mkCard RankAce SuitSpades) /\
  exists r s,
    cardText (mkCard RankAce SuitSpades) = Some [r; s] /\ In r rankChars /\ In s suitChars /\
    (exists b, MarshalJSON quoteString (mkCard RankAce SuitSpades) = Some b /\
               UnmarshalJSON unquoteString b = Some (mkCard RankAce SuitSpades)) /\
    (forall r' s', sameLetter r r' -> sameLetter s s' ->
       parseCardText [r'; s'] = Some (mkCard RankAce SuitSpades)).
Proof.
  assert (Hv : validCard (mkCard RankAce SuitSpades)) by (vm_compute; intuition congruence).
  split; [exact Hv |].
  exact (card_text_roundtrip quoteString unquoteString quoteString_roundtrip _ Hv).
Defined.

(** ** Engine snapshots *)

Lemma filter_nothing (m : gmap string Seat) :
  filter (fun _ : string * Seat => False) m = ∅.
Proof.
  apply map_eq. intros i. rewrite lookup_empty.
  apply map_lookup_filter_None. right. intros x _ [].
Qed.

Lemma refill_seats (m : gmap string Seat) :
  map_fold (fun id st acc => <[id := st]> acc) (∅ : gmap string Seat) m = m.
Proof.
  apply (map_fold_weak_ind (fun r m => r = m)); [reflexivity |].
  intros i x m0 r _ ->. reflexivity.
Qed.

Lemma RestoreFromSnapshot_Seats s ss :
  Seats (RestoreFromSnapshot s ss) = esSeats ss.
Proof.
  unfold RestoreFromSnapshot. cbn [Seats set_Seats].
  rewrite filter_nothing. apply refill_seats.
Qed.

(** C9.  Restoring the snapshot of an engine state [e] into any engine
    state [s0] yields a state that agrees with [e] on the blinds, the dealer
    index, the order, the turn index, the phase, the pot, the board and
    every seat; the deck and the hole cards are those of [s0]. *)
Theorem snapshot_restore_roundtrip (e s0 : State) :
  let r := RestoreFromSnapshot s0 (Snapshot e) in
  SmallBlind r = SmallBlind e /\ BigBlind r = BigBlind e /\
  DealerIdx r = DealerIdx e /\ Order r = Order e /\ TurnIdx r = TurnIdx e /\
  Phase r = Phase e /\ Pot r = Pot e /\ Board r = Board e /\
  Seats r = Seats e /\
  (forall p, Seats r !! p = Seats e !! p) /\
  Deck r = Deck s0 /\ Holes r = Holes s0.
Proof.
  intros r. subst r.
  assert (Hs : Seats (RestoreFromSnapshot s0 (Snapshot e)) = Seats e)
    by apply RestoreFromSnapshot_Seats.
  repeat split; try reflexivity; try exact Hs.
  intros p. now rewrite Hs.
Qed.

(** ** Phase advance *)

Lemma reset_roundReset s : roundReset (resetCommittedAndSetTurnFromDealer s).
Proof.
  unfold roundReset, resetCommittedAndSetTurnFromDealer.
  cbn [Order set_Seats]. destruct (len (Order s) =? 0); cbn.
  - split; [| split; reflexivity].
    intros p st H. rewrite lookup_fmap in H.
    destruct (Seats s !! p); inversion H. reflexivity.
  - split; [| split; reflexivity].
    intros p st H. rewrite lookup_fmap in H.
    destruct (Seats s !! p); inversion H. reflexivity.
Qed.

Lemma roundReset_set_Phase s ph : roundReset s -> roundReset (set_Phase s ph).
Proof. intros H. exact H. Qed.

Lemma demoRiver_not_reset :
  HandActive demoRiver = true /\ Phase demoRiver = PhaseRiver /\
  CurrentBet (AdvancePhase demoRiver) = 20 /\
  (exists st, Seats (AdvancePhase demoRiver) !! "a"%string = Some st /\ Committed st = 20).
Proof.
  split; [reflexivity |]. split; [reflexivity |]. split; [reflexivity |].
  eexists. split; [vm_compute; reflexivity | reflexivity].
Qed.

(** C3, as stated, fails: on the river of an active hand [AdvancePhase]
    moves to the showdown and leaves the bet of 20 and the 20 chips each
    player committed where they are. *)
Lemma advance_phase_river_counterexample :
  HandActive demoRiver = true /\ ~ roundReset (AdvancePhase demoRiver).
Proof.
  split; [reflexivity |].
  intros (_ & Hbet & _). vm_compute in Hbet. discriminate Hbet.
Qed.

(** C3, amended.  [AdvancePhase] from preflop, flop or turn moves to the
    next phase and leaves every seat with [Committed = 0], [CurrentBet = 0]
    and [LastRaiseSize = BigBlind]; from the river it moves to the showdown
    and clears [HandActive], and every seat, [CurrentBet] and
    [LastRaiseSize] stay as they were. *)
Theorem advance_phase_resets_round (s : State) :
  (Phase s = PhasePreflop \/ Phase s = PhaseFlop \/ Phase s = PhaseTurn ->
     roundReset (AdvancePhase s) /\ Phase (AdvancePhase s) = Phase s + 1) /\
  (Phase s = PhaseRiver ->
     AdvancePhase s = set_HandActive (set_Phase s PhaseShowdown) false /\
     Phase (AdvancePhase s) = PhaseShowdown /\
     HandActive (AdvancePhase s) = false /\
     Seats (AdvancePhase s) = Seats s /\
     CurrentBet (AdvancePhase s) = CurrentBet s /\
     LastRaiseSize (AdvancePhase s) = LastRaiseSize s).
Proof.
  split.
  - intros [H | [H | H]]; unfold AdvancePhase; rewrite H; cbn;
      (split; [apply roundReset_set_Phase, reset_roundReset | reflexivity]).
  - intros H. unfold AdvancePhase. rewrite H. cbn. repeat split; reflexivity.
Qed.

Lemma advance_phase_resets_round_witness :
  (Phase demoPreflopDone = PhasePreflop \/ Phase demoPreflopDone = PhaseFlop
     \/ Phase demoPreflopDone = PhaseTurn) /\
  roundReset (AdvancePhase demoPreflopDone) /\
  Phase (AdvancePhase demoPreflopDone) = Phase demoPreflopDone + 1.
Proof.
  assert (H : Phase demoPreflopDone = PhasePreflop \/ Phase demoPreflopDone = PhaseFlop
     \/ Phase demoPreflopDone = PhaseTurn) by (left; reflexivity).
  split; [exact H |].
  exact (proj1 (advance_phase_resets_round demoPreflopDone) H).
Defined.

(** ** The turn *)

Lemma len_nonneg {A} (l : list A) : 0 <= len l.
Proof. unfold len. lia. Qed.

Lemma index_Some {A} (l : list A) i x :
  index l i = Some x -> 0 <= i < len l /\ l !! Z.to_nat i = Some x.
Proof.
  unfold index, len. destruct (i <? 0) eqn:E; [discriminate |].
  intros H. apply Z.ltb_ge in E. split; [| exact H].
  apply lookup_lt_Some in H. lia.
Qed.

Lemma index_in_range {A} (l : list A) i :
  0 <= i < len l -> exists x, index l i = Some x.
Proof.
  unfold index, len. intros H.
  destruct (i <? 0) eqn:E; [apply Z.ltb_lt in E; lia |].
  destruct (lookup_lt_is_Some_2 l (Z.to_nat i)) as [x Hx]; [lia |].
  exists x. exact Hx.
Qed.

Lemma wellSeated_lookup s i pid :
  wellSeated s -> index (Order s) i = Some pid -> is_Some (Seats s !! pid).
Proof.
  intros [Hall _] Hi. apply index_Some in Hi as [_ Hi].
  apply list_elem_of_lookup_2, list_elem_of_In in Hi.
  rewrite forallb_forall in Hall. specialize (Hall _ Hi).
  apply bool_decide_eq_true in Hall. exact Hall.
Qed.

Lemma wellSeated_set_TurnIdx s v : wellSeated s -> wellSeated (set_TurnIdx s v).
Proof. intros H. exact H. Qed.

Lemma next_index t L :
  0 <= t < L -> 2 * L <= MaxInt64 ->
  rem64 (add64 t 1) L = (t + 1) mod L /\ 0 <= (t + 1) mod L < L.
Proof.
  intros Ht HL. unfold rem64, add64.
  rewrite wrap64_id by (unfold MinInt64, MaxInt64 in *; lia).
  rewrite Z.rem_mod_nonneg by lia.
  split; [reflexivity |]. apply Z.mod_pos_bound. lia.
Qed.

Lemma advanceTurnLoop_spec n : forall s,
  wellSeated s -> 0 <= TurnIdx s < len (Order s) ->
  exists s' k,
    advanceTurnLoop n s = Some s' /\
    s' = set_TurnIdx s (TurnIdx s') /\
    0 <= TurnIdx s' < len (Order s) /\
    (n = 0%nat -> k = 0) /\ (n <> 0%nat -> 1 <= k <= Z.of_nat n) /\
    TurnIdx s' = (TurnIdx s + k) mod len (Order s) /\
    (forall j pid, 1 <= j < k ->
       index (Order s) ((TurnIdx s + j) mod len (Order s)) = Some pid ->
       eligible s pid = false) /\
    (k = Z.of_nat n \/
     exists pid, index (Order s) (TurnIdx s') = Some pid /\ eligible s pid = true).
Proof.
  induction n as [| n IH]; intros s Hwf Ht.
  - exists s, 0. cbn [advanceTurnLoop]. split; [reflexivity |].
    split; [now destruct s |]. split; [exact Ht |].
    split; [reflexivity |]. split; [congruence |].
    split; [rewrite Z.add_0_r, Z.mod_small by lia; reflexivity |].
    split; [intros; lia | left; reflexivity].
  - destruct Hwf as [Hall HL].
    destruct (next_index (TurnIdx s) (len (Order s)) Ht HL) as [Hnext Hrange].
    cbn [advanceTurnLoop]. cbn [TurnIdx Order Seats set_TurnIdx].
    rewrite Hnext.
    destruct (index_in_range (Order s) _ Hrange) as [pid Hpid].
    rewrite Hpid. cbn [mbind option_bind].
    destruct (wellSeated_lookup s _ pid (conj Hall HL) Hpid) as [st Hst].
    rewrite Hst. cbn [mbind option_bind].
    assert (Helig : eligible s pid = InHand st && negb (Folded st) && negb (AllIn st))
      by (unfold eligible; now rewrite Hst).
    destruct (InHand st && negb (Folded st) && negb (AllIn st)) eqn:E.
    + eexists _, 1. split; [reflexivity |]. cbn [TurnIdx set_TurnIdx].
      split; [reflexivity |]. split; [exact Hrange |].
      split; [congruence |]. split; [lia |]. split; [reflexivity |].
      split; [intros; lia |]. right. exists pid. split; [exact Hpid | exact Helig].
    + set (s1 := set_TurnIdx s ((TurnIdx s + 1) mod len (Order s))).
      destruct (IH s1 (conj Hall HL) Hrange)
        as (s' & k & Hrun & Hs' & Hr' & Hk0 & Hk1 & Hidx & Hskip & Hend).
      exists s', (k + 1). split; [exact Hrun |].
      split; [rewrite Hs'; reflexivity |]. split; [exact Hr' |].
      split; [congruence |].
      split.
      { intros _. destruct n as [| n']; [rewrite Hk0 by reflexivity; lia |].
        specialize (Hk1 ltac:(congruence)). lia. }
      split.
      { rewrite Hidx. subst s1. cbn [TurnIdx Order set_TurnIdx].
        rewrite Zplus_mod_idemp_l. f_equal. lia. }
      split.
      { intros j q Hj Hq. destruct (Z.eq_dec j 1) as [-> | Hne].
        - rewrite Hpid in Hq. inversion Hq; subst q. exact Helig.
        - apply (Hskip (j - 1) q); [lia |].
          subst s1. cbn [TurnIdx Order set_TurnIdx].
          rewrite Zplus_mod_idemp_l.
          replace (TurnIdx s + 1 + (j - 1)) with (TurnIdx s + j) by lia. exact Hq. }
      destruct Hend as [-> | Hend]; [left; lia | right; exact Hend].
Qed.

Lemma advanceTurn_spec s :
  wellSeated s -> (Order s <> [] -> 0 <= TurnIdx s < len (Order s)) ->
  exists s', advanceTurn s = Some s' /\ turnAdvanced s s'.
Proof.
  intros Hwf Ht. unfold advanceTurn, turnAdvanced.
  destruct (Order s) as [| p0 rest] eqn:EO.
  - exists s. cbn. split; [reflexivity |].
    split; [now destruct s |]. left. split; reflexivity.
  - rewrite <- EO in *. assert (Hne : Order s <> []) by (rewrite EO; discriminate).
    assert (Hlen : 0 < len (Order s)) by (rewrite EO; unfold len; cbn; lia).
    destruct (len (Order s) =? 0) eqn:E0; [apply Z.eqb_eq in E0; lia |].
    destruct (advanceTurnLoop_spec (length (Order s)) s Hwf (Ht Hne))
      as (s' & k & Hrun & Hs' & Hr' & _ & Hk1 & Hidx & Hskip & Hend).
    exists s'. split; [exact Hrun |]. split; [exact Hs' |]. right.
    exists k. split; [apply Hk1; rewrite EO; discriminate |].
    split; [exact Hidx |]. split; [exact Hskip |]. exact Hend.
Qed.

Lemma CurrentPlayer_range s p :
  CurrentPlayer s = Some p -> Order s <> [] -> 0 <= TurnIdx s < len (Order s).
Proof.
  unfold CurrentPlayer. intros H Hne.
  destruct (len (Order s) =? 0) eqn:E.
  - apply Z.eqb_eq in E. unfold len in E. destruct (Order s); [congruence | cbn in E; lia].
  - apply index_Some in H. tauto.
Qed.

Lemma ensureTurn_current s p :
  CurrentPlayer s = Some p -> ensureTurn s p = Some true.
Proof.
  unfold ensureTurn. intros ->. cbn. now rewrite String.eqb_refl.
Qed.

Lemma wellSeated_putSeat s p st :
  is_Some (Seats s !! p) -> wellSeated s -> wellSeated (putSeat s p st).
Proof.
  intros Hp [Hall HL]. split; [| exact HL].
  rewrite forallb_forall in *. intros q Hq. specialize (Hall q Hq).
  apply bool_decide_eq_true in Hall. apply bool_decide_eq_true.
  cbn [putSeat Seats set_Seats]. destruct (decide (p = q)) as [-> | Hne].
  - rewrite lookup_insert_eq. eauto.
  - rewrite lookup_insert_ne by exact Hne. exact Hall.
Qed.

(** ** Call *)

Lemma finish_advanceTurn s :
  wellSeated s -> (Order s <> [] -> 0 <= TurnIdx s < len (Order s)) ->
  exists s', finish (advanceTurn s) = Ok s' /\ turnAdvanced s s'.
Proof.
  intros Hwf Ht. destruct (advanceTurn_spec s Hwf Ht) as (s' & Hrun & Hadv).
  exists s'. rewrite Hrun. split; [reflexivity | exact Hadv].
Qed.

Lemma turnAdvanced_fields s s' :
  turnAdvanced s s' ->
  Seats s' = Seats s /\ Pot s' = Pot s /\ CurrentBet s' = CurrentBet s /\
  LastRaiseSize s' = LastRaiseSize s /\ ActorsToAct s' = ActorsToAct s /\
  Order s' = Order s /\ Phase s' = Phase s /\ HandActive s' = HandActive s /\
  DealerIdx s' = DealerIdx s /\ BigBlind s' = BigBlind s.
Proof. intros [-> _]. repeat split; reflexivity. Qed.

(** Splits a conjunction of field equations that ends in the fact [H]. *)
Ltac split_fields H :=
  repeat match goal with
         | |- turnAdvanced _ _ => exact H
         | |- _ /\ _ => split
         end; try reflexivity.

(** *** The players still to act, counted *)

Lemma countNeedToAct_count s :
  len (Order s) <= MaxInt64 ->
  countNeedToAct s = len (List.filter (needsToAct s) (Order s)).
Proof.
  unfold countNeedToAct. intros HL.
  destruct (len (Order s) =? 0) eqn:E0.
  { apply Z.eqb_eq in E0. unfold len in *. destruct (Order s); [reflexivity | cbn in E0; lia]. }
  clear E0.
  set (f := fun need pid => _).
  assert (Hgen : forall l acc,
             0 <= acc -> acc + len l <= MaxInt64 ->
             foldl f acc l = acc + len (List.filter (needsToAct s) l)).
  { induction l as [| pid l IH]; intros acc H0 Hmax; cbn [foldl List.filter].
    - unfold len. cbn. lia.
    - unfold len in Hmax. cbn [length] in Hmax.
      assert (Hstep : f acc pid = acc + (if needsToAct s pid then 1 else 0)).
      { unfold f, needsToAct, eligible.
        destruct (Seats s !! pid) as [st |]; cbn [negb]; [| lia].
        destruct (InHand st && negb (Folded st) && negb (AllIn st));
          cbn [negb andb]; [| lia].
        destruct (CurrentBet s =? 0); cbn [orb].
        - unfold add64. rewrite wrap64_id by (unfold MinInt64, MaxInt64 in *; lia). reflexivity.
        - destruct (Committed st <? CurrentBet s); [| lia].
          unfold add64. rewrite wrap64_id by (unfold MinInt64, MaxInt64 in *; lia).
          reflexivity. }
      rewrite Hstep.
      pose proof (len_nonneg (List.filter (needsToAct s) l)) as Hf.
      destruct (needsToAct s pid).
      + rewrite IH by (unfold len; lia). unfold len. cbn [length]. lia.
      + rewrite IH by (unfold len; lia). lia. }
  rewrite Hgen by (try lia). lia.
Qed.

Lemma ActorsToAct_recounted s1 s' :
  len (Order s1) <= MaxInt64 ->
  turnAdvanced (set_ActorsToAct s1 (countNeedToAct s1)) s' ->
  ActorsToAct s' = len (List.filter (needsToAct s') (Order s')).
Proof.
  intros Hlen Hadv.
  destruct (turnAdvanced_fields _ _ Hadv) as (HS & _ & HC & _ & HA & HO & _).
  rewrite HA, HO. cbn [ActorsToAct Order set_ActorsToAct].
  rewrite (countNeedToAct_count s1 Hlen). f_equal.
  apply List.filter_ext. intros q. unfold needsToAct. rewrite HS, HC. reflexivity.
Qed.

(** C5.  When it is [p]'s turn, a bet stands and [p] is [need] chips behind
    it: with a stack of at least [need], [Call] moves exactly [need] chips
    from the stack to the pot; with a smaller, positive stack it moves the
    whole stack, marks the seat all-in, and in both cases [ActorsToAct]
    drops by one, the turn advances and [CurrentBet] and [LastRaiseSize]
    stay as they were. *)
Theorem call_full_or_short_all_in (s : State) (p : string) (st : Seat) :
  wellSeated s ->
  Seats s !! p = Some st ->
  CurrentPlayer s = Some p ->
  0 < CurrentBet s ->
  0 < sub64 (CurrentBet s) (Committed st) ->
  let need := sub64 (CurrentBet s) (Committed st) in
  (need <= Stack st ->
   exists s' st',
     Call s p = Ok s' /\
     Seats s' = <[p := st']> (Seats s) /\
     Stack st' = sub64 (Stack st) need /\
     (Stack st <= MaxInt64 -> Stack st' = Stack st - need) /\
     Committed st' = add64 (Committed st) need /\
     AllIn st' = AllIn st /\ InHand st' = InHand st /\ Folded st' = Folded st /\
     Pot s' = add64 (Pot s) need /\
     ActorsToAct s' = sub64 (ActorsToAct s) 1 /\
     CurrentBet s' = CurrentBet s /\
     LastRaiseSize s' = LastRaiseSize s /\
     turnAdvanced (afterCall s p st' need) s') /\
  (Stack st < need -> 0 < Stack st ->
   exists s' st',
     Call s p = Ok s' /\
     Seats s' = <[p := st']> (Seats s) /\
     Stack st' = 0 /\
     AllIn st' = true /\
     Committed st' = add64 (Committed st) (Stack st) /\
     InHand st' = InHand st /\ Folded st' = Folded st /\
     Pot s' = add64 (Pot s) (Stack st) /\
     ActorsToAct s' = sub64 (ActorsToAct s) 1 /\
     CurrentBet s' = CurrentBet s /\
     LastRaiseSize s' = LastRaiseSize s /\
     turnAdvanced (afterCall s p st' (Stack st)) s').
Proof.
  intros Hwf Hst Hcur Hbet Hneed need.
  assert (Hseat : is_Some (Seats s !! p)) by eauto.
  assert (Hrange : Order s <> [] -> 0 <= TurnIdx s < len (Order s))
    by (apply (CurrentPlayer_range s p Hcur)).
  assert (E0 : (CurrentBet s =? 0) = false) by (apply Z.eqb_neq; lia).
  assert (E1 : (need <=? 0) = false) by (apply Z.leb_gt; exact Hneed).
  split.
  - intros Hfull.
    set (st' := set_Committed (set_Stack st (sub64 (Stack st) need))
                              (add64 (Committed st) need)).
    destruct (finish_advanceTurn (afterCall s p st' need)) as (s' & Hrun & Hadv).
    { apply (wellSeated_putSeat s p st' Hseat Hwf). }
    { exact Hrange. }
    exists s', st'.
    split.
    { unfold Call. rewrite Hst, (ensureTurn_current s p Hcur), E0.
      fold need. rewrite E1.
      assert ((need <=? Stack st) = true) as -> by (apply Z.leb_le; exact Hfull).
      exact Hrun. }
    destruct (turnAdvanced_fields _ _ Hadv)
      as (HS & HP & HC & HL & HA & _).
    rewrite HS, HP, HC, HL, HA.
    split_fields Hadv.
    intros Hmax. cbn. unfold sub64. apply wrap64_id.
    unfold MinInt64, MaxInt64 in *. lia.
  - intros Hshort Hpos.
    set (st' := set_Committed (set_AllIn (set_Stack st 0) true)
                              (add64 (Committed st) (Stack st))).
    destruct (finish_advanceTurn (afterCall s p st' (Stack st))) as (s' & Hrun & Hadv).
    { apply (wellSeated_putSeat s p st' Hseat Hwf). }
    { exact Hrange. }
    exists s', st'.
    split.
    { unfold Call. rewrite Hst, (ensureTurn_current s p Hcur), E0.
      fold need. rewrite E1.
      assert ((need <=? Stack st) = false) as -> by (apply Z.leb_gt; exact Hshort).
      assert ((Stack st <=? 0) = false) as -> by (apply Z.leb_gt; exact Hpos).
      exact Hrun. }
    destruct (turnAdvanced_fields _ _ Hadv)
      as (HS & HP & HC & HL & HA & _).
    rewrite HS, HP, HC, HL, HA.
    split_fields Hadv.
Qed.

(** ** Raise *)

Lemma Raise_fuel fuel s p add : Raise (S fuel) s p add = Raise 1 s p add.
Proof.
  cbn [Raise]. destruct (Seats s !! p) as [st |]; [| reflexivity].
  destruct (ensureTurn s p) as [[|] |]; try reflexivity.
  destruct (CurrentBet s =? 0); [reflexivity |].
  destruct (add <=? 0); [reflexivity |].
  set (need := if Committed st <? CurrentBet s then _ else _).
  destruct ((LastRaiseSize s <=? add) && (add64 need add <=? Stack st)) eqn:E1;
    [reflexivity |].
  destruct (Stack st <? add64 need add) eqn:E2; [reflexivity |].
  destruct (add <? LastRaiseSize s) eqn:E3; [reflexivity |].
  apply andb_false_iff in E1.
  apply Z.ltb_ge in E2. apply Z.ltb_ge in E3.
  destruct E1 as [E1 | E1]; apply Z.leb_gt in E1; lia.
Qed.

Lemma Raise_returns fuel s p add : Raise (S fuel) s p add <> Diverge.
Proof.
  rewrite Raise_fuel. cbn [Raise].
  destruct (Seats s !! p) as [st |]; [| discriminate].
  destruct (ensureTurn s p) as [[|] |]; try discriminate.
  destruct (CurrentBet s =? 0); [discriminate |].
  destruct (add <=? 0); [discriminate |].
  set (need := if Committed st <? CurrentBet s then _ else _).
  destruct ((LastRaiseSize s <=? add) && (add64 need add <=? Stack st)) eqn:E1.
  { destruct (advanceTurn _); discriminate. }
  destruct (Stack st <? add64 need add) eqn:E2.
  { match goal with |- context [if ?c then Fail _ _ else _] => destruct c end;
      [discriminate |].
    destruct (advanceTurn _); discriminate. }
  destruct (add <? LastRaiseSize s) eqn:E3; [discriminate |].
  apply andb_false_iff in E1.
  apply Z.ltb_ge in E2. apply Z.ltb_ge in E3.
  destruct E1 as [E1 | E1]; apply Z.leb_gt in E1; lia.
Qed.

(** *** A standing bet has a positive raise size *)

(** [returned r s']: the call returned, with or without an error, and left
    the engine as [s']. *)
Definition returned (r : Result) (s' : State) : Prop :=
  r = Ok s' \/ exists e, r = Fail e s'.

Ltac returned_inv Hr :=
  destruct Hr as [Hr | [? Hr]]; inversion Hr; subst.

Lemma afterCallOf_returned r s' :
  match r with Ok s1 => Some s1 | Fail _ s1 => Some s1 | _ => None end = Some s' ->
  returned r s'.
Proof.
  destruct r; intros H; inversion H; subst; [left | right]; eauto.
Qed.

Lemma raiseFloor_same s s' :
  CurrentBet s' = CurrentBet s -> LastRaiseSize s' = LastRaiseSize s ->
  raiseFloor s -> raiseFloor s'.
Proof. unfold raiseFloor. intros -> ->. tauto. Qed.

Lemma advanceTurnLoop_fields n : forall s s',
  advanceTurnLoop n s = Some s' -> s' = set_TurnIdx s (TurnIdx s').
Proof.
  induction n as [| n IH]; intros s s' H; cbn [advanceTurnLoop] in H.
  - inversion H; subst. now destruct s'.
  - destruct (index _ _) as [pid |]; [| discriminate]. cbn [mbind option_bind] in H.
    destruct (Seats _ !! pid) as [st |]; [| discriminate]. cbn [mbind option_bind] in H.
    destruct (InHand st && negb (Folded st) && negb (AllIn st)).
    + inversion H. reflexivity.
    + apply IH in H. rewrite H. reflexivity.
Qed.

Lemma raiseFloor_finish s s' :
  returned (finish (advanceTurn s)) s' -> raiseFloor s -> raiseFloor s'.
Proof.
  unfold finish, advanceTurn. intros Hr Hf.
  destruct (len (Order s) =? 0).
  - returned_inv Hr. exact Hf.
  - destruct (advanceTurnLoop _ s) as [s1 |] eqn:E; returned_inv Hr.
    apply advanceTurnLoop_fields in E. rewrite E. exact Hf.
Qed.

Lemma raiseFloor_dealHoles order : forall s s',
  returned (dealHoles s order) s' ->
  CurrentBet s' = CurrentBet s /\ LastRaiseSize s' = LastRaiseSize s.
Proof.
  induction order as [| pid rest IH]; intros s s' Hr; cbn [dealHoles] in Hr.
  - returned_inv Hr. tauto.
  - destruct (Seats s !! pid) as [st |]; [| returned_inv Hr].
    destruct (InHand st && negb (Folded st)); [| exact (IH _ _ Hr)].
    destruct (Deck s) as [| c0 [| c1 deck']]; try (returned_inv Hr; tauto).
    exact (IH _ _ Hr).
Qed.

Lemma raiseFloor_StartHand s r s' :
  returned (StartHand s r) s' -> raiseFloor s -> raiseFloor s'.
Proof.
  unfold StartHand.
  destruct (len (Order s) <? 2); [intros Hr Hf; returned_inv Hr; exact Hf |].
  cbv zeta.
  match goal with
  | |- returned (match ?m with _ => _ end) _ -> _ => destruct m as [s2 |]
  end; [| intros Hr; returned_inv Hr].
  match goal with
  | |- returned (match ?m with _ => _ end) _ -> _ => destruct m as [s3 |]
  end; [| intros Hr; returned_inv Hr].
  intros Hr _.
  destruct (raiseFloor_dealHoles _ _ _ Hr) as [Hc Hl].
  unfold raiseFloor. rewrite Hc, Hl. cbn. tauto.
Qed.

Lemma raiseFloor_reset s : raiseFloor (resetCommittedAndSetTurnFromDealer s).
Proof.
  unfold resetCommittedAndSetTurnFromDealer, raiseFloor. cbn [Order set_Seats].
  destruct (len (Order s) =? 0); cbn; lia.
Qed.

Lemma remainderLoop_fields n : forall i start w ws s rm s' rem',
  remainderLoop n i start w ws s rm = Some (s', rem') ->
  CurrentBet s' = CurrentBet s /\ LastRaiseSize s' = LastRaiseSize s.
Proof.
  induction n as [| n IH]; intros i start w ws s rm s' rem' H;
    cbn [remainderLoop] in H; [inversion H; tauto |].
  destruct (rm <=? 0); [inversion H; tauto |].
  destruct (index _ _) as [pid |]; [| discriminate]. cbn [mbind option_bind] in H.
  destruct (ws !! pid) as [idx |]; [| exact (IH _ _ _ _ _ _ _ _ H)].
  destruct (w !! idx) as [w0 |]; [| discriminate]. cbn [mbind option_bind] in H.
  destruct (Seats s !! swPlayer w0); apply IH in H; exact H.
Qed.

Lemma raiseFloor_ResolveShowdown s s' sum :
  ResolveShowdown s = Some (s', sum) -> raiseFloor s -> raiseFloor s'.
Proof.
  unfold ResolveShowdown. intros E Hf.
  destruct (collectEvals s (Order s)) as [evals |]; [| discriminate].
  cbn [mbind option_bind] in E. destruct evals as [| e rest].
  { inversion E; subst. exact Hf. }
  match type of E with
  | mbind _ ?m = _ => destruct m as [s2 |] eqn:E2; [| discriminate]
  end.
  cbn [mbind option_bind] in E. inversion E; subst. clear E.
  apply (raiseFloor_same s); [| | exact Hf]; cbn [CurrentBet LastRaiseSize set_HandActive set_Pot].
  all: match type of E2 with
       | (if ?c then _ else _) = _ => destruct c
       end;
       [ destruct (remainderLoop _ _ _ _ _ _ _) as [[s3 rem'] |] eqn:El;
         [| discriminate];
         cbn in E2; inversion E2; subst;
         apply remainderLoop_fields in El; destruct El as [Hc Hl];
         first [exact Hc | exact Hl]
       | inversion E2; reflexivity ].
Qed.

(** Destructs the tests of a betting call down to its returns. *)
Ltac floor_tac Hr Hf :=
  repeat match type of Hr with
         | context [match ?x with _ => _ end] => destruct x eqn:?
         end;
  try (returned_inv Hr; exact Hf);
  try (apply raiseFloor_finish in Hr; [exact Hr |];
       unfold raiseFloor in *; cbn; intros; lia).

Lemma raiseFloor_call s c s' :
  afterCallOf s c = Some s' -> raiseFloor s -> raiseFloor s'.
Proof.
  intros Hc Hf. destruct c; cbn [afterCallOf] in Hc.
  - apply afterCallOf_returned in Hc. unfold Sit in Hc.
    destruct (Seats s !! p); returned_inv Hc; exact Hf.
  - inversion Hc. unfold Leave. cbn [Order TurnIdx set_Order set_Holes set_Seats].
    destruct (_ <=? _); exact Hf.
  - apply afterCallOf_returned in Hc. exact (raiseFloor_StartHand _ _ _ Hc Hf).
  - apply afterCallOf_returned in Hc. unfold Bet in Hc. floor_tac Hc Hf.
  - apply afterCallOf_returned in Hc. unfold Check in Hc. floor_tac Hc Hf.
  - apply afterCallOf_returned in Hc. unfold Call in Hc. floor_tac Hc Hf.
  - apply afterCallOf_returned in Hc. unfold raiseFuel in Hc.
    rewrite Raise_fuel in Hc. cbn [Raise] in Hc. floor_tac Hc Hf.
  - apply afterCallOf_returned in Hc. unfold Fold in Hc. floor_tac Hc Hf.
  - inversion Hc. unfold AdvancePhase.
    repeat match goal with |- context [if ?c then _ else _] => destruct c end;
      try exact Hf; apply raiseFloor_reset.
  - destruct (ResolveShowdown s) as [[s1 sum] |] eqn:E; [| discriminate].
    cbn in Hc. inversion Hc; subst s1. exact (raiseFloor_ResolveShowdown _ _ _ E Hf).
  - inversion Hc. exact Hf.
  - inversion Hc. exact Hf.
Qed.

(** In every state the engine of a replica reaches, a standing bet has a
    positive raise size. *)
Lemma reachable_raiseFloor sb bb s : reachable sb bb s -> raiseFloor s.
Proof.
  induction 1 as [| s c s' _ IH Hc].
  - unfold raiseFloor. cbn. lia.
  - exact (raiseFloor_call s c s' Hc IH).
Qed.

(** C6.  In a state where a standing bet has a positive raise size, as in
    every state the engine reaches, when it is [p]'s turn and a bet stands,
    with [need = max(0, CurrentBet - Committed)] and [total = need + add]: a
    raise by [add >= LastRaiseSize] that the stack covers moves [total]
    chips from the stack to the pot, makes [p]'s committed chips the
    current bet, sets [LastRaiseSize] to [add], recomputes [ActorsToAct], which
    becomes the number of players of [Order] that are in the hand, not
    folded, not all-in and behind the new bet, and advances the turn; a
    raise by less than [LastRaiseSize] that the stack covers is rejected and
    the state is left as it was. *)
Theorem raise_min_raise_boundary (s : State) (p : string) (st : Seat) (add : Z) (fuel : nat) :
  wellSeated s ->
  Seats s !! p = Some st ->
  CurrentPlayer s = Some p ->
  0 < CurrentBet s <= MaxInt64 ->
  raiseFloor s ->
  0 <= Committed st ->
  let need := Z.max 0 (CurrentBet s - Committed st) in
  let total := add64 need add in
  (LastRaiseSize s <= add -> total <= Stack st ->
   exists s' st',
     Raise (S fuel) s p add = Ok s' /\
     Seats s' = <[p := st']> (Seats s) /\
     Stack st' = sub64 (Stack st) total /\
     Committed st' = add64 (Committed st) total /\
     AllIn st' = AllIn st /\ InHand st' = InHand st /\ Folded st' = Folded st /\
     Pot s' = add64 (Pot s) total /\
     CurrentBet s' = Committed st' /\
     LastRaiseSize s' = add /\
     ActorsToAct s' = ActorsToAct (afterRaise s p st' total add) /\
     ActorsToAct s' = len (List.filter (needsToAct s') (Order s')) /\
     turnAdvanced (afterRaise s p st' total add) s') /\
  (add < LastRaiseSize s -> total <= Stack st ->
   exists e, Raise (S fuel) s p add = Fail e s).
Proof.
  intros Hwf Hst Hcur [Hbet Hmax] Hfloor Hcom need total.
  assert (Hlrs : 0 < LastRaiseSize s) by exact (Hfloor Hbet).
  assert (Hseat : is_Some (Seats s !! p)) by eauto.
  assert (Hrange : Order s <> [] -> 0 <= TurnIdx s < len (Order s))
    by (apply (CurrentPlayer_range s p Hcur)).
  assert (E0 : (CurrentBet s =? 0) = false) by (apply Z.eqb_neq; lia).
  assert (Hneed : (if Committed st <? CurrentBet s
                   then sub64 (CurrentBet s) (Committed st) else 0) = need).
  { unfold need. destruct (Committed st <? CurrentBet s) eqn:E.
    - apply Z.ltb_lt in E. unfold sub64.
      rewrite wrap64_id by (unfold MinInt64, MaxInt64 in *; lia). lia.
    - apply Z.ltb_ge in E. lia. }
  assert (Hneed0 : 0 <= need) by (unfold need; lia).
  rewrite Raise_fuel. split.
  - intros Hmin Hcover.
    assert (E1 : (add <=? 0) = false) by (apply Z.leb_gt; lia).
    set (st' := mkSeat (Player st) (sub64 (Stack st) total)
                       (add64 (Committed st) total) (InHand st) (AllIn st) (Folded st)).
    destruct (finish_advanceTurn (afterRaise s p st' total add)) as (s' & Hrun & Hadv).
    { apply (wellSeated_putSeat s p st' Hseat Hwf). }
    { exact Hrange. }
    exists s', st'. split.
    { cbn [Raise]. rewrite Hst, (ensureTurn_current s p Hcur), E0, E1, Hneed.
      fold total.
      assert ((LastRaiseSize s <=? add) && (total <=? Stack st) = true) as ->
        by (apply andb_true_iff; split; apply Z.leb_le; assumption).
      rewrite <- Hrun. f_equal. f_equal.
      unfold afterRaise.
      assert (Hseat' :
        (let st1 := if 0 <? need
                    then set_Committed (set_Stack st (sub64 (Stack st) need))
                                       (add64 (Committed st) need)
                    else st in
         set_Committed (set_Stack st1 (sub64 (Stack st1) add))
                       (add64 (Committed (set_Stack st1 (sub64 (Stack st1) add))) add))
        = st').
      { unfold st', total. destruct (0 <? need) eqn:En; cbn.
        - unfold set_Committed, set_Stack; cbn. f_equal; wrap_eq.
        - apply Z.ltb_ge in En. assert (need = 0) as -> by lia.
          unfold set_Committed, set_Stack; cbn. f_equal; wrap_eq. }
      assert (Hpot : add64 (if 0 <? need then add64 (Pot s) need else Pot s) add
                     = add64 (Pot s) total).
      { unfold total. destruct (0 <? need) eqn:En.
        - wrap_eq.
        - apply Z.ltb_ge in En. assert (need = 0) as -> by lia. wrap_eq. }
      cbv zeta in Hseat'. rewrite Hseat', Hpot. reflexivity. }
    assert (Hcount : ActorsToAct s' = len (List.filter (needsToAct s') (Order s'))).
    { apply (ActorsToAct_recounted
               (set_LastRaiseSize
                  (set_CurrentBet (set_Pot (putSeat s p st') (add64 (Pot s) total))
                                  (Committed st')) add) s'); [| exact Hadv].
      destruct Hwf as [_ Hlen]. pose proof (len_nonneg (Order s)).
      cbn [Order putSeat set_Seats set_Pot set_CurrentBet set_LastRaiseSize]. lia. }
    destruct (turnAdvanced_fields _ _ Hadv) as (HS & HP & HC & HL & HA & _).
    repeat (split; [first [exact Hcount
                          | rewrite ?HS, ?HP, ?HC, ?HL, ?HA; reflexivity] |]).
    exact Hadv.
  - intros Hsmall Hcover.
    cbn [Raise]. rewrite Hst, (ensureTurn_current s p Hcur), E0.
    destruct (add <=? 0); [eexists; reflexivity |].
    rewrite Hneed. fold total.
    assert ((LastRaiseSize s <=? add) = false) as -> by (apply Z.leb_gt; exact Hsmall).
    cbn [andb].
    assert ((Stack st <? total) = false) as -> by (apply Z.ltb_ge; exact Hcover).
    assert ((add <? LastRaiseSize s) = true) as -> by (apply Z.ltb_lt; exact Hsmall).
    eexists; reflexivity.
Qed.

(** ** Chips *)

Lemma sumStacks_insert (m : gmap string Seat) p st st' :
  m !! p = Some st ->
  sumStacks (<[p := st']> m) = sumStacks m - Stack st + Stack st'.
Proof.
  intros Hp. unfold sumStacks.
  rewrite (map_fold_delete_L _ _ p st m); [| intros; lia | exact Hp].
  rewrite <- insert_delete_eq.
  rewrite map_fold_insert_L; [lia | intros; lia | apply lookup_delete_eq].
Qed.

Lemma sumStacks_fmap_same (f : Seat -> Seat) (m : gmap string Seat) :
  (forall st, Stack (f st) = Stack st) -> sumStacks (f <$> m) = sumStacks m.
Proof.
  intros Hf. unfold sumStacks.
  induction m as [| i x m Hi _ IH] using map_first_key_ind.
  - rewrite fmap_empty. reflexivity.
  - rewrite fmap_insert.
    rewrite map_fold_insert_L; [| intros; lia | now rewrite lookup_fmap, Hi].
    rewrite map_fold_insert_L; [| intros; lia | exact Hi].
    rewrite IH, Hf. reflexivity.
Qed.

(** ** Showdown without contenders *)

Lemma collectEvals_none s order :
  (forall p, contender s p = false) -> collectEvals s order = Some [].
Proof.
  intros H. induction order as [| pid rest IH]; [reflexivity |].
  cbn [collectEvals]. rewrite H. exact IH.
Qed.

(** C10.  When no seat is both in the hand and not folded, [ResolveShowdown]
    returns no winner, zeroes the pot, clears [HandActive], leaves every
    seat as it was and reports the whole prior pot as [Remainder]: the pot
    is discarded. *)
Theorem showdown_without_contenders (s : State) :
  (forall p st, Seats s !! p = Some st -> InHand st && negb (Folded st) = false) ->
  exists s' sum,
    ResolveShowdown s = Some (s', sum) /\
    Winners sum = [] /\
    Pot s' = 0 /\
    HandActive s' = false /\
    Seats s' = Seats s /\
    Remainder sum = Pot s /\
    PayoutPer sum = 0 /\
    s' = set_HandActive (set_Pot s 0) false.
Proof.
  intros H.
  assert (Hc : forall p, contender s p = false).
  { intros p. unfold contender. destruct (Seats s !! p) as [st |] eqn:E; [| reflexivity].
    exact (H p st E). }
  unfold ResolveShowdown. rewrite (collectEvals_none s (Order s) Hc).
  cbn [mbind option_bind]. do 2 eexists. split; [reflexivity |].
  repeat split; reflexivity.
Qed.

Lemma showdown_without_contenders_witness :
  (forall p st, Seats demoAllFolded !! p = Some st -> InHand st && negb (Folded st) = false) /\
  exists s' sum,
    ResolveShowdown demoAllFolded = Some (s', sum) /\
    Winners sum = [] /\ Pot s' = 0 /\ HandActive s' = false /\
    Seats s' = Seats demoAllFolded /\ Remainder sum = 15 /\ PayoutPer sum = 0.
Proof.
  assert (H : forall p st, Seats demoAllFolded !! p = Some st ->
                InHand st && negb (Folded st) = false).
  { intros p st Hp.
    assert (Hall : map_Forall (fun _ st => InHand st && negb (Folded st) = false)
                     (Seats demoAllFolded)).
    { apply map_Forall_to_list. vm_compute. repeat constructor. }
    exact (Hall p st Hp). }
  split; [exact H |].
  destruct (showdown_without_contenders demoAllFolded H)
    as (s' & sum & Hr & Hw & Hp & Ha & Hs & Hrem & Hper & _).
  exists s', sum. repeat split; assumption.
Defined.

(** ** Call and Raise on the sample hand *)

Lemma demoStart_wellSeated : wellSeated demoStart.
Proof. split; [vm_compute; reflexivity | vm_compute; discriminate]. Qed.

Lemma call_full_or_short_all_in_witness :
  wellSeated demoStart /\
  Seats demoStart !! "b"%string = Some (mkSeat "b" 1000 0 true false false) /\
  CurrentPlayer demoStart = Some "b"%string /\
  0 < CurrentBet demoStart /\
  0 < sub64 (CurrentBet demoStart) 0 /\
  exists s' st',
    Call demoStart "b" = Ok s' /\
    Seats s' !! "b"%string = Some st' /\
    Stack st' = 990 /\ Committed st' = 10 /\ Pot s' = 25 /\
    ActorsToAct s' = 1 /\ CurrentBet s' = 10 /\ LastRaiseSize s' = 10.
Proof.
  assert (H1 : wellSeated demoStart) by exact demoStart_wellSeated.
  assert (H2 : Seats demoStart !! "b"%string = Some (mkSeat "b" 1000 0 true false false))
    by (vm_compute; reflexivity).
  assert (H3 : CurrentPlayer demoStart = Some "b"%string) by (vm_compute; reflexivity).
  assert (H4 : 0 < CurrentBet demoStart) by (vm_compute; reflexivity).
  assert (H5 : 0 < sub64 (CurrentBet demoStart) 0) by (vm_compute; reflexivity).
  repeat (split; [assumption |]).
  destruct (call_full_or_short_all_in demoStart "b" _ H1 H2 H3 H4 H5) as [Hfull _].
  destruct (Hfull ltac:(vm_compute; discriminate))
    as (s' & st' & Hc & HS & Hst & _ & Hco & _ & _ & _ & HP & HA & HB & HL & _).
  exists s', st'. split; [exact Hc |].
  split; [rewrite HS; apply lookup_insert_eq |].
  split; [rewrite Hst; reflexivity |].
  split; [rewrite Hco; reflexivity |].
  split; [rewrite HP; reflexivity |].
  split; [rewrite HA; reflexivity |].
  split; [rewrite HB; reflexivity | rewrite HL; reflexivity].
Defined.

Lemma raise_min_raise_boundary_witness :
  wellSeated demoStart /\
  Seats demoStart !! "b"%string = Some (mkSeat "b" 1000 0 true false false) /\
  CurrentPlayer demoStart = Some "b"%string /\
  0 < CurrentBet demoStart <= MaxInt64 /\
  raiseFloor demoStart /\
  (exists s' st',
     Raise 1 demoStart "b" 10 = Ok s' /\
     Seats s' !! "b"%string = Some st' /\
     Stack st' = 980 /\ Committed st' = 20 /\ Pot s' = 35 /\
     CurrentBet s' = 20 /\ LastRaiseSize s' = 10 /\
     ActorsToAct s' = 2 /\
     List.filter (needsToAct s') (Order s') = ["a"; "c"]%string) /\
  (exists e, Raise 1 demoStart "b" 9 = Fail e demoStart) /\
  (ActorsToAct demoCalled = 1 /\
   exists s',
     Raise 1 demoCalled "c" 10 = Ok s' /\ CurrentBet s' = 20 /\ Pot s' = 40 /\
     ActorsToAct s' = 2 /\
     List.filter (needsToAct s') (Order s') = ["a"; "b"]%string).
Proof.
  assert (H1 : wellSeated demoStart) by exact demoStart_wellSeated.
  assert (H2 : Seats demoStart !! "b"%string = Some (mkSeat "b" 1000 0 true false false))
    by (vm_compute; reflexivity).
  assert (H3 : CurrentPlayer demoStart = Some "b"%string) by (vm_compute; reflexivity).
  assert (H4 : 0 < CurrentBet demoStart <= MaxInt64)
    by (split; [vm_compute; reflexivity | vm_compute; discriminate]).
  assert (H5 : raiseFloor demoStart) by (intros _; vm_compute; reflexivity).
  assert (H6 : 0 <= Committed (mkSeat "b" 1000 0 true false false))
    by (vm_compute; discriminate).
  repeat (split; [assumption |]).
  split.
  - destruct (raise_min_raise_boundary demoStart "b" _ 10 0 H1 H2 H3 H4 H5 H6) as [Hfull _].
    destruct (Hfull ltac:(vm_compute; discriminate) ltac:(vm_compute; discriminate))
      as (s' & st' & Hc & HS & Hst & Hco & _ & _ & _ & HP & HB & HL & _ & HN & _).
    assert (Hs' : s' = stateOf (Raise 1 demoStart "b" 10)) by (rewrite Hc; reflexivity).
    exists s', st'. split; [exact Hc |].
    split; [rewrite HS; apply lookup_insert_eq |].
    split; [rewrite Hst; reflexivity |].
    split; [rewrite Hco; reflexivity |].
    split; [rewrite HP; reflexivity |].
    split; [rewrite HB, Hco; reflexivity |].
    split; [exact HL |].
    split; [rewrite HN, Hs'; vm_compute; reflexivity |].
    rewrite Hs'. vm_compute. reflexivity.
  - split.
    + destruct (raise_min_raise_boundary demoStart "b" _ 9 0 H1 H2 H3 H4 H5 H6) as [_ Hrej].
      exact (Hrej ltac:(vm_compute; reflexivity) ltac:(vm_compute; discriminate)).
    + split; [vm_compute; reflexivity |].
      destruct (raise_min_raise_boundary demoCalled "c"
                  (mkSeat "c" 995 5 true false false) 10 0
                  ltac:(split; [vm_compute; reflexivity | vm_compute; discriminate])
                  ltac:(vm_compute; reflexivity)
                  ltac:(vm_compute; reflexivity)
                  ltac:(split; [vm_compute; reflexivity | vm_compute; discriminate])
                  ltac:(intros _; vm_compute; reflexivity)
                  ltac:(vm_compute; discriminate)) as [Hfull _].
      destruct (Hfull ltac:(vm_compute; discriminate) ltac:(vm_compute; discriminate))
        as (s' & st' & Hc & _ & _ & Hco & _ & _ & _ & HP & HB & _ & _ & HN & _).
      assert (Hs' : s' = stateOf (Raise 1 demoCalled "c" 10)) by (rewrite Hc; reflexivity).
      exists s'. split; [exact Hc |].
      split; [rewrite HB, Hco; reflexivity |].
      split; [rewrite HP; reflexivity |].
      split; [rewrite HN, Hs'; vm_compute; reflexivity |].
      rewrite Hs'. vm_compute. reflexivity.
Defined.

(** ** Showdown: the split of the pot *)

Lemma eqm64_refl a : eqm64 a a.
Proof. exists 0. lia. Qed.

Lemma eqm64_trans a b c : eqm64 a b -> eqm64 b c -> eqm64 a c.
Proof. intros [k ->] [j ->]. exists (k + j). lia. Qed.

Lemma eqm64_wrap a : eqm64 (wrap64 a) a.
Proof. destruct (wrap64_spec a) as [k Hk]. exists k. exact Hk. Qed.

Lemma eqm64_wrap64 a b : eqm64 a b -> wrap64 a = wrap64 b.
Proof. apply wrap64_congr. Qed.

Lemma sumStacks_bump (m : gmap string Seat) p st x :
  m !! p = Some st ->
  eqm64 (sumStacks (<[p := set_Stack st (add64 (Stack st) x)]> m)) (sumStacks m + x).
Proof.
  intros Hp. rewrite (sumStacks_insert m p st _ Hp). cbn [Stack set_Stack].
  unfold add64. destruct (wrap64_spec (Stack st + x)) as [k ->]. exists k. lia.
Qed.

Lemma giveOdd_sum isW visit : forall seats rem,
  eqm64 (sumStacks (fst (giveOdd isW visit seats rem)) + snd (giveOdd isW visit seats rem))
        (sumStacks seats + rem).
Proof.
  induction visit as [| pid rest IH]; intros seats rem; cbn [giveOdd].
  - apply eqm64_refl.
  - destruct (rem <=? 0); [apply eqm64_refl |].
    destruct (isW pid); [| apply IH].
    destruct (seats !! pid) as [st |] eqn:E; [| apply IH].
    eapply eqm64_trans; [apply IH |].
    destruct (sumStacks_bump seats pid st 1 E) as [k ->]. exists k. lia.
Qed.

Lemma giveOdd_rem isW visit : forall seats rem,
  (forall pid, isW pid = true -> pid ∈ visit -> is_Some (seats !! pid)) ->
  0 <= rem <= len (List.filter isW visit) ->
  snd (giveOdd isW visit seats rem) = 0.
Proof.
  induction visit as [| pid rest IH]; intros seats rem Hseat Hrem; cbn [giveOdd].
  - cbn in Hrem. unfold len in Hrem. cbn in Hrem. cbn. lia.
  - destruct (rem <=? 0) eqn:E0; [apply Z.leb_le in E0; cbn; lia |].
    apply Z.leb_gt in E0. cbn [List.filter] in Hrem.
    destruct (isW pid) eqn:EW.
    + destruct (Hseat pid EW ltac:(left)) as [st Hst]. rewrite Hst.
      apply IH.
      * intros q Hq Hin. destruct (decide (pid = q)) as [-> | Hne].
        -- rewrite lookup_insert_eq. eauto.
        -- rewrite lookup_insert_ne by exact Hne. apply Hseat; [exact Hq | now right].
      * unfold len in *. cbn [length] in Hrem. lia.
    + apply IH; [| exact Hrem].
      intros q Hq Hin. apply Hseat; [exact Hq | now right].
Qed.

Lemma payPer_sum per ws : forall seats,
  (forall w, w ∈ ws -> is_Some (seats !! swPlayer w)) ->
  eqm64 (sumStacks (foldl (payPer per) seats ws)) (sumStacks seats + per * len ws).
Proof.
  induction ws as [| w ws IH]; intros seats Hseat; cbn [foldl].
  - exists 0. unfold len. cbn. lia.
  - destruct (Hseat w ltac:(left)) as [st Hst].
    unfold payPer at 2. rewrite Hst.
    eapply eqm64_trans.
    + apply IH. intros w' Hw'.
      destruct (decide (swPlayer w = swPlayer w')) as [<- | Hne].
      * rewrite lookup_insert_eq. eauto.
      * rewrite lookup_insert_ne by exact Hne. apply Hseat. now right.
    + destruct (sumStacks_bump seats (swPlayer w) st per Hst) as [k ->].
      exists k. unfold len. cbn [length]. lia.
Qed.

Lemma payPer_dom per ws : forall seats p,
  is_Some (foldl (payPer per) seats ws !! p) <-> is_Some (seats !! p).
Proof.
  induction ws as [| w ws IH]; intros seats p; cbn [foldl]; [reflexivity |].
  rewrite IH. unfold payPer. destruct (seats !! swPlayer w) as [st |] eqn:E; [| reflexivity].
  destruct (decide (swPlayer w = p)) as [<- | Hne].
  - rewrite lookup_insert_eq, E. split; eauto.
  - rewrite lookup_insert_ne by exact Hne. reflexivity.
Qed.

Lemma buildWinSet_spec ws : forall pre m,
  (forall pid idx, m !! pid = Some idx ->
     exists w, pre !! idx = Some w /\ swPlayer w = pid) ->
  (forall pid idx, buildWinSet (length pre) ws m !! pid = Some idx ->
     exists w, (pre ++ ws) !! idx = Some w /\ swPlayer w = pid) /\
  (forall pid, pid ∈ swPlayer <$> ws -> is_Some (buildWinSet (length pre) ws m !! pid)) /\
  (forall pid, pid ∉ swPlayer <$> ws -> buildWinSet (length pre) ws m !! pid = m !! pid).
Proof.
  induction ws as [| w ws IH]; intros pre m Hm; cbn [buildWinSet].
  - rewrite app_nil_r. split; [exact Hm |]. split; [| reflexivity].
    intros pid H. cbn in H. inversion H.
  - specialize (IH (pre ++ [w]) (<[swPlayer w := length pre]> m)).
    rewrite length_app in IH. cbn [length] in IH.
    replace (length pre + 1)%nat with (S (length pre)) in IH by lia.
    rewrite <- app_assoc in IH. cbn [app] in IH.
    destruct IH as (I1 & I2 & I3).
    { intros pid idx H. destruct (decide (swPlayer w = pid)) as [<- | Hne].
      - rewrite lookup_insert_eq in H. inversion H; subst idx.
        exists w. split; [| reflexivity].
        rewrite lookup_app_r by lia. now rewrite Nat.sub_diag.
      - rewrite lookup_insert_ne in H by exact Hne.
        destruct (Hm pid idx H) as (w' & Hw' & Hp). exists w'. split; [| exact Hp].
        apply lookup_app_l_Some. exact Hw'. }
    split; [exact I1 |]. split.
    + intros pid H. rewrite fmap_cons in H.
      destruct (decide (pid ∈ swPlayer <$> ws)) as [Hin | Hnin]; [apply I2, Hin |].
      rewrite I3 by exact Hnin.
      apply elem_of_cons in H as [-> | H]; [| contradiction].
      rewrite lookup_insert_eq. eauto.
    + intros pid H. rewrite fmap_cons in H.
      apply not_elem_of_cons in H as [Hne Hnin].
      rewrite I3 by exact Hnin. rewrite lookup_insert_ne by congruence. reflexivity.
Qed.

Lemma buildWinSet_ok winners : winSetOk winners (buildWinSet 0 winners ∅).
Proof.
  destruct (buildWinSet_spec winners [] ∅) as (H1 & H2 & H3).
  { intros pid idx H. rewrite lookup_empty in H. discriminate. }
  cbn [length app] in *. split; [exact H1 |]. split.
  - intros pid H. apply bool_decide_eq_true in H. apply H2, H.
  - intros pid H. apply bool_decide_eq_false in H. rewrite H3 by exact H.
    apply lookup_empty.
Qed.

Lemma set_Seats_set_Seats s a b : set_Seats (set_Seats s a) b = set_Seats s b.
Proof. reflexivity. Qed.

Lemma set_Seats_id s : set_Seats s (Seats s) = s.
Proof. now destruct s. Qed.

(** The remainder loop gives the odd chips along the seat walk. *)
Lemma remainderLoop_giveOdd winners winSet start (order : list string) :
  winSetOk winners winSet ->
  0 <= start < len order -> 2 * len order <= MaxInt64 ->
  forall n k s rem,
    Order s = order -> length order = (k + n)%nat -> 0 <= rem <= MaxInt64 ->
    remainderLoop n (Z.of_nat k) start winners winSet s rem =
    Some (set_Seats s (fst (giveOdd (isWinner winners)
                              (drop k (rotate (Z.to_nat start) order)) (Seats s) rem)),
          snd (giveOdd (isWinner winners)
                 (drop k (rotate (Z.to_nat start) order)) (Seats s) rem)).
Proof.
  intros (W1 & W2 & W3) Hstart HL.
  induction n as [| n IH]; intros k s rem HO Hlen Hrem; cbn [remainderLoop].
  - rewrite drop_ge by (rewrite length_rotate; lia).
    cbn [giveOdd fst snd]. now rewrite set_Seats_id.
  - assert (Hk : (k < length order)%nat) by lia.
    assert (Hlook : rotate (Z.to_nat start) order !! k
                    = order !! Z.to_nat ((start + Z.of_nat k) mod len order)).
    { rewrite lookup_rotate_r by exact Hk. f_equal.
      unfold rotate_nat_add, len. f_equal. f_equal. lia. }
    assert (Hidx : rem64 (add64 start (Z.of_nat k)) (len (Order s))
                   = (start + Z.of_nat k) mod len order).
    { rewrite HO. unfold rem64, add64, len in *.
      rewrite wrap64_id by (unfold MinInt64, MaxInt64 in *; lia).
      apply Z.rem_mod_nonneg; lia. }
    assert (Hmodr : 0 <= (start + Z.of_nat k) mod len order < len order)
      by (apply Z.mod_pos_bound; lia).
    destruct (lookup_lt_is_Some_2 order (Z.to_nat ((start + Z.of_nat k) mod len order)))
      as [pid Hpid]; [unfold len in *; lia |].
    rewrite (drop_S _ pid k) by (rewrite Hlook; exact Hpid).
    cbn [giveOdd].
    destruct (rem <=? 0) eqn:E0; [now rewrite set_Seats_id |].
    apply Z.leb_gt in E0.
    rewrite Hidx, HO. unfold index.
    assert ((((start + Z.of_nat k) mod len order) <? 0) = false) as ->
      by (apply Z.ltb_ge; lia).
    rewrite Hpid. cbn [mbind option_bind].
    assert (Hnext : add64 (Z.of_nat k) 1 = Z.of_nat (S k)).
    { unfold add64. rewrite wrap64_id; [lia |].
      unfold MinInt64, MaxInt64, len in *. lia. }
    destruct (isWinner winners pid) eqn:EW.
    + destruct (W2 pid EW) as [idx Hidx'].
      destruct (W1 pid idx Hidx') as (w & Hw & Hwp).
      rewrite Hidx', Hw. cbn [mbind option_bind]. rewrite Hwp.
      destruct (Seats s !! pid) as [st |] eqn:Est.
      * rewrite Hnext.
        assert (Hsub : sub64 rem 1 = rem - 1).
        { unfold sub64. apply wrap64_id. unfold MinInt64, MaxInt64 in *. lia. }
        rewrite Hsub.
        rewrite (IH (S k) (putSeat s pid (set_Stack st (add64 (Stack st) 1))) (rem - 1));
          [reflexivity | exact HO | lia | lia].
      * rewrite Hnext. apply IH; [exact HO | lia | exact Hrem].
    + rewrite (W3 pid EW). rewrite Hnext. apply IH; [exact HO | lia | exact Hrem].
Qed.

Lemma filter_sublist {A} (f : A -> bool) (l : list A) : List.filter f l `sublist_of` l.
Proof.
  induction l as [| x l IH]; cbn [List.filter]; [constructor |].
  destruct (f x); [now apply sublist_skip | now apply sublist_cons].
Qed.

Lemma filter_length_perm {A} (f : A -> bool) (l k : list A) :
  l ≡ₚ k -> length (List.filter f l) = length (List.filter f k).
Proof.
  induction 1 as [| x l k _ IH | x y l | l k m _ IH1 _ IH2]; cbn [List.filter].
  - reflexivity.
  - destruct (f x); cbn [length]; lia.
  - destruct (f x), (f y); reflexivity.
  - lia.
Qed.

Lemma sublist_filter_length {A} (f : A -> bool) (l1 l2 : list A) :
  l1 `sublist_of` l2 -> (forall x, x ∈ l1 -> f x = true) ->
  (length l1 <= length (List.filter f l2))%nat.
Proof.
  induction 1 as [| x l1 l2 _ IH | x l1 l2 _ IH]; intros Hall; cbn [List.filter length].
  - lia.
  - rewrite (Hall x ltac:(left)). cbn [length].
    specialize (IH ltac:(intros y Hy; apply Hall; now right)). lia.
  - specialize (IH Hall). destruct (f x); cbn [length]; lia.
Qed.

Lemma rotate_perm {A} (n : nat) (l : list A) : rotate n l ≡ₚ l.
Proof.
  unfold rotate. rewrite Permutation_app_comm. now rewrite take_drop.
Qed.

Lemma collectEvals_players s order : forall evals,
  collectEvals s order = Some evals ->
  swPlayer <$> evals = List.filter (contender s) order.
Proof.
  induction order as [| pid rest IH]; intros evals H; cbn [collectEvals] in H.
  - inversion H. reflexivity.
  - cbn [List.filter]. destruct (contender s pid).
    + destruct (BestHand7 _ _) as [[hv five] |]; [| discriminate].
      cbn [mbind option_bind] in H.
      destruct (collectEvals s rest) as [evals' |]; [| discriminate].
      cbn [mbind option_bind] in H. inversion H; subst evals.
      rewrite fmap_cons. cbn [swPlayer]. f_equal. now apply IH.
    + now apply IH.
Qed.

Lemma lessRanks_irrefl r : lessRanks r r = false.
Proof.
  induction r as [| x r IH]; [reflexivity |].
  cbn [lessRanks]. now rewrite Z.eqb_refl.
Qed.

Lemma Less_irrefl hv : Less hv hv = false.
Proof. unfold Less. rewrite Z.eqb_refl. apply lessRanks_irrefl. Qed.

Lemma foldl_best_in (rest : list ShowdownWinner) : forall b0 : HandValue,
  foldl (fun best e => if Less best (swValue e) then swValue e else best) b0 rest = b0 \/
  foldl (fun best e => if Less best (swValue e) then swValue e else best) b0 rest
    ∈ swValue <$> rest.
Proof.
  induction rest as [| e rest IH]; intros b0; cbn [foldl]; [now left |].
  rewrite fmap_cons.
  destruct (IH (if Less b0 (swValue e) then swValue e else b0)) as [-> | Hin].
  - destruct (Less b0 (swValue e)); [right; left | now left].
  - right. now right.
Qed.

Lemma bestOf_in evals : evals <> [] -> bestOf evals ∈ swValue <$> evals.
Proof.
  destruct evals as [| e rest]; [congruence |]. intros _.
  cbn [bestOf]. rewrite fmap_cons.
  destruct (foldl_best_in rest (swValue e)) as [-> | Hin]; [left | now right].
Qed.

Lemma showdownWinners_nonempty evals :
  evals <> [] -> 1 <= len (showdownWinners evals).
Proof.
  intros Hne. apply bestOf_in in Hne.
  apply list_elem_of_fmap in Hne as (e & Hb & He).
  assert (Hw : e ∈ showdownWinners evals).
  { unfold showdownWinners. apply list_elem_of_In, filter_In.
    split; [now apply list_elem_of_In |].
    unfold isBest. rewrite Hb. now rewrite Less_irrefl. }
  unfold len. destruct (showdownWinners evals); [inversion Hw | cbn; lia].
Qed.

Lemma showdownWinners_sublist s evals :
  collectEvals s (Order s) = Some evals ->
  (swPlayer <$> showdownWinners evals) `sublist_of` Order s.
Proof.
  intros H. apply collectEvals_players in H.
  transitivity (swPlayer <$> evals).
  - apply fmap_sublist, filter_sublist.
  - rewrite H. apply filter_sublist.
Qed.

Lemma showdownWinners_seated s evals w :
  collectEvals s (Order s) = Some evals ->
  w ∈ showdownWinners evals -> is_Some (Seats s !! swPlayer w).
Proof.
  intros H Hw. apply collectEvals_players in H.
  assert (Hin : swPlayer w ∈ swPlayer <$> evals).
  { apply list_elem_of_fmap. exists w. split; [reflexivity |].
    apply list_elem_of_In. apply list_elem_of_In in Hw.
    unfold showdownWinners in Hw. apply filter_In in Hw. tauto. }
  rewrite H in Hin. apply list_elem_of_In, filter_In in Hin as [_ Hc].
  unfold contender in Hc. destruct (Seats s !! swPlayer w); [eauto | discriminate].
Qed.

Lemma seatWalk_winner_count s evals :
  collectEvals s (Order s) = Some evals ->
  len (showdownWinners evals)
    <= len (List.filter (isWinner (showdownWinners evals)) (seatWalk s)).
Proof.
  intros H. unfold len, seatWalk.
  rewrite (filter_length_perm _ _ (Order s)) by apply rotate_perm.
  pose proof (sublist_filter_length (isWinner (showdownWinners evals)) _ _
                (showdownWinners_sublist s evals H)) as Hlen.
  rewrite length_fmap in Hlen.
  apply inj_le, Hlen. intros x Hx. now apply bool_decide_eq_true.
Qed.

Lemma giveOdd_zero isW visit seats : giveOdd isW visit seats 0 = (seats, 0).
Proof. destruct visit; reflexivity. Qed.

Lemma split_amounts pot n :
  0 <= pot <= MaxInt64 -> 1 <= n ->
  (if (0 <? pot) && (0 <? n) then div64 pot n else 0) = pot / n /\
  (if (0 <? pot) && (0 <? n) then rem64 pot n else 0) = pot mod n /\
  0 <= pot / n <= MaxInt64 /\ 0 <= pot mod n < n /\
  pot = (pot / n) * n + pot mod n.
Proof.
  intros Hpot Hn.
  assert (Hdiv : 0 <= pot / n <= pot).
  { split; [apply Z.div_pos; lia |]. apply Z.div_le_upper_bound; [lia | nia]. }
  assert (Hmod : 0 <= pot mod n < n) by (apply Z.mod_pos_bound; lia).
  assert (Hdm : pot = (pot / n) * n + pot mod n)
    by (rewrite Z.mul_comm; apply Z.div_mod; lia).
  assert ((0 <? n) = true) as -> by (apply Z.ltb_lt; lia).
  rewrite andb_true_r.
  destruct (0 <? pot) eqn:E.
  - unfold div64, rem64. rewrite Z.quot_div_nonneg by lia.
    rewrite Z.rem_mod_nonneg by lia.
    rewrite wrap64_id by (unfold MinInt64, MaxInt64 in *; lia).
    repeat split; lia.
  - apply Z.ltb_ge in E. assert (pot = 0) as -> by lia.
    rewrite Z.div_0_l, Z.mod_0_l by lia. repeat split; lia.
Qed.

(** What [ResolveShowdown] computes when somebody contends for the pot. *)
Lemma ResolveShowdown_contested s evals :
  collectEvals s (Order s) = Some evals -> evals <> [] ->
  0 <= Pot s <= MaxInt64 ->
  0 <= DealerIdx s < len (Order s) ->
  2 * len (Order s) <= MaxInt64 ->
  let winners := showdownWinners evals in
  let n := len winners in
  let per := Pot s / n in
  let rem := Pot s mod n in
  let final := giveOdd (isWinner winners) (seatWalk s)
                 (foldl (payPer per) (Seats s) winners) rem in
  exists sum,
    ResolveShowdown s
      = Some (set_HandActive (set_Pot (set_Seats s (fst final)) 0) false, sum) /\
    snd final = 0 /\
    PayoutPer sum = per /\ Remainder sum = 0 /\ TotalPayout sum = Pot s /\
    Winners sum = sortBy (fun a b => posInOrder (Order s) (swPlayer a)
                                     <? posInOrder (Order s) (swPlayer b)) winners.
Proof.
  intros Hev Hne Hpot Hdealer HL winners n per rem final.
  assert (Hn : 1 <= n) by (apply showdownWinners_nonempty, Hne).
  destruct (split_amounts (Pot s) n Hpot Hn) as (Eper & Erem & Hper & Hrem & Hdm).
  fold per in Eper, Hper, Hdm. fold rem in Erem, Hrem, Hdm.
  assert (Hfinal0 : snd final = 0).
  { apply giveOdd_rem.
    - intros pid Hw _. apply payPer_dom.
      apply bool_decide_eq_true, list_elem_of_fmap in Hw as (w & -> & Hw).
      exact (showdownWinners_seated s evals w Hev Hw).
    - pose proof (seatWalk_winner_count s evals Hev). fold winners n in H. lia. }
  assert (Htotal : add64 (mul64 per n) (sub64 (Pot s) (mul64 per n)) = Pot s).
  { unfold mul64, add64, sub64.
    rewrite (wrap64_id (per * n)) by (unfold MinInt64, MaxInt64 in *; nia).
    rewrite (wrap64_id (Pot s - per * n)) by (unfold MinInt64, MaxInt64 in *; nia).
    replace (per * n + (Pot s - per * n)) with (Pot s) by lia.
    apply wrap64_id. unfold MinInt64, MaxInt64 in *. lia. }
  unfold ResolveShowdown. rewrite Hev. cbn [mbind option_bind].
  destruct evals as [| e rest]; [congruence |].
  change (List.filter (isBest (bestOf (e :: rest))) (e :: rest)) with winners.
  fold n. rewrite Eper, Erem.
  cbn [Order DealerIdx set_Seats Pot].
  destruct (0 <? rem) eqn:E0.
  - apply Z.ltb_lt in E0.
    set (s1 := set_Seats s (foldl (payPer per) (Seats s) winners)).
    assert (Hstart : rem64 (add64 (DealerIdx s) 1) (len (Order s))
                     = (DealerIdx s + 1) mod len (Order s)).
    { unfold rem64, add64. rewrite wrap64_id by (unfold MinInt64, MaxInt64 in *; lia).
      apply Z.rem_mod_nonneg; lia. }
    rewrite Hstart.
    pose proof (remainderLoop_giveOdd winners (buildWinSet 0 winners ∅)
                  ((DealerIdx s + 1) mod len (Order s)) (Order s)
                  (buildWinSet_ok winners)
                  ltac:(apply Z.mod_pos_bound; lia) HL
                  (length (Order s)) 0%nat s1 rem eq_refl eq_refl
                  ltac:(unfold MaxInt64 in *; lia)) as Hloop.
    change (Z.of_nat 0) with 0 in Hloop. rewrite drop_0 in Hloop.
    fold (seatWalk s) in Hloop. fold final in Hloop. rewrite Hloop. cbn [fmap option_fmap option_map fst].
    cbn [mbind option_bind Pot set_Seats Order set_Pot set_HandActive].
    eexists. split; [reflexivity |].
    split; [exact Hfinal0 |]. cbn [PayoutPer Remainder TotalPayout Winners].
    repeat split; try reflexivity. exact Htotal.
  - apply Z.ltb_ge in E0. assert (Hrem0 : rem = 0) by lia.
    cbn [mbind option_bind Pot set_Seats Order set_Pot set_HandActive].
    assert (Hfst : fst final = foldl (payPer per) (Seats s) winners).
    { unfold final. rewrite Hrem0, giveOdd_zero. reflexivity. }
    rewrite Hfst.
    eexists. split; [reflexivity |].
    split; [exact Hfinal0 |]. cbn [PayoutPer Remainder TotalPayout Winners].
    repeat split; try reflexivity. exact Htotal.
Qed.

(** The chips the showdown hands out add up to the pot. *)
Lemma ResolveShowdown_conserves s evals s' sum :
  collectEvals s (Order s) = Some evals -> evals <> [] ->
  0 <= Pot s <= MaxInt64 ->
  0 <= DealerIdx s < len (Order s) ->
  2 * len (Order s) <= MaxInt64 ->
  ResolveShowdown s = Some (s', sum) ->
  Pot s' = 0 /\ HandActive s' = false /\
  eqm64 (sumStacks (Seats s')) (sumStacks (Seats s) + Pot s).
Proof.
  intros Hev Hne Hpot Hdealer HL Hrun.
  destruct (ResolveShowdown_contested s evals Hev Hne Hpot Hdealer HL)
    as (sum' & Hrun' & Hfin & _).
  rewrite Hrun in Hrun'. inversion Hrun'; subst s'. clear Hrun'.
  split; [reflexivity |]. split; [reflexivity |].
  cbn [Seats set_HandActive set_Pot set_Seats].
  set (winners := showdownWinners evals) in *.
  set (n := len winners) in *.
  assert (Hn : 1 <= n) by (apply showdownWinners_nonempty, Hne).
  destruct (split_amounts (Pot s) n Hpot Hn) as (_ & _ & _ & _ & Hdm).
  set (per := Pot s / n) in *. set (rem := Pot s mod n) in *.
  pose proof (giveOdd_sum (isWinner winners) (seatWalk s)
                (foldl (payPer per) (Seats s) winners) rem) as Hsum.
  rewrite Hfin, Z.add_0_r in Hsum.
  eapply eqm64_trans; [exact Hsum |].
  destruct (payPer_sum per winners (Seats s)) as [k Hk].
  { intros w Hw. exact (showdownWinners_seated s evals w Hev Hw). }
  rewrite Hk. exists k. fold n. lia.
Qed.

Lemma isWinner_cons w ws pid :
  isWinner (w :: ws) pid = bool_decide (pid = swPlayer w) || isWinner ws pid.
Proof.
  unfold isWinner. rewrite fmap_cons.
  destruct (decide (pid = swPlayer w)) as [-> | Hne].
  - rewrite (bool_decide_eq_true_2 (swPlayer w = swPlayer w)) by reflexivity.
    apply bool_decide_eq_true. left.
  - rewrite (bool_decide_eq_false_2 (pid = swPlayer w)) by exact Hne. cbn [orb].
    apply bool_decide_ext. rewrite elem_of_cons. tauto.
Qed.

Lemma payPer_lookup per ws : forall seats pid,
  NoDup (swPlayer <$> ws) ->
  foldl (payPer per) seats ws !! pid
  = (fun st => if isWinner ws pid then set_Stack st (add64 (Stack st) per) else st)
      <$> seats !! pid.
Proof.
  induction ws as [| w ws IH]; intros seats pid Hnd; cbn [foldl].
  - destruct (seats !! pid); reflexivity.
  - rewrite fmap_cons in Hnd. apply NoDup_cons in Hnd as [Hnin Hnd].
    rewrite (IH _ pid Hnd). rewrite isWinner_cons.
    destruct (decide (pid = swPlayer w)) as [-> | Hne].
    + rewrite (bool_decide_eq_true_2 (swPlayer w = swPlayer w)) by reflexivity.
      cbn [orb].
      assert (isWinner ws (swPlayer w) = false) as ->
        by (apply bool_decide_eq_false; exact Hnin).
      unfold payPer. destruct (seats !! swPlayer w) as [st |] eqn:E.
      * rewrite lookup_insert_eq. reflexivity.
      * rewrite E. reflexivity.
    + rewrite (bool_decide_eq_false_2 (pid = swPlayer w)) by exact Hne. cbn [orb].
      unfold payPer. destruct (seats !! swPlayer w) as [st |] eqn:E; [| reflexivity].
      rewrite lookup_insert_ne by congruence. reflexivity.
Qed.

Lemma giveOdd_lookup isW visit : forall seats rem pid,
  NoDup visit -> 0 <= rem ->
  (forall q, isW q = true -> q ∈ visit -> is_Some (seats !! q)) ->
  fst (giveOdd isW visit seats rem) !! pid
  = (fun st => if bool_decide (pid ∈ take (Z.to_nat rem) (List.filter isW visit))
               then set_Stack st (add64 (Stack st) 1) else st)
      <$> seats !! pid.
Proof.
  induction visit as [| p rest IH]; intros seats rem pid Hnd Hrem Hseat; cbn [giveOdd].
  - cbn [List.filter]. rewrite take_nil. cbn [fst].
    rewrite bool_decide_eq_false_2 by (intros H; inversion H).
    destruct (seats !! pid); reflexivity.
  - apply NoDup_cons in Hnd as [Hnin Hnd].
    destruct (rem <=? 0) eqn:E0.
    { apply Z.leb_le in E0. assert (rem = 0) as -> by lia. cbn [Z.to_nat take fst].
      rewrite bool_decide_eq_false_2 by (intros H; inversion H).
      destruct (seats !! pid); reflexivity. }
    apply Z.leb_gt in E0. cbn [List.filter].
    destruct (isW p) eqn:EW.
    + destruct (Hseat p EW ltac:(left)) as [st Hst]. rewrite Hst.
      rewrite IH; [| exact Hnd | lia |].
      2:{ intros q Hq Hin. destruct (decide (p = q)) as [-> | Hne].
          - rewrite lookup_insert_eq. eauto.
          - rewrite lookup_insert_ne by exact Hne. apply Hseat; [exact Hq | now right]. }
      replace (Z.to_nat rem) with (S (Z.to_nat (rem - 1))) by lia.
      cbn [take].
      destruct (decide (pid = p)) as [-> | Hne].
      * rewrite lookup_insert_eq, Hst. cbn [fmap option_fmap option_map].
        rewrite (bool_decide_eq_true_2 (p ∈ p :: _)) by left.
        rewrite bool_decide_eq_false_2; [reflexivity |].
        intros Hin. apply Hnin.
        apply (sublist_subseteq _ _ (sublist_take _ _)) in Hin.
        apply list_elem_of_In, filter_In in Hin as [Hin _].
        now apply list_elem_of_In.
      * rewrite lookup_insert_ne by congruence.
        assert (Hdec : bool_decide (pid ∈ p :: take (Z.to_nat (rem - 1)) (List.filter isW rest))
                       = bool_decide (pid ∈ take (Z.to_nat (rem - 1)) (List.filter isW rest))).
        { apply bool_decide_ext. rewrite elem_of_cons. tauto. }
        rewrite Hdec. reflexivity.
    + apply IH; [exact Hnd | exact Hrem |].
      intros q Hq Hin. apply Hseat; [exact Hq | now right].
Qed.

Lemma insertBy_perm {A} (lt : A -> A -> bool) x l : insertBy lt x l ≡ₚ x :: l.
Proof.
  induction l as [| y l IH]; cbn [insertBy]; [reflexivity |].
  destruct (lt y x); [| reflexivity].
  rewrite IH. apply perm_swap.
Qed.

Lemma sortBy_perm {A} (lt : A -> A -> bool) l : sortBy lt l ≡ₚ l.
Proof.
  unfold sortBy. induction l as [| x l IH]; cbn [foldr]; [reflexivity |].
  rewrite insertBy_perm. now rewrite IH.
Qed.

(** *** The winners hold the best hand *)

Lemma fill_ranks cat ks : length (Ranks (fill cat ks)) = 5%nat.
Proof.
  unfold fill, pad5. cbn [Ranks].
  rewrite length_take, length_app, length_replicate. lia.
Qed.

Lemma BestHand7_ranks board holes hv five :
  BestHand7 board holes = Some (hv, five) -> length (Ranks hv) = 5%nat.
Proof.
  unfold BestHand7. intros H.
  repeat case_match; simplify_eq; apply fill_ranks.
Qed.

Lemma collectEvals_ranks s order : forall evals,
  collectEvals s order = Some evals ->
  Forall (fun e => length (Ranks (swValue e)) = 5%nat) evals.
Proof.
  induction order as [| pid rest IH]; intros evals H; cbn [collectEvals] in H.
  - inversion H. constructor.
  - destruct (contender s pid); [| now apply IH].
    destruct (BestHand7 _ _) as [[hv five] |] eqn:E; [| discriminate].
    cbn [mbind option_bind] in H.
    destruct (collectEvals s rest) as [evals' |]; [| discriminate].
    cbn [mbind option_bind] in H. inversion H; subst evals.
    constructor; [exact (BestHand7_ranks _ _ _ _ E) | now apply IH].
Qed.

Lemma lessRanks_trans a : forall b c,
  lessRanks a b = true -> lessRanks b c = true -> lessRanks a c = true.
Proof.
  induction a as [| x a IH]; intros [| y b] [| z c]; cbn [lessRanks]; try discriminate.
  destruct (x =? y) eqn:Exy, (y =? z) eqn:Eyz, (x =? z) eqn:Exz; cbn [negb];
    rewrite ?Z.eqb_eq, ?Z.eqb_neq, ?Z.ltb_lt in *; intros; try lia.
  eapply IH; eassumption.
Qed.

Lemma lessRanks_eq a : forall b,
  length a = length b -> lessRanks a b = false -> lessRanks b a = false -> a = b.
Proof.
  induction a as [| x a IH]; intros [| y b]; cbn [lessRanks length]; try discriminate;
    [reflexivity |].
  intros Hlen. rewrite (Z.eqb_sym y x). destruct (x =? y) eqn:E; cbn [negb].
  - apply Z.eqb_eq in E. subst y. intros H1 H2. f_equal. apply IH; [lia | assumption..].
  - apply Z.eqb_neq in E. rewrite !Z.ltb_ge. lia.
Qed.

Lemma Less_trans a b c : Less a b = true -> Less b c = true -> Less a c = true.
Proof.
  unfold Less.
  destruct (Cat a =? Cat b) eqn:Eab, (Cat b =? Cat c) eqn:Ebc, (Cat a =? Cat c) eqn:Eac;
    cbn [negb]; rewrite ?Z.eqb_eq, ?Z.eqb_neq, ?Z.ltb_lt in *; intros; try lia.
  eapply lessRanks_trans; eassumption.
Qed.

Lemma Less_eq a b :
  length (Ranks a) = length (Ranks b) ->
  Less a b = false -> Less b a = false -> a = b.
Proof.
  unfold Less. intros Hlen. rewrite (Z.eqb_sym (Cat b) (Cat a)).
  destruct (Cat a =? Cat b) eqn:E; cbn [negb].
  - apply Z.eqb_eq in E. intros H1 H2. destruct a as [ca ra], b as [cb rb].
    cbn [Cat Ranks] in *. subst cb. f_equal. now apply lessRanks_eq.
  - apply Z.eqb_neq in E. rewrite !Z.ltb_ge. lia.
Qed.

(** A value that is not below [b] is not below anything [b] is not below. *)
Lemma Less_neg_trans a b c :
  length (Ranks a) = 5%nat -> length (Ranks b) = 5%nat ->
  Less a b = false -> Less b c = false -> Less a c = false.
Proof.
  intros La Lb Hab Hbc. destruct (Less a c) eqn:Hac; [| reflexivity].
  destruct (Less b a) eqn:Hba.
  - rewrite (Less_trans b a c Hba Hac) in Hbc. discriminate.
  - rewrite (Less_eq a b ltac:(congruence) Hab Hba) in Hac. congruence.
Qed.

Lemma foldl_best_max (rest : list ShowdownWinner) : forall b0 : HandValue,
  length (Ranks b0) = 5%nat ->
  Forall (fun e => length (Ranks (swValue e)) = 5%nat) rest ->
  let b := foldl (fun best e => if Less best (swValue e) then swValue e else best) b0 rest in
  length (Ranks b) = 5%nat /\ Less b b0 = false /\
  forall e, e ∈ rest -> Less b (swValue e) = false.
Proof.
  induction rest as [| e rest IH]; intros b0 L0 Hall; cbn [foldl].
  - split; [exact L0 |]. split; [apply Less_irrefl |]. intros e He. inversion He.
  - apply Forall_cons in Hall as [Le Hall].
    set (b1 := if Less b0 (swValue e) then swValue e else b0).
    assert (L1 : length (Ranks b1) = 5%nat) by (unfold b1; destruct (Less _ _); assumption).
    destruct (IH b1 L1 Hall) as (Lb & Hb1 & Hrest).
    set (b := foldl _ b1 rest) in *.
    assert (Hb0 : Less b b0 = false /\ Less b (swValue e) = false).
    { unfold b1 in Hb1. destruct (Less b0 (swValue e)) eqn:E.
      - split; [| exact Hb1]. destruct (Less b b0) eqn:E2; [| reflexivity].
        rewrite (Less_trans _ _ _ E2 E) in Hb1. discriminate.
      - split; [exact Hb1 |]. exact (Less_neg_trans _ _ _ Lb L0 Hb1 E). }
    split; [exact Lb |]. split; [tauto |].
    intros e' He'. apply elem_of_cons in He' as [-> | He']; [tauto | now apply Hrest].
Qed.

Lemma bestOf_max evals e :
  Forall (fun e => length (Ranks (swValue e)) = 5%nat) evals ->
  e ∈ evals -> Less (bestOf evals) (swValue e) = false.
Proof.
  destruct evals as [| e0 rest]; [intros _ H; inversion H |].
  intros Hall He. apply Forall_cons in Hall as [L0 Hall].
  destruct (foldl_best_max rest (swValue e0) L0 Hall) as (_ & H0 & Hrest).
  cbn [bestOf]. apply elem_of_cons in He as [-> | He]; [exact H0 | now apply Hrest].
Qed.

(** The winners are the evaluations no other evaluation beats. *)
Lemma showdownWinners_best evals e :
  Forall (fun e => length (Ranks (swValue e)) = 5%nat) evals ->
  e ∈ showdownWinners evals <->
  e ∈ evals /\ forall e', e' ∈ evals -> Less (swValue e) (swValue e') = false.
Proof.
  intros Hall. unfold showdownWinners.
  rewrite list_elem_of_In, filter_In, <- list_elem_of_In. unfold isBest.
  rewrite andb_true_iff, !negb_true_iff.
  split.
  - intros (He & H1 & H2). split; [exact He |]. intros e' He'.
    assert (Le : length (Ranks (swValue e)) = 5%nat)
      by (rewrite Forall_forall in Hall; exact (Hall e He)).
    assert (Hne : evals <> []) by (intros ->; inversion He).
    apply bestOf_in, list_elem_of_fmap in Hne as (eb & Hb & Heb).
    assert (Lb : length (Ranks (bestOf evals)) = 5%nat)
      by (rewrite Hb; rewrite Forall_forall in Hall; exact (Hall eb Heb)).
    exact (Less_neg_trans _ _ _ Le Lb H2 (bestOf_max evals e' Hall He')).
  - intros (He & Hmax). split; [exact He |].
    split; [exact (bestOf_max evals e Hall He) |].
    assert (Hne : evals <> []) by (intros ->; inversion He).
    apply bestOf_in, list_elem_of_fmap in Hne as (eb & Hb & Heb).
    rewrite Hb. now apply Hmax.
Qed.

(** C7.  A showdown with at least one contending seat has [n >= 1] winners,
    the seats in the hand and not folded whose hand no other such seat
    beats; with [per = pot / n] and [rem = pot mod n], every winner's stack grows
    by [per], the first [rem] winners met walking the seats from
    [(DealerIdx + 1) mod N] receive one chip more, no other seat changes;
    afterwards the pot is 0, [HandActive] is false and the chips paid out
    add up to the prior pot. *)
Theorem showdown_pot_split (s : State) (evals : list ShowdownWinner) :
  NoDup (Order s) ->
  2 * len (Order s) <= MaxInt64 ->
  0 <= DealerIdx s < len (Order s) ->
  0 <= Pot s <= MaxInt64 ->
  collectEvals s (Order s) = Some evals ->
  evals <> [] ->
  let winners := showdownWinners evals in
  let n := len winners in
  let per := Pot s / n in
  let rem := Pot s mod n in
  1 <= n /\
  swPlayer <$> evals = List.filter (contender s) (Order s) /\
  (forall e, e ∈ winners <->
     e ∈ evals /\ forall e', e' ∈ evals -> Less (swValue e) (swValue e') = false) /\
  exists s' sum,
    ResolveShowdown s = Some (s', sum) /\
    Winners sum ≡ₚ winners /\
    PayoutPer sum = per /\ Remainder sum = 0 /\ TotalPayout sum = Pot s /\
    Pot s = per * n + rem /\
    length (oddChipSeats s winners rem) = Z.to_nat rem /\
    Pot s' = 0 /\ HandActive s' = false /\
    (forall pid,
       Seats s' !! pid
       = paidSeat winners (oddChipSeats s winners rem) per pid <$> Seats s !! pid) /\
    wrap64 (sumStacks (Seats s')) = wrap64 (sumStacks (Seats s) + Pot s).
Proof.
  intros Hnd HL Hdealer Hpot Hev Hne winners n per rem.
  assert (Hn : 1 <= n) by (apply showdownWinners_nonempty, Hne).
  split; [exact Hn |].
  split; [exact (collectEvals_players s (Order s) evals Hev) |].
  split; [intros e; apply showdownWinners_best, (collectEvals_ranks s (Order s) evals Hev) |].
  destruct (ResolveShowdown_contested s evals Hev Hne Hpot Hdealer HL)
    as (sum & Hrun & Hfin & Hper & Hrem & Htot & Hwin).
  fold winners n per rem in Hrun, Hfin, Hper, Hwin.
  destruct (split_amounts (Pot s) n Hpot Hn) as (_ & _ & _ & Hremr & Hdm).
  fold per rem in Hremr, Hdm.
  eexists _, sum. split; [exact Hrun |].
  split; [rewrite Hwin; apply sortBy_perm |].
  split; [exact Hper |]. split; [exact Hrem |]. split; [exact Htot |].
  split; [exact Hdm |].
  split.
  { unfold oddChipSeats. rewrite length_take.
    pose proof (seatWalk_winner_count s evals Hev) as Hc.
    fold winners n in Hc. unfold len in Hc. lia. }
  split; [reflexivity |]. split; [reflexivity |].
  split.
  - intros pid. cbn [Seats set_HandActive set_Pot set_Seats].
    assert (Hndw : NoDup (swPlayer <$> winners))
      by exact (sublist_NoDup _ _ Hnd (showdownWinners_sublist s evals Hev)).
    rewrite giveOdd_lookup.
    + rewrite (payPer_lookup per winners (Seats s) pid Hndw).
      fold (oddChipSeats s winners rem).
      destruct (Seats s !! pid) as [st |]; [| reflexivity].
      cbn [fmap option_fmap option_map]. f_equal. unfold paidSeat.
      destruct (isWinner winners pid) eqn:EW.
      * destruct (bool_decide (pid ∈ oddChipSeats s winners rem));
          unfold set_Stack; cbn; f_equal; wrap_eq.
      * rewrite bool_decide_eq_false_2; [reflexivity |].
        intros Hin. unfold oddChipSeats in Hin.
        apply (sublist_subseteq _ _ (sublist_take _ _)) in Hin.
        apply list_elem_of_In, filter_In in Hin as [_ Hin]. congruence.
    + unfold seatWalk. rewrite rotate_perm. exact Hnd.
    + lia.
    + intros q Hq _. apply payPer_dom.
      apply bool_decide_eq_true, list_elem_of_fmap in Hq as (w & -> & Hw).
      exact (showdownWinners_seated s evals w Hev Hw).
  - apply eqm64_wrap64.
    exact (proj2 (proj2 (ResolveShowdown_conserves s evals _ sum Hev Hne Hpot Hdealer HL Hrun))).
Qed.

(** ** Chip conservation *)

(** Decides equations between [int64] sums by their quotients and
    remainders. *)
Ltac wrap_lia :=
  unfold add64, sub64, wrap64, two63, two64 in *;
  Z.to_euclidean_division_equations; lia.

Lemma advanceTurnLoop_same n : forall s s',
  advanceTurnLoop n s = Some s' -> s' = set_TurnIdx s (TurnIdx s').
Proof.
  induction n as [| n IH]; intros s s' H; cbn [advanceTurnLoop] in H.
  - inversion H. now destruct s'.
  - destruct (index _ _) as [pid |]; [| discriminate]. cbn [mbind option_bind] in H.
    destruct (Seats _ !! pid) as [st |]; [| discriminate]. cbn [mbind option_bind] in H.
    destruct (InHand st && negb (Folded st) && negb (AllIn st)).
    + inversion H. reflexivity.
    + apply IH in H. rewrite H. reflexivity.
Qed.

Lemma finish_same s s' :
  finish (advanceTurn s) = Ok s' -> s' = set_TurnIdx s (TurnIdx s').
Proof.
  unfold finish, advanceTurn.
  destruct (len (Order s) =? 0).
  - intros H. inversion H. now destruct s'.
  - destruct (advanceTurnLoop _ s) as [s1 |] eqn:E; [| discriminate].
    intros H. inversion H; subst s1. exact (advanceTurnLoop_same _ _ _ E).
Qed.

Lemma finish_chips s s' : finish (advanceTurn s) = Ok s' -> chips s' = chips s.
Proof. intros H. apply finish_same in H. rewrite H. reflexivity. Qed.

(** Moving [x] chips from the stack of [p] to the pot keeps the total. *)
Lemma chips_pay s p st st' pot' x :
  Seats s !! p = Some st ->
  wrap64 (Stack st') = wrap64 (Stack st - x) ->
  wrap64 pot' = wrap64 (Pot s + x) ->
  wrap64 (sumStacks (<[p := st']> (Seats s)) + pot') = chips s.
Proof.
  intros Hst Hs Hp. unfold chips. rewrite (sumStacks_insert _ p st st' Hst).
  revert Hs Hp. generalize (sumStacks (Seats s)) (Stack st) (Stack st') (Pot s).
  intros. wrap_lia.
Qed.

Lemma Bet_conserves s p amt s' : Bet s p amt = Ok s' -> chips s' = chips s.
Proof.
  unfold Bet. destruct (Seats s !! p) as [st |] eqn:Hst; [| discriminate].
  destruct (ensureTurn s p) as [[|] |]; try discriminate.
  destruct (0 <? CurrentBet s); [discriminate |].
  destruct (amt <? BigBlind s); [discriminate |].
  destruct (amt <=? 0); [discriminate |].
  destruct (Stack st <? amt); [discriminate |].
  intros H. rewrite (finish_chips _ _ H). unfold chips at 1.
  cbn [Seats Pot set_ActorsToAct set_LastRaiseSize set_CurrentBet set_Pot putSeat set_Seats].
  apply (chips_pay s p st _ _ amt Hst); cbn [Stack set_Committed set_Stack]; wrap_eq.
Qed.

Lemma Check_conserves s p s' : Check s p = Ok s' -> chips s' = chips s.
Proof.
  unfold Check. destruct (Seats s !! p) as [st |] eqn:Hst; [| discriminate].
  destruct (ensureTurn s p) as [[|] |]; try discriminate.
  destruct (CurrentBet s =? 0).
  - intros H. now rewrite (finish_chips _ _ H).
  - destruct (negb (Committed st =? CurrentBet s)); [discriminate |].
    intros H. now rewrite (finish_chips _ _ H).
Qed.

Lemma chips_same_stack s p st st' :
  Seats s !! p = Some st -> Stack st' = Stack st ->
  sumStacks (<[p := st']> (Seats s)) = sumStacks (Seats s).
Proof. intros Hst Hs. rewrite (sumStacks_insert _ p st st' Hst). lia. Qed.

Lemma Fold_conserves s p s' : Fold s p = Ok s' -> chips s' = chips s.
Proof.
  unfold Fold. destruct (Seats s !! p) as [st |] eqn:Hst; [| discriminate].
  destruct (ensureTurn s p) as [[|] |]; try discriminate.
  intros H. rewrite (finish_chips _ _ H). unfold chips.
  destruct ((0 <? CurrentBet s) && (Committed st <? CurrentBet s));
    cbn [Seats Pot set_ActorsToAct putSeat set_Seats];
    rewrite (chips_same_stack s p st _ Hst) by reflexivity; reflexivity.
Qed.

Lemma Call_conserves s p s' : Call s p = Ok s' -> chips s' = chips s.
Proof.
  unfold Call. destruct (Seats s !! p) as [st |] eqn:Hst; [| discriminate].
  destruct (ensureTurn s p) as [[|] |]; try discriminate.
  destruct (CurrentBet s =? 0); [discriminate |].
  destruct (sub64 (CurrentBet s) (Committed st) <=? 0); [discriminate |].
  destruct (sub64 (CurrentBet s) (Committed st) <=? Stack st).
  - intros H. rewrite (finish_chips _ _ H). unfold chips at 1.
    cbn [Seats Pot set_ActorsToAct set_Pot putSeat set_Seats].
    apply (chips_pay s p st _ _ (sub64 (CurrentBet s) (Committed st)) Hst);
      cbn [Stack set_Committed set_Stack]; wrap_eq.
  - destruct (Stack st <=? 0); [discriminate |].
    intros H. rewrite (finish_chips _ _ H). unfold chips at 1.
    cbn [Seats Pot set_ActorsToAct set_Pot putSeat set_Seats].
    apply (chips_pay s p st _ _ (Stack st) Hst);
      cbn [Stack set_Committed set_Stack set_AllIn]; [f_equal; lia | wrap_eq].
Qed.

Lemma Raise_conserves s p add s' : Raise 1 s p add = Ok s' -> chips s' = chips s.
Proof.
  cbn [Raise]. destruct (Seats s !! p) as [st |] eqn:Hst; [| discriminate].
  destruct (ensureTurn s p) as [[|] |]; try discriminate.
  destruct (CurrentBet s =? 0); [discriminate |].
  destruct (add <=? 0); [discriminate |].
  set (need := if Committed st <? CurrentBet s then _ else _).
  destruct ((LastRaiseSize s <=? add) && (add64 need add <=? Stack st)).
  - intros H. rewrite (finish_chips _ _ H). unfold chips at 1.
    cbn [Seats Pot set_ActorsToAct set_LastRaiseSize set_CurrentBet set_Pot putSeat set_Seats].
    destruct (0 <? need).
    + apply (chips_pay s p st _ _ (need + add) Hst);
        cbn [Stack set_Committed set_Stack]; wrap_eq.
    + apply (chips_pay s p st _ _ add Hst); cbn [Stack set_Committed set_Stack]; wrap_eq.
  - destruct (Stack st <? add64 need add); [| destruct (add <? LastRaiseSize s); discriminate].
    match goal with |- context [if ?c then Fail _ _ else _] => destruct c end;
      [discriminate |].
    intros H. rewrite (finish_chips _ _ H). unfold chips at 1.
    destruct (0 <? min64 (Stack st) need);
      repeat match goal with
             | |- context [if ?c then _ else _] => destruct c
             end;
      cbn [Seats Pot set_ActorsToAct set_Pot putSeat set_Seats];
      rewrite insert_insert_eq;
      apply (chips_pay s p st _ _ (Stack st) Hst);
      cbn [Stack set_Committed set_Stack set_AllIn];
      try (f_equal; lia); try wrap_eq; wrap_lia.
Qed.

Lemma AdvancePhase_conserves s : chips (AdvancePhase s) = chips s.
Proof.
  assert (Hreset : forall s0, chips (resetCommittedAndSetTurnFromDealer s0) = chips s0).
  { intros s0. unfold resetCommittedAndSetTurnFromDealer, chips.
    cbn [Order set_Seats]. destruct (len (Order s0) =? 0);
      cbn [Seats Pot set_ActorsToAct set_LastRaiseSize set_CurrentBet set_TurnIdx set_Seats];
      rewrite sumStacks_fmap_same by reflexivity; reflexivity. }
  assert (Hdeal : forall s0 n, chips (dealBoard s0 n) = chips s0).
  { intros s0 n. unfold dealBoard. destruct (Z.of_nat n <=? len (Deck s0)); reflexivity. }
  unfold AdvancePhase.
  repeat match goal with
         | |- context [if ?c then _ else _] => destruct c
         end;
    try reflexivity;
    change (chips (set_Phase ?x _)) with (chips x); now rewrite Hreset, Hdeal.
Qed.

Lemma contender_evals s order pid evals :
  pid ∈ order -> contender s pid = true ->
  collectEvals s order = Some evals -> evals <> [].
Proof.
  intros Hin Hc Hev. apply collectEvals_players in Hev.
  assert (Hp : pid ∈ List.filter (contender s) order)
    by (apply list_elem_of_In, filter_In; split; [now apply list_elem_of_In | exact Hc]).
  rewrite <- Hev in Hp. intros ->. inversion Hp.
Qed.

Lemma showdownReady_spec s :
  showdownReady s = true ->
  (exists pid, pid ∈ Order s /\ contender s pid = true) /\
  0 <= Pot s <= MaxInt64 /\
  0 <= DealerIdx s < len (Order s) /\
  2 * len (Order s) <= MaxInt64.
Proof.
  unfold showdownReady. intros H.
  repeat (apply andb_true_iff in H as [H ?]).
  apply existsb_exists in H as (pid & Hin & Hc).
  split; [exists pid; split; [now apply list_elem_of_In | exact Hc] |].
  repeat split; try (apply Z.leb_le; assumption); apply Z.ltb_lt; assumption.
Qed.

Lemma Showdown_conserves s s' :
  showdownReady s = true -> runOp s OpShowdown = Some s' -> chips s' = chips s.
Proof.
  intros Hready Hrun.
  destruct (showdownReady_spec s Hready) as ((pid & Hin & Hc) & Hpot & Hdealer & HL).
  cbn [runOp] in Hrun.
  destruct (ResolveShowdown s) as [[s1 sum] |] eqn:E; [| discriminate].
  cbn in Hrun. inversion Hrun; subst s1.
  assert (Hev : exists evals, collectEvals s (Order s) = Some evals).
  { unfold ResolveShowdown in E. destruct (collectEvals s (Order s)); [eauto | discriminate]. }
  destruct Hev as [evals Hev].
  pose proof (contender_evals s (Order s) pid evals Hin Hc Hev) as Hne.
  destruct (ResolveShowdown_conserves s evals s' sum Hev Hne Hpot Hdealer HL E)
    as (Hp & _ & Hsum).
  unfold chips. rewrite Hp, Z.add_0_r. apply eqm64_wrap64, Hsum.
Qed.

Lemma runOp_conserves s op s' :
  (if isShowdown op then showdownReady s else true) = true ->
  runOp s op = Some s' -> chips s' = chips s.
Proof.
  intros Hready Hrun. destruct op as [p amt | p | p | p add | p | |].
  - cbn in Hrun. destruct (Bet s p amt) eqn:E; inversion Hrun; subst.
    exact (Bet_conserves _ _ _ _ E).
  - cbn in Hrun. destruct (Check s p) eqn:E; inversion Hrun; subst.
    exact (Check_conserves _ _ _ E).
  - cbn in Hrun. destruct (Call s p) eqn:E; inversion Hrun; subst.
    exact (Call_conserves _ _ _ E).
  - cbn [runOp] in Hrun. destruct (Raise 1 s p add) eqn:E; inversion Hrun; subst.
    exact (Raise_conserves _ _ _ _ E).
  - cbn in Hrun. destruct (Fold s p) eqn:E; inversion Hrun; subst.
    exact (Fold_conserves _ _ _ E).
  - cbn in Hrun. inversion Hrun. apply AdvancePhase_conserves.
  - exact (Showdown_conserves s s' Hready Hrun).
Qed.

Lemma runOps_conserves ops : forall s s',
  showdownsReady s ops = true -> runOps s ops = Some s' -> chips s' = chips s.
Proof.
  induction ops as [| op rest IH]; intros s s' Hready Hrun; cbn [runOps] in Hrun.
  - inversion Hrun. reflexivity.
  - cbn [showdownsReady] in Hready. apply andb_true_iff in Hready as [Hop Hrest].
    destruct (runOp s op) as [s1 |] eqn:E; [| discriminate].
    rewrite (IH s1 s' Hrest Hrun).
    exact (runOp_conserves s op s1 Hop E).
Qed.

Lemma postBlind_conserves s p amt s' : postBlind s p amt = Some s' -> chips s' = chips s.
Proof.
  unfold postBlind. destruct (Seats s !! p) as [seat |] eqn:Hst; [| discriminate].
  cbn [mbind option_bind]. destruct (Stack seat <=? 0).
  - intros H. inversion H. unfold chips. cbn [Seats Pot putSeat set_Seats].
    now rewrite (chips_same_stack s p seat _ Hst).
  - intros H. inversion H. unfold chips at 1. cbn [Seats Pot set_Pot putSeat set_Seats].
    destruct (Stack seat <? amt).
    + apply (chips_pay s p seat _ _ (Stack seat) Hst);
        cbn [Stack set_Committed set_Stack set_AllIn]; wrap_eq.
    + apply (chips_pay s p seat _ _ amt Hst);
        cbn [Stack set_Committed set_Stack set_AllIn]; wrap_eq.
Qed.

Lemma dealHoles_chips order : forall s s', dealHoles s order = Ok s' -> chips s' = chips s.
Proof.
  induction order as [| pid rest IH]; intros s s' H; cbn [dealHoles] in H.
  - inversion H. reflexivity.
  - destruct (Seats s !! pid) as [st |]; [| discriminate].
    destruct (InHand st && negb (Folded st)); [| exact (IH _ _ H)].
    destruct (Deck s) as [| c0 [| c1 deck']]; try discriminate.
    rewrite (IH _ _ H). reflexivity.
Qed.

Lemma StartHand_chips s r s' :
  StartHand s r = Ok s' -> chips s' = wrap64 (sumStacks (Seats s)).
Proof.
  unfold StartHand. destruct (len (Order s) <? 2); [discriminate |].
  cbn [Order DealerIdx SmallBlind BigBlind set_DealerIdx set_HandActive set_Seats set_Pot].
  set (s1 := set_DealerIdx _ _).
  assert (H1 : chips s1 = wrap64 (sumStacks (Seats s))).
  { unfold chips. cbn [Seats Pot s1 set_DealerIdx set_HandActive set_Seats set_Pot].
    rewrite sumStacks_fmap_same by reflexivity. now rewrite Z.add_0_r. }
  destruct (index (Order s) _ ≫= _) as [s2 |] eqn:E2; [| discriminate].
  assert (H2 : chips s2 = chips s1).
  { destruct (index (Order s) _) as [q |]; [| discriminate]. cbn [mbind option_bind] in E2.
    exact (postBlind_conserves _ _ _ _ E2). }
  destruct (index (Order s2) _ ≫= _) as [s3 |] eqn:E3; [| discriminate].
  assert (H3 : chips s3 = chips s2).
  { destruct (index (Order s2) _) as [q |]; [| discriminate]. cbn [mbind option_bind] in E3.
    exact (postBlind_conserves _ _ _ _ E3). }
  intros H. rewrite (dealHoles_chips _ _ _ H).
  change (chips s3 = wrap64 (sumStacks (Seats s))). congruence.
Qed.

(** C2, as stated, fails: the sample hand in which "b", "c" and "a" fold in
    turn is a sequence of successful operations, and the showdown that ends
    it finds nobody to pay and drops the pot of 15 chips. *)
Lemma chip_conservation_counterexample :
  StartHand demoSeated demoRand = Ok demoStart /\
  exists s2,
    runOps demoStart demoFolds = Some s2 /\
    sumStacks (Seats demoStart) + Pot demoStart = 3000 /\
    sumStacks (Seats s2) + Pot s2 = 2985 /\
    chips s2 <> chips demoStart.
Proof.
  split; [vm_compute; reflexivity |].
  eexists. split; [vm_compute; reflexivity |].
  split; [vm_compute; reflexivity |].
  split; [vm_compute; reflexivity |].
  vm_compute. discriminate.
Qed.

(** C2, amended.  From a state produced by a successful [StartHand], along
    every sequence of successful bets, checks, calls, raises, folds, phase
    advances and showdown resolutions in which each showdown has a
    contending seat to pay (with a non-negative pot and the dealer index
    inside [Order]), the [int64] sum of all stacks plus the pot is constant
    and equals the [int64] sum of the stacks at hand start; where the sums
    fit in an [int64] they are the exact sums. *)
Theorem chip_conservation (s0 : State) (r : Rand) (s1 : State)
    (ops : list EngineOp) (s2 : State) :
  StartHand s0 r = Ok s1 ->
  runOps s1 ops = Some s2 ->
  showdownsReady s1 ops = true ->
  chips s2 = chips s1 /\
  chips s1 = wrap64 (sumStacks (Seats s0)) /\
  (inInt64 (sumStacks (Seats s0)) -> inInt64 (sumStacks (Seats s2) + Pot s2) ->
   sumStacks (Seats s2) + Pot s2 = sumStacks (Seats s0)).
Proof.
  intros Hstart Hrun Hready.
  pose proof (runOps_conserves ops s1 s2 Hready Hrun) as H1.
  pose proof (StartHand_chips s0 r s1 Hstart) as H2.
  split; [exact H1 |]. split; [exact H2 |].
  intros R0 R2. rewrite H2 in H1. unfold chips in H1.
  rewrite (wrap64_id _ R0), (wrap64_id _ R2) in H1. exact H1.
Qed.

Lemma chip_conservation_witness :
  StartHand demoSeated demoRand = Ok demoStart /\
  showdownsReady demoStart demoHand = true /\
  exists s2,
    runOps demoStart demoHand = Some s2 /\
    chips s2 = chips demoStart /\
    chips demoStart = 3000 /\
    sumStacks (Seats s2) + Pot s2 = 3000.
Proof.
  assert (H1 : StartHand demoSeated demoRand = Ok demoStart) by (vm_compute; reflexivity).
  assert (H3 : showdownsReady demoStart demoHand = true) by (vm_compute; reflexivity).
  split; [exact H1 |]. split; [exact H3 |].
  destruct (runOps demoStart demoHand) as [s2 |] eqn:H2; [| vm_compute in H2; discriminate H2].
  exists s2. split; [reflexivity |].
  destruct (chip_conservation demoSeated demoRand demoStart demoHand s2 H1 H2 H3)
    as (Hc & Hs & Hz).
  split; [exact Hc |]. split; [rewrite Hs; vm_compute; reflexivity |].
  rewrite Hz; [vm_compute; reflexivity | vm_compute; split; discriminate |].
  vm_compute in H2. inversion H2. vm_compute. split; discriminate.
Defined.

Lemma showdown_pot_split_witness :
  NoDup (Order demoTie) /\
  2 * len (Order demoTie) <= MaxInt64 /\
  0 <= DealerIdx demoTie < len (Order demoTie) /\
  0 <= Pot demoTie <= MaxInt64 /\
  collectEvals demoTie (Order demoTie) = Some demoTieEvals /\
  demoTieEvals <> [] /\
  exists s' sum,
    ResolveShowdown demoTie = Some (s', sum) /\
    PayoutPer sum = 33 /\ TotalPayout sum = 101 /\ Pot s' = 0 /\
    Stack <$> Seats s' !! "a"%string = Some 1000 /\
    Stack <$> Seats s' !! "b"%string = Some 1000 /\
    Stack <$> Seats s' !! "c"%string = Some 1000.
Proof.
  assert (H1 : NoDup (Order demoTie))
    by (apply (bool_decide_unpack _); vm_compute; reflexivity).
  assert (H2 : 2 * len (Order demoTie) <= MaxInt64) by (vm_compute; discriminate).
  assert (H3 : 0 <= DealerIdx demoTie < len (Order demoTie))
    by (vm_compute; split; [discriminate | reflexivity]).
  assert (H4 : 0 <= Pot demoTie <= MaxInt64) by (vm_compute; split; discriminate).
  assert (H5 : collectEvals demoTie (Order demoTie) = Some demoTieEvals)
    by (vm_compute; reflexivity).
  assert (H6 : demoTieEvals <> []) by (vm_compute; discriminate).
  repeat (split; [assumption |]).
  destruct (showdown_pot_split demoTie demoTieEvals H1 H2 H3 H4 H5 H6)
    as (_ & _ & _ & s' & sum & Hrun & _ & Hper & _ & Htot & _ & _ & Hpot & _ & Hseats & _).
  exists s', sum. split; [exact Hrun |].
  split; [rewrite Hper; vm_compute; reflexivity |].
  split; [rewrite Htot; reflexivity |].
  split; [exact Hpot |].
  rewrite !Hseats. vm_compute. repeat split; reflexivity.
Defined.

(** ** The replica: what committing actions changes *)

(** Equations between unions of sets of ids. *)
Ltac ids_eq :=
  apply set_eq; intros ?;
  rewrite ?fmap_app, ?list_to_set_app_L; cbn [fmap list_fmap list_to_set];
  rewrite ?elem_of_union, ?elem_of_singleton, ?elem_of_empty; tauto.

Lemma grows_refl t : grows t t.
Proof.
  repeat split; try reflexivity. exists []. rewrite app_nil_r.
  repeat split; try reflexivity. ids_eq.
Qed.

Lemma incrSeq_add n m x : incrSeq n (incrSeq m x) = incrSeq (m + n) x.
Proof.
  unfold incrSeq. induction n as [| n IH].
  - now rewrite Nat.add_0_r.
  - replace (m + S n)%nat with (S (m + n)) by lia.
    rewrite !Nat.iter_succ. now rewrite IH.
Qed.

Lemma grows_trans t1 t2 t3 : grows t1 t2 -> grows t2 t3 -> grows t1 t3.
Proof.
  intros (A1 & A2 & A3 & A4 & A5 & A6 & A7 & l & Al & As & Ad & Af)
         (B1 & B2 & B3 & B4 & B5 & B6 & B7 & k & Bl & Bs & Bd & Bf).
  repeat (split; [congruence |]).
  exists (l ++ k). split; [rewrite Bl, Al; apply eq_sym, app_assoc |].
  split; [rewrite Bs, As, length_app; apply incrSeq_add |].
  split; [rewrite Bd, Ad; ids_eq |].
  intros Hf. destruct (Af Hf) as (-> & An & Ac & Ar).
  destruct (Bf ltac:(congruence)) as (-> & Bn & Bc & Br).
  repeat split; congruence.
Qed.

Lemma grows_set_eng t s : grows t (set_eng t s).
Proof.
  repeat split; try reflexivity. exists []. cbn [t_log set_eng]. rewrite app_nil_r.
  repeat split; try reflexivity. cbn [t_dedup set_eng]. ids_eq.
Qed.

Lemma grows_set_rand t n : t_authority t = true -> grows t (set_rand t n).
Proof.
  intros Ha. repeat split; try reflexivity. exists []. cbn [t_log set_rand].
  rewrite app_nil_r. split; [reflexivity |]. split; [reflexivity |].
  split; [cbn [t_dedup set_rand]; ids_eq |]. cbn [t_authority]. congruence.
Qed.

Section ReplicaFacts.

Variable RandActionID : nat -> string.
Variable newRand : Z -> Rand.
Variable json_Marshal_engine : EngineSnapshot -> option (list Z).
Variable json_Unmarshal_engine : list Z -> option EngineSnapshot.

Lemma commitWith_grows rec t a t2 :
  recGrows rec -> t_authority t = true ->
  commitWith rec t a = Done t2 -> grows t t2.
Proof.
  intros Hrec Ha. unfold commitWith.
  destruct (bool_decide (aID a ∈ t_dedup t)); [intros H; inversion H; apply grows_refl |].
  destruct (rec _ a) as [t1 | |] eqn:E; try discriminate. cbn [andThen].
  intros H. inversion H; subst t2. clear H.
  destruct (Hrec _ _ _ E) as (A1 & A2 & A3 & A4 & A5 & A6 & A7 & l & Al & As & Ad & Af).
  cbn [t_id t_self t_cfg t_authority t_epoch t_authorityID t_lastHeartbeat t_log t_seq
       t_dedup set_seq] in *.
  repeat (split; [assumption |]).
  exists (l ++ [a]). cbn [send set_netOut set_clock set_dedup set_log t_log t_seq t_dedup].
  split; [rewrite Al; apply eq_sym, app_assoc |].
  split.
  { rewrite As, length_app. cbn [length].
    change (wrapU64 (t_seq t + 1)) with (incrSeq 1 (t_seq t)).
    rewrite incrSeq_add. f_equal. lia. }
  split; [rewrite Ad; ids_eq |].
  intros Hf. congruence.
Qed.

Lemma epilogue_grows rec a t err aS aP aT t1 :
  recGrows rec -> epilogue RandActionID rec a t err aS aP aT = Done t1 -> grows t t1.
Proof.
  intros Hrec. unfold epilogue, guardLog.
  destruct err; [intros H; inversion H; apply grows_refl |].
  destruct (if aS then _ else _); [| discriminate].
  destruct (if aP then _ else _); [| discriminate].
  destruct (if aT then _ else _); [| discriminate].
  destruct (t_authority t) eqn:Ha; cbn [andb].
  - destruct (HandActive (t_eng t) && RoundClosed (t_eng t)
              && negb (bool_decide (aType a = ActAdvance)));
      [| intros H; inversion H; apply grows_refl].
    intros H. eapply grows_trans; [apply (grows_set_rand t (S (t_rand t)) Ha) |].
    exact (commitWith_grows rec (set_rand t (S (t_rand t))) _ _ Hrec Ha H).
  - intros H; inversion H; apply grows_refl.
Qed.

Lemma engineCall_grows rec a t r aS aP aT t1 :
  recGrows rec ->
  engineCall t r (fun t err => epilogue RandActionID rec a t err (aS err) (aP err) (aT err))
    = Done t1 ->
  grows t t1.
Proof.
  intros Hrec. unfold engineCall. destruct r as [s | e s | |]; try discriminate;
    intros H; (eapply grows_trans; [apply (grows_set_eng t s) |]);
    exact (epilogue_grows _ _ _ _ _ _ _ _ Hrec H).
Qed.

Lemma applyBody_grows rec t a t1 :
  recGrows rec -> applyBody RandActionID newRand rec t a = Done t1 -> grows t t1.
Proof.
  intros Hrec. unfold applyBody. destruct (aType a).
  - apply epilogue_grows, Hrec.
  - destruct (Seats (t_eng t) !! aPlayerID a); [intros H; inversion H; apply grows_refl |].
    apply (engineCall_grows rec a t _ (fun _ => false) (fun _ => false) (fun _ => false)), Hrec.
  - intros H. eapply grows_trans; [apply grows_set_eng |].
    exact (epilogue_grows _ _ _ _ _ _ _ _ Hrec H).
  - apply (engineCall_grows rec a t _ negb (fun _ => false) negb), Hrec.
  - destruct (CurrentBet (t_eng t) =? 0); [| apply Hrec].
    apply (engineCall_grows rec a t _ (fun _ => false) (fun _ => false) (fun _ => false)), Hrec.
  - apply (engineCall_grows rec a t _ (fun _ => false) (fun _ => false) (fun _ => false)), Hrec.
  - apply (engineCall_grows rec a t _ (fun _ => false) (fun _ => false) (fun _ => false)), Hrec.
  - apply (engineCall_grows rec a t _ (fun _ => false) (fun _ => false) negb), Hrec.
  - apply (engineCall_grows rec a t _ (fun _ => false) (fun _ => false) negb), Hrec.
  - destruct (kickTarget a).
    + intros H. eapply grows_trans; [apply grows_set_eng |].
      exact (epilogue_grows _ _ _ _ _ _ _ _ Hrec H).
    + apply epilogue_grows, Hrec.
  - cbn zeta. destruct (t_authority (set_eng t _)) eqn:Ha; cbn [andb].
    + destruct (Phase _ =? PhaseShowdown).
      * destruct (commitWith rec _ _) as [t2 | |] eqn:E; try discriminate. cbn [andThen].
        intros H. eapply grows_trans; [apply grows_set_eng |].
        eapply grows_trans; [exact (grows_set_rand _ (S (t_rand t)) Ha) |].
        eapply grows_trans;
          [exact (commitWith_grows rec (set_rand _ (S (t_rand t))) _ _ Hrec Ha E) |].
        exact (epilogue_grows _ _ _ _ _ _ _ _ Hrec H).
      * intros H. eapply grows_trans; [apply grows_set_eng |].
        exact (epilogue_grows _ _ _ _ _ _ _ _ Hrec H).
    + intros H. eapply grows_trans; [apply grows_set_eng |].
      exact (epilogue_grows _ _ _ _ _ _ _ _ Hrec H).
  - destruct (ResolveShowdown (t_eng t)) as [[s sum] |]; [| discriminate].
    intros H. eapply grows_trans; [apply grows_set_eng |].
    exact (epilogue_grows _ _ _ _ _ _ _ _ Hrec H).
  - apply epilogue_grows, Hrec.
Qed.

Lemma apply_grows fuel : recGrows (apply RandActionID newRand fuel).
Proof.
  induction fuel as [| fuel IH]; intros t a t1 H; cbn [apply] in H.
  - discriminate.
  - exact (applyBody_grows _ t a t1 IH H).
Qed.

Local Abbreviation onNet' := (onNet RandActionID newRand json_Marshal_engine json_Unmarshal_engine).
Local Abbreviation apply' := (apply RandActionID newRand).

(** ** The replica: the calls of [apply] return *)

Lemma commitWith_returns rec t a :
  (forall t', rec t' a <> Diverged) -> commitWith rec t a <> Diverged.
Proof.
  intros Hrec. unfold commitWith. destruct (bool_decide _); [discriminate |].
  destruct (rec _ a) as [t1 | |] eqn:E; cbn [andThen]; try discriminate.
  exfalso. exact (Hrec _ E).
Qed.

Lemma epilogue_returns rec a t err aS aP aT :
  (aType a <> ActAdvance ->
   forall t' adv, aType adv = ActAdvance -> rec t' adv <> Diverged) ->
  epilogue RandActionID rec a t err aS aP aT <> Diverged.
Proof.
  intros Hrec. unfold epilogue, guardLog. destruct err; [discriminate |].
  destruct (if aS then _ else _); [| discriminate].
  destruct (if aP then _ else _); [| discriminate].
  destruct (if aT then _ else _); [| discriminate].
  destruct (decide (aType a = ActAdvance)) as [Hadv | Hn].
  - rewrite (bool_decide_eq_true_2 _ Hadv). cbn [negb]. rewrite andb_false_r. discriminate.
  - destruct (_ && _); [| discriminate].
    apply commitWith_returns. intros t'. now apply Hrec.
Qed.

Lemma engineCall_returns rec a t r aS aP aT :
  r <> Diverge ->
  (aType a <> ActAdvance ->
   forall t' adv, aType adv = ActAdvance -> rec t' adv <> Diverged) ->
  engineCall t r (fun t err => epilogue RandActionID rec a t err (aS err) (aP err) (aT err))
    <> Diverged.
Proof.
  intros Hr Hrec. unfold engineCall. destruct r; try discriminate; try congruence;
    now apply epilogue_returns.
Qed.

Lemma ResolveShowdown_inactive s s' sum :
  ResolveShowdown s = Some (s', sum) -> HandActive s' = false.
Proof.
  unfold ResolveShowdown. destruct (collectEvals s (Order s)) as [evals |]; [| discriminate].
  cbn [mbind option_bind]. destruct evals as [| e rest].
  - intros H. inversion H. reflexivity.
  - destruct (if 0 <? _ then _ else _) as [s2 |]; [| discriminate].
    cbn [mbind option_bind]. intros H. inversion H. reflexivity.
Qed.

Lemma finish_returns o : finish o <> Diverge.
Proof. destruct o; discriminate. Qed.

Lemma dealHoles_returns order : forall s, dealHoles s order <> Diverge.
Proof.
  induction order as [| pid rest IH]; intros s; cbn [dealHoles]; [discriminate |].
  destruct (Seats s !! pid) as [st |]; [| discriminate].
  destruct (InHand st && negb (Folded st)); [| apply IH].
  destruct (Deck s) as [| c0 [| c1 deck']]; try discriminate. apply IH.
Qed.

Lemma StartHand_returns s r : StartHand s r <> Diverge.
Proof.
  unfold StartHand. destruct (_ <? 2); [discriminate |].
  destruct (_ ≫= _) as [s2 |]; [| discriminate].
  destruct (_ ≫= _) as [s3 |]; [| discriminate].
  apply dealHoles_returns.
Qed.

Lemma Call_returns s p : Call s p <> Diverge.
Proof.
  unfold Call. destruct (Seats s !! p) as [st |]; [| discriminate].
  destruct (ensureTurn s p) as [[|] |]; try discriminate.
  destruct (_ =? 0); [discriminate |].
  destruct (_ <=? 0); [discriminate |].
  destruct (_ <=? Stack st); [apply finish_returns |].
  destruct (_ <=? 0); [discriminate | apply finish_returns].
Qed.

Lemma Check_returns s p : Check s p <> Diverge.
Proof.
  unfold Check. destruct (Seats s !! p) as [st |]; [| discriminate].
  destruct (ensureTurn s p) as [[|] |]; try discriminate.
  destruct (_ =? 0); [apply finish_returns |].
  destruct (negb _); [discriminate | apply finish_returns].
Qed.

Lemma Fold_returns s p : Fold s p <> Diverge.
Proof.
  unfold Fold. destruct (Seats s !! p) as [st |]; [| discriminate].
  destruct (ensureTurn s p) as [[|] |]; try discriminate. apply finish_returns.
Qed.

Lemma Bet_returns s p amt : Bet s p amt <> Diverge.
Proof.
  unfold Bet. destruct (Seats s !! p) as [st |]; [| discriminate].
  destruct (ensureTurn s p) as [[|] |]; try discriminate.
  destruct (0 <? _); [discriminate |].
  destruct (amt <? _); [discriminate |].
  destruct (amt <=? 0); [discriminate |].
  destruct (_ <? amt); [discriminate | apply finish_returns].
Qed.

Lemma Sit_returns s p buyin : Sit s p buyin <> Diverge.
Proof. unfold Sit. destruct (Seats s !! p); discriminate. Qed.

Lemma applyRaise_returns s a : applyRaise s a <> Diverge.
Proof.
  unfold applyRaise. destruct (Seats s !! aPlayerID a) as [st |]; [| discriminate].
  destruct (_ <=? CurrentBet s); [apply Call_returns |].
  destruct (_ <=? 0); [discriminate |].
  destruct (_ <=? 0); [apply Call_returns | apply Raise_returns].
Qed.

(** A showdown schedules nothing: one call of [apply] resolves it. *)
Lemma applyBody_returns_showdown rec t a :
  aType a = ActShowdown -> applyBody RandActionID newRand rec t a <> Diverged.
Proof.
  intros Hty. unfold applyBody. rewrite Hty.
  destruct (ResolveShowdown (t_eng t)) as [[s sum] |] eqn:E; [| discriminate].
  apply ResolveShowdown_inactive in E.
  unfold epilogue, guardLog. cbn [t_eng set_eng t_authority].
  rewrite E, andb_false_r. cbn [andb]. discriminate.
Qed.

(** An advance schedules at most a showdown. *)
Lemma applyBody_returns_advance rec t a :
  aType a = ActAdvance ->
  (forall t' sh, aType sh = ActShowdown -> rec t' sh <> Diverged) ->
  applyBody RandActionID newRand rec t a <> Diverged.
Proof.
  intros Hty Hrec. unfold applyBody. rewrite Hty. cbn zeta.
  assert (Hep : forall t' aS aP aT,
            epilogue RandActionID rec a t' false aS aP aT <> Diverged)
    by (intros; apply epilogue_returns; congruence).
  destruct (_ && _); [| apply Hep].
  destruct (commitWith rec _ _) as [t2 | |] eqn:E; cbn [andThen]; try discriminate.
  - apply Hep.
  - exfalso. revert E. apply commitWith_returns. intros t'. now apply Hrec.
Qed.

(** Any other action but a bet schedules at most an advance. *)
Lemma applyBody_returns_plain rec t a :
  aType a <> ActBet ->
  (forall t' adv, aType adv = ActAdvance -> rec t' adv <> Diverged) ->
  (forall t' sh, aType sh = ActShowdown -> rec t' sh <> Diverged) ->
  applyBody RandActionID newRand rec t a <> Diverged.
Proof.
  intros Hbet Hadv Hsh.
  destruct (decide (aType a = ActAdvance)) as [Ha | Hna];
    [now apply applyBody_returns_advance |].
  destruct (decide (aType a = ActShowdown)) as [Hs | Hns];
    [now apply applyBody_returns_showdown |].
  assert (Hep : forall t' err aS aP aT,
            epilogue RandActionID rec a t' err aS aP aT <> Diverged)
    by (intros; apply epilogue_returns; intros _; exact Hadv).
  assert (Hcall : forall r aS aP aT, r <> Diverge ->
            engineCall t r (fun t err =>
              epilogue RandActionID rec a t err (aS err) (aP err) (aT err)) <> Diverged)
    by (intros; apply engineCall_returns; [assumption | intros _; exact Hadv]).
  unfold applyBody. destruct (aType a); try congruence; try apply Hep.
  - destruct (Seats _ !! _); [discriminate |].
    apply (Hcall _ (fun _ => false) (fun _ => false) (fun _ => false)), Sit_returns.
  - apply (Hcall _ negb (fun _ => false) negb), StartHand_returns.
  - apply (Hcall _ (fun _ => false) (fun _ => false) (fun _ => false)), Call_returns.
  - apply (Hcall _ (fun _ => false) (fun _ => false) (fun _ => false)), applyRaise_returns.
  - apply (Hcall _ (fun _ => false) (fun _ => false) negb), Check_returns.
  - apply (Hcall _ (fun _ => false) (fun _ => false) negb), Fold_returns.
  - destruct (kickTarget a); apply Hep.
Qed.

Lemma apply_returns_showdown n t a :
  aType a = ActShowdown -> apply' (S n) t a <> Diverged.
Proof. intros Hty. cbn [apply]. now apply applyBody_returns_showdown. Qed.

Lemma apply_returns_advance n t a :
  aType a = ActAdvance -> apply' (S (S n)) t a <> Diverged.
Proof.
  intros Hty. cbn [apply]. apply applyBody_returns_advance; [exact Hty |].
  intros t' sh Hsh. now apply (applyBody_returns_showdown _ t' sh).
Qed.

Lemma apply_returns_plain n t a :
  aType a <> ActBet -> apply' (S (S (S n))) t a <> Diverged.
Proof.
  intros Hty. change (apply' (S (S (S n))) t a)
    with (applyBody RandActionID newRand (apply' (S (S n))) t a).
  apply applyBody_returns_plain; [exact Hty | |].
  - intros t' adv Hadv. now apply apply_returns_advance.
  - intros t' sh Hsh. now apply apply_returns_showdown.
Qed.

(** [applyFuel] calls deep, [apply] has returned or panicked. *)
Lemma apply_returns n t a : apply' (applyFuel + n) t a <> Diverged.
Proof.
  change (apply' (applyFuel + n) t a)
    with (applyBody RandActionID newRand (apply' (S (S (S n)))) t a).
  destruct (decide (aType a = ActBet)) as [Hbet | Hn].
  - unfold applyBody. rewrite Hbet.
    destruct (_ =? 0).
    + apply engineCall_returns with (aS := fun _ => false) (aP := fun _ => false)
                                    (aT := fun _ => false); [apply Bet_returns |].
      intros _ t' adv Hadv. now apply apply_returns_advance.
    + apply apply_returns_plain. cbn. discriminate.
  - apply applyBody_returns_plain; [exact Hn | |].
    + intros t' adv Hadv. now apply apply_returns_advance.
    + intros t' sh Hsh. now apply apply_returns_showdown.
Qed.

Lemma onNet_returns now t msg : onNet' now t msg <> Diverged.
Proof.
  assert (Hcb : forall t a, commitAndBroadcast RandActionID newRand t a <> Diverged).
  { intros t0 a. apply commitWith_returns. intros t'. apply (apply_returns 0). }
  unfold onNet. destruct (msgType msg); try discriminate.
  - destruct (negb _); [discriminate |].
    destruct (msgAction msg) as [a |]; [| discriminate].
    destruct (_ && _); [discriminate | apply Hcb].
  - destruct (msgAction msg) as [a |]; [| discriminate].
    destruct (_ <? _); [discriminate |].
    destruct (_ && _); [discriminate |].
    unfold applyCommit. destruct (bool_decide _); [discriminate |].
    destruct (negb _); [discriminate |].
    destruct (apply' applyFuel _ a) as [t1 | |] eqn:E; cbn [andThen]; try discriminate.
    exfalso. exact (apply_returns 0 _ _ E).
  - destruct (msgState msg); [| discriminate]. destruct (_ <? _); discriminate.
  - destruct (t_authority _); discriminate.
  - destruct (_ <? _); discriminate.
Qed.

(** ** The replica: commits in sequence *)

Lemma send_fields t ty sq a st :
  t_seq (send t ty sq a st) = t_seq t /\ t_log (send t ty sq a st) = t_log t /\
  t_dedup (send t ty sq a st) = t_dedup t /\ t_eng (send t ty sq a st) = t_eng t /\
  t_epoch (send t ty sq a st) = t_epoch t /\
  t_authority (send t ty sq a st) = t_authority t /\
  t_authorityID (send t ty sq a st) = t_authorityID t.
Proof. repeat split; reflexivity. Qed.




(** ** The replica: the epoch *)

Local Abbreviation runStep' :=
  (runStep RandActionID newRand json_Marshal_engine json_Unmarshal_engine).

Lemma commitAndBroadcast_epoch t a t' :
  t_authority t = true ->
  commitAndBroadcast RandActionID newRand t a = Done t' -> t_epoch t' = t_epoch t.
Proof.
  intros Ha H.
  destruct (commitWith_grows _ t a t' (apply_grows applyFuel) Ha H)
    as (_ & _ & _ & _ & He & _).
  exact He.
Qed.

Lemma applyCommit_epoch t a sq t' :
  applyCommit RandActionID newRand t a sq = Done t' -> t_epoch t' = t_epoch t.
Proof.
  unfold applyCommit. destruct (bool_decide _); [intros H; now inversion H |].
  destruct (negb _); [intros H; now inversion H |].
  destruct (apply' applyFuel _ a) as [t1 | |] eqn:E; cbn [andThen]; try discriminate.
  intros H. inversion H. cbn [t_epoch set_dedup set_log].
  destruct (apply_grows applyFuel _ _ _ E) as (_ & _ & _ & _ & He & _). exact He.
Qed.

Lemma installSnapshot_epoch t ss :
  t_epoch (installSnapshot json_Unmarshal_engine t ss) = ssEpoch ss.
Proof.
  unfold installSnapshot. destruct (0 <? len (ssEngineJSON ss)); [| reflexivity].
  destruct (json_Unmarshal_engine _); reflexivity.
Qed.

Lemma sendSnapshotTo_epoch t target :
  t_epoch (sendSnapshotTo json_Marshal_engine t target) = t_epoch t.
Proof. unfold sendSnapshotTo. destruct (negb (t_authority t)); reflexivity. Qed.

Lemma sendHeartbeat_epoch t : t_epoch (sendHeartbeat t) = t_epoch t.
Proof. unfold sendHeartbeat. destruct (negb (t_authority t)); reflexivity. Qed.

Lemma tryAuthorityTakeover_epoch now t :
  0 <= t_epoch t < two64 - 1 ->
  t_epoch t <= t_epoch (tryAuthorityTakeover json_Marshal_engine now t).
Proof.
  intros Hr. unfold tryAuthorityTakeover.
  destruct (t_authority t); [lia |].
  destruct (_ <? _); [lia |].
  destruct (negb (isSmallestNodeID t)); [lia |].
  rewrite sendSnapshotTo_epoch, sendHeartbeat_epoch.
  cbn [t_epoch set_authorityID set_epoch set_authority].
  unfold wrapU64. rewrite Z.mod_small by lia. lia.
Qed.

(** C4, amended.  Every step of a replica ends, and one that returns (the
    Go code did not panic inside the engine) leaves the epoch at least what
    it was: handling a propose, a commit, a heartbeat or a state query
    always; handling a snapshot message when its snapshot carries the epoch
    of the message, as every snapshot this code sends does; and the takeover
    as long as the epoch counter is below [2^64 - 1]. *)
Theorem epoch_monotone (t : Table) (st : ReplicaStep) :
  honestStep t st ->
  runStep' t st <> Diverged /\
  forall t', runStep' t st = Done t' -> t_epoch t <= t_epoch t'.
Proof.
  intros Hhon. split.
  { destruct st as [now msg | now |]; cbn [runStep]; try discriminate.
    apply onNet_returns. }
  intros t' Hrun. destruct st as [now msg | now |]; cbn [runStep honestStep] in *.
  - unfold onNet in Hrun. fold (merged t msg) in Hrun.
    change (t_epoch t) with (t_epoch (merged t msg)).
    change (t_epoch (merged t msg)) with (t_epoch t) in Hrun.
    destruct (msgType msg) eqn:Hty.
    + (* propose *)
      destruct (negb (t_authority (merged t msg))) eqn:Ha; [inversion Hrun; reflexivity |].
      destruct (msgAction msg) as [a |]; [| inversion Hrun; reflexivity].
      destruct (isKick a && _); [inversion Hrun; reflexivity |].
      apply negb_false_iff in Ha.
      rewrite (commitAndBroadcast_epoch _ _ _ Ha Hrun). reflexivity.
    + (* commit *)
      destruct (msgAction msg) as [a |]; [| inversion Hrun; reflexivity].
      destruct (msgEpoch msg <? t_epoch t) eqn:He; [inversion Hrun; reflexivity |].
      apply Z.ltb_ge in He.
      destruct (isKick a && _); [inversion Hrun; reflexivity |].
      destruct (applyCommit _ _ _ a _) as [t1 | |] eqn:E; cbn [andThen] in Hrun;
        try discriminate.
      apply applyCommit_epoch in E. cbn [t_epoch merged set_clock] in E.
      inversion Hrun; subst t'. cbn [t_epoch set_lastHeartbeat].
      destruct (t_epoch t1 <? msgEpoch msg) eqn:Elt; cbn [orb].
      * cbn [t_epoch set_authorityID set_epoch merged set_clock]. lia.
      * destruct (String.eqb _ _);
          cbn [t_epoch set_authorityID set_epoch merged set_clock]; lia.
    + (* snapshot *)
      destruct (msgState msg) as [ss |] eqn:Hss; [| inversion Hrun; reflexivity].
      destruct (msgEpoch msg <? t_epoch t) eqn:He; [inversion Hrun; reflexivity |].
      apply Z.ltb_ge in He. inversion Hrun. cbn [t_epoch set_lastHeartbeat].
      rewrite installSnapshot_epoch, (Hhon eq_refl ss eq_refl).
      cbn [t_epoch merged set_clock]. exact He.
    + (* state query *)
      destruct (t_authority (merged t msg)); inversion Hrun;
        [rewrite sendSnapshotTo_epoch |]; reflexivity.
    + (* heartbeat *)
      destruct (msgEpoch msg <? t_epoch t) eqn:He; [inversion Hrun; reflexivity |].
      apply Z.ltb_ge in He. inversion Hrun.
      cbn [t_epoch set_lastHeartbeat set_authorityID set_epoch merged set_clock]. exact He.
    + inversion Hrun. reflexivity.
  - inversion Hrun. apply tryAuthorityTakeover_epoch, Hhon.
  - inversion Hrun. rewrite sendHeartbeat_epoch. reflexivity.
Qed.

End ReplicaFacts.

(** C4, as stated, fails twice.  The follower at epoch 4 accepts the
    snapshot message of epoch 5 and installs the epoch 3 its snapshot
    carries; and the takeover of a follower whose epoch is [2^64 - 1] wraps
    the counter to 0. *)
Lemma epoch_monotone_counterexample :
  (exists t',
     runStep demoIDs demoNewRand noMarshal noUnmarshal demoFollower
       (StepNet 100 demoSnapshotMsg) = Done t' /\
     t_epoch demoFollower = 4 /\ t_epoch t' = 3) /\
  (exists t',
     runStep demoIDs demoNewRand noMarshal noUnmarshal demoLastEpoch
       (StepTakeover (10 * Second)) = Done t' /\
     t_epoch demoLastEpoch = two64 - 1 /\ t_epoch t' = 0 /\ t_authority t' = true).
Proof.
  split.
  - eexists. split; [vm_compute; reflexivity |]. split; reflexivity.
  - eexists. split; [vm_compute; reflexivity |]. repeat split; reflexivity.
Qed.

Lemma epoch_monotone_witness :
  honestStep demoFollower (StepNet 100 (demoCommit 3 demoCallB)) /\
  exists t',
    runStep demoIDs demoNewRand noMarshal noUnmarshal demoFollower
      (StepNet 100 (demoCommit 3 demoCallB)) = Done t' /\
    t_epoch demoFollower <= t_epoch t'.
Proof.
  assert (H : honestStep demoFollower (StepNet 100 (demoCommit 3 demoCallB)))
    by (cbn; intros Hty; discriminate Hty).
  split; [exact H |].
  destruct (runStep demoIDs demoNewRand noMarshal noUnmarshal demoFollower
              (StepNet 100 (demoCommit 3 demoCallB))) as [t' | |] eqn:E;
    [| vm_compute in E; discriminate E | vm_compute in E; discriminate E].
  exists t'. split; [reflexivity |].
  exact (proj2 (epoch_monotone demoIDs demoNewRand noMarshal noUnmarshal _ _ H) t' E).
Defined.


(* ===================================================================== *)
(** * Further properties of the code *)
(* ===================================================================== *)

(** ** Card text: what the parser accepts *)

Ltac unfold_chars :=
  cbv [ch_0 ch_2 ch_3 ch_4 ch_5 ch_6 ch_7 ch_8 ch_9 ch_A ch_J ch_K ch_Q ch_T ch_Z
       ch_a ch_c ch_d ch_h ch_s ch_z
       RankTwo RankThree RankFour RankFive RankSix RankSeven RankEight RankNine
       RankTen RankJack RankQueen RankKing RankAce
       SuitClubs SuitDiamonds SuitHearts SuitSpades] in *.

Lemma charToRank_canonical r k :
  charToRank r = Some k -> 2 <= k <= 14 /\ rankToChar k = Some (toUpper r).
Proof.
  unfold charToRank, toUpper.
  destruct ((ch_a <=? r) && (r <=? ch_z)) eqn:E.
  - apply andb_true_iff in E. destruct E as [E1 E2].
    apply Z.leb_le in E1, E2.
    assert (Hw : wrap8 (r - (ch_a - ch_A)) = r - 32)
      by (unfold wrap8; unfold_chars; rewrite Z.mod_small; lia).
    rewrite Hw.
    repeat match goal with
           | |- context [if ?x =? ?y then _ else _] => destruct (Z.eqb_spec x y)
           end;
      intros Hk; inversion Hk; subst k;
      (split; [unfold_chars; lia |]);
      match goal with e : r - 32 = _ |- _ => rewrite e end; reflexivity.
  - repeat match goal with
           | |- context [if ?x =? ?y then _ else _] => destruct (Z.eqb_spec x y)
           end;
      intros Hk; inversion Hk; subst; (split; [unfold_chars; lia | reflexivity]).
Qed.

Lemma charToSuit_canonical c k :
  charToSuit c = Some k -> 0 <= k <= 3 /\ suitToChar k = Some (toLower c).
Proof.
  unfold charToSuit, toLower.
  destruct ((ch_A <=? c) && (c <=? ch_Z)) eqn:E.
  - apply andb_true_iff in E. destruct E as [E1 E2].
    apply Z.leb_le in E1, E2.
    assert (Hw : wrap8 (c + (ch_a - ch_A)) = c + 32)
      by (unfold wrap8; unfold_chars; rewrite Z.mod_small; lia).
    rewrite Hw.
    repeat match goal with
           | |- context [if ?x =? ?y then _ else _] => destruct (Z.eqb_spec x y)
           end;
      intros Hk; inversion Hk; subst k;
      (split; [unfold_chars; lia |]);
      match goal with e : c + 32 = _ |- _ => rewrite e end; reflexivity.
  - repeat match goal with
           | |- context [if ?x =? ?y then _ else _] => destruct (Z.eqb_spec x y)
           end;
      intros Hk; inversion Hk; subst; (split; [unfold_chars; lia | reflexivity]).
Qed.

(** X1. Whatever the card parser of UnmarshalJSON accepts is a valid card: the
    text, trimmed as strings.TrimSpace trims it (Unicode white space at both
    ends, decoded as UTF-8), has exactly two bytes, the card it yields has a
    rank in 2..14 and a suit in 0..3, and encoding that card gives the same
    two bytes with the rank in upper case and the suit in lower case. So a
    text of another length, or with another rank or suit character, is
    rejected. *)
Theorem parse_accepts_only_cards (s : list Z) (c : Card) :
  parseCardText s = Some c ->
  validCard c /\
  exists r su, TrimSpace s = [r; su] /\ cardText c = Some [toUpper r; toLower su].
Proof.
  unfold parseCardText.
  destruct (TrimSpace s) as [| r [| su [| ? ?]]]; try discriminate.
  destruct (charToRank r) as [k |] eqn:Er; [| discriminate].
  destruct (charToSuit su) as [q |] eqn:Es; [| discriminate].
  intros H. inversion H; subst c.
  destruct (charToRank_canonical _ _ Er) as [Hk Hr].
  destruct (charToSuit_canonical _ _ Es) as [Hq Hs].
  split; [split; assumption |].
  exists r, su. split; [reflexivity |].
  unfold cardText. cbn [Rank Suit]. rewrite Hr, Hs. reflexivity.
Qed.

Lemma parse_accepts_only_cards_witness :
  parseCardText [194; 160; 97; 83; 226; 128; 137; 10] = Some (mkCard 14 3) /\
  TrimSpace [194; 160; 97; 83; 226; 128; 137; 10] = [97; 83] /\
  validCard (mkCard 14 3) /\
  cardText (mkCard 14 3) = Some [65; 115].
Proof.
  assert (H : parseCardText [194; 160; 97; 83; 226; 128; 137; 10] = Some (mkCard 14 3))
    by (vm_compute; reflexivity).
  split; [exact H |].
  destruct (parse_accepts_only_cards _ _ H) as (Hv & r & su & Ht & Hc).
  split; [vm_compute; reflexivity |].
  split; [exact Hv |].
  vm_compute in Ht. inversion Ht; subst r su. exact Hc.
Defined.

Lemma rankToChar_None r : rankToChar r = None <-> ~ (2 <= r <= 14).
Proof.
  unfold rankToChar.
  repeat match goal with
         | |- context [if ?x =? ?y then _ else _] => destruct (Z.eqb_spec x y)
         end; unfold_chars; split; intros H; try discriminate; try lia; try reflexivity.
Qed.

Lemma suitToChar_None r : suitToChar r = None <-> ~ (0 <= r <= 3).
Proof.
  unfold suitToChar.
  repeat match goal with
         | |- context [if ?x =? ?y then _ else _] => destruct (Z.eqb_spec x y)
         end; unfold_chars; split; intros H; try discriminate; try lia; try reflexivity.
Qed.

(** X2. Card.MarshalJSON returns an error exactly when the card is not valid,
    that is when its rank is outside 2..14 or its suit is outside
    clubs..spades (0..3). *)
Theorem MarshalJSON_rejects_invalid (json : list Z -> list Z) (c : Card) :
  MarshalJSON json c = None <-> ~ validCard c.
Proof.
  unfold MarshalJSON, cardText, validCard.
  destruct (rankToChar (Rank c)) as [r |] eqn:Er.
  - destruct (suitToChar (Suit c)) as [s |] eqn:Es; cbn.
    + split; [discriminate |]. intros H. exfalso. apply H. split.
      * destruct (decide (2 <= Rank c <= 14)) as [|n]; [assumption |].
        apply rankToChar_None in n. congruence.
      * destruct (decide (0 <= Suit c <= 3)) as [|n]; [assumption |].
        apply suitToChar_None in n. congruence.
    + split; [| reflexivity]. intros _ [_ H]. apply suitToChar_None in Es. tauto.
  - cbn. split; [| reflexivity]. intros _ [H _]. apply rankToChar_None in Er. tauto.
Qed.


(** ** The deck *)

Lemma swap_perm {A} (l : list A) i j : swap l i j ≡ₚ l.
Proof.
  unfold swap. destruct (l !! i) as [x |] eqn:Ei; [| reflexivity].
  destruct (l !! j) as [y |] eqn:Ej; [| reflexivity].
  exact (Permutation_insert_swap l j i y x Ej Ei).
Qed.

Lemma shuffle_perm r i : forall k deck, shuffle r i k deck ≡ₚ deck.
Proof.
  induction i as [| i IH]; intros k deck; cbn [shuffle]; [reflexivity |].
  rewrite IH. apply swap_perm.
Qed.

(** X3. Whatever the random source returns, NewDeck is a permutation of the 52
    cards listed suit by suit and rank by rank: it has 52 cards, no card
    twice, and holds exactly the valid cards. *)
Theorem NewDeck_is_a_full_deck (r : Rand) :
  NewDeck r ≡ₚ orderedDeck /\
  length (NewDeck r) = 52%nat /\
  NoDup (NewDeck r) /\
  (forall c, c ∈ NewDeck r <-> validCard c).
Proof.
  assert (Hp : NewDeck r ≡ₚ orderedDeck) by apply shuffle_perm.
  split; [exact Hp |].
  split; [rewrite Hp; reflexivity |].
  split.
  - rewrite Hp. apply NoDup_ListNoDup. vm_compute.
    repeat (constructor; [intros H; repeat (destruct H as [H | H]; [discriminate H |]); exact H |]).
    constructor.
  - intros c. rewrite Hp. split.
    + intros H. apply list_elem_of_In in H. vm_compute in H.
      repeat (destruct H as [H | H]; [subst c; vm_compute; intuition discriminate |]).
      destruct H.
    + intros [[H1 H2] [H3 H4]]. destruct c as [rk su]. cbn in *.
      apply list_elem_of_In.
      assert (Hr : rk = 2 \/ rk = 3 \/ rk = 4 \/ rk = 5 \/ rk = 6 \/ rk = 7 \/ rk = 8 \/
                   rk = 9 \/ rk = 10 \/ rk = 11 \/ rk = 12 \/ rk = 13 \/ rk = 14) by lia.
      assert (Hs : su = 0 \/ su = 1 \/ su = 2 \/ su = 3) by lia.
      clear H1 H2 H3 H4.
      repeat (destruct Hr as [Hr | Hr]); repeat (destruct Hs as [Hs | Hs]); subst;
        vm_compute; tauto.
Qed.


(** ** StartHand: the deal *)

Lemma dealHoles_deals order : forall s s',
  dealHoles s order = Ok s' ->
  NoDup order ->
  (forall p, p ∈ order -> Holes s !! p = None) ->
  s' = set_Deck (set_Holes s (Holes s')) (Deck s') /\
  holeCards s' order ++ Deck s' = Deck s /\
  (forall p, p ∉ order -> Holes s' !! p = Holes s !! p) /\
  (forall p st, p ∈ order -> Seats s !! p = Some st -> InHand st && negb (Folded st) = true ->
     exists c0 c1, Holes s' !! p = Some [c0; c1]).
Proof.
  induction order as [| pid rest IH]; intros s s' H Hnd Hno; cbn [dealHoles] in H.
  - inversion H; subst. split; [now destruct s' |]. split; [reflexivity |].
    split; [reflexivity |]. intros p st Hp. now apply not_elem_of_nil in Hp.
  - apply NoDup_cons in Hnd. destruct Hnd as [Hpid Hnd].
    destruct (Seats s !! pid) as [st |] eqn:Est; [| discriminate].
    destruct (InHand st && negb (Folded st)) eqn:Ein.
    + destruct (Deck s) as [| c0 [| c1 deck']] eqn:Ed; try discriminate.
      destruct (IH _ _ H Hnd) as (Hs & Hcards & Hout & Hin).
      { intros p Hp. cbn. rewrite lookup_insert_ne; [apply Hno; now right |].
        intros ->. contradiction. }
      cbn [Holes Deck Seats set_Deck set_Holes] in Hcards, Hout, Hin.
      assert (Hmine : Holes s' !! pid = Some [c0; c1]).
      { rewrite (Hout pid Hpid). apply lookup_insert_eq. }
      split; [exact Hs |].
      split.
      { unfold holeCards in *. cbn [flat_map].
        rewrite Hmine. cbn [default]. rewrite <- app_assoc, Hcards. reflexivity. }
      split.
      { intros p Hp. apply not_elem_of_cons in Hp. destruct Hp as [Hne Hp].
        rewrite (Hout p Hp). now apply lookup_insert_ne. }
      intros p st0 Hp Hst0 Hin0. apply elem_of_cons in Hp. destruct Hp as [-> | Hp].
      * eauto.
      * exact (Hin p st0 Hp Hst0 Hin0).
    + destruct (IH _ _ H Hnd) as (Hs & Hcards & Hout & Hin).
      { intros p Hp. apply Hno. now right. }
      split; [exact Hs |].
      split.
      { unfold holeCards in *. cbn [flat_map].
        rewrite (Hout pid Hpid), (Hno pid) by now left. exact Hcards. }
      split.
      { intros p Hp. apply not_elem_of_cons in Hp. destruct Hp as [Hne Hp]. exact (Hout p Hp). }
      intros p st0 Hp Hst0 Hin0. apply elem_of_cons in Hp. destruct Hp as [-> | Hp].
      * congruence.
      * exact (Hin p st0 Hp Hst0 Hin0).
Qed.

Lemma dealHoles_seated order : forall s s',
  dealHoles s order = Ok s' -> forall p, p ∈ order -> is_Some (Seats s !! p).
Proof.
  induction order as [| pid rest IH]; intros s s' H p Hp; cbn [dealHoles] in H.
  - now apply not_elem_of_nil in Hp.
  - destruct (Seats s !! pid) as [st |] eqn:Est; [| discriminate].
    apply elem_of_cons in Hp. destruct Hp as [-> | Hp]; [eauto |].
    destruct (InHand st && negb (Folded st)).
    + destruct (Deck s) as [| c0 [| c1 deck']]; try discriminate.
      exact (IH _ _ H p Hp).
    + exact (IH _ _ H p Hp).
Qed.

Lemma postBlind_inPlay s p amt s' :
  postBlind s p amt = Some s' ->
  Order s' = Order s /\ Holes s' = Holes s /\
  (map_Forall (fun _ st => inPlay st) (Seats s) ->
   map_Forall (fun _ st => inPlay st) (Seats s')).
Proof.
  unfold postBlind. destruct (Seats s !! p) as [seat |] eqn:E; [| discriminate].
  cbn [mbind option_bind].
  destruct (Stack seat <=? 0); intros H; inversion H; subst s'; clear H;
    (split; [reflexivity |]); (split; [reflexivity |]); intros Hall;
    cbn [Seats putSeat set_Seats set_Pot]; apply map_Forall_insert_2; try exact Hall;
    specialize (Hall p seat E); destruct Hall as [H1 H2]; split.
  - exact H1.
  - exact H2.
  - destruct (Stack seat <? amt); exact H1.
  - destruct (Stack seat <? amt); exact H2.
Qed.

Lemma cards_fields s s' h d :
  s' = set_Deck (set_Holes s h) d ->
  Order s' = Order s /\ Board s' = Board s /\ Seats s' = Seats s.
Proof. intros ->. repeat split; reflexivity. Qed.

(** X4. When StartHand succeeds on a table whose Order has no duplicate, the
    deal takes the hole cards off the top of the freshly shuffled deck and
    loses none: the hole cards in seat order followed by the remaining deck
    are the deck NewDeck produced, every player of Order holds exactly two
    cards, nobody else holds any, the board is empty and Order is unchanged. *)
Theorem StartHand_deals (s : State) (r : Rand) (s' : State) :
  StartHand s r = Ok s' ->
  NoDup (Order s) ->
  Order s' = Order s /\ Board s' = [] /\
  holeCards s' (Order s) ++ Deck s' = NewDeck r /\
  (forall p, p ∈ Order s -> exists c0 c1, Holes s' !! p = Some [c0; c1]) /\
  (forall p, p ∉ Order s -> Holes s' !! p = None).
Proof.
  unfold StartHand. generalize (NewDeck r). intros deck.
  destruct (len (Order s) <? 2); [discriminate |]. cbv zeta.
  match goal with
  | |- match ?m with _ => _ end = _ -> _ => destruct m as [s2 |] eqn:E2
  end; [| discriminate].
  match goal with
  | |- match ?m with _ => _ end = _ -> _ => destruct m as [s3 |] eqn:E3
  end; [| discriminate].
  intros H Hnd.
  apply bind_Some in E2. destruct E2 as (p2 & _ & E2).
  apply bind_Some in E3. destruct E3 as (p3 & _ & E3).
  apply postBlind_inPlay in E2. destruct E2 as (Ho2 & _ & Hin2).
  apply postBlind_inPlay in E3. destruct E3 as (Ho3 & _ & Hin3).
  cbn [Order Seats set_DealerIdx set_HandActive set_Seats set_Pot] in Ho2, Hin2.
  assert (Hall : map_Forall (fun _ st => inPlay st) (Seats s3)).
  { apply Hin3, Hin2. apply map_Forall_fmap. intros k st _. split; reflexivity. }
  assert (Ho : Order s3 = Order s) by congruence.
  cbn [Order set_Holes set_Board set_Deck set_ActorsToAct set_LastRaiseSize set_CurrentBet
       set_Phase set_TurnIdx] in H.
  rewrite Ho in H.
  pose proof (dealHoles_seated _ _ _ H) as Hseat.
  destruct (dealHoles_deals _ _ _ H Hnd) as (Hs & Hcards & Hout & Hin).
  { intros p _. apply lookup_empty. }
  cbn [Holes Deck Seats set_Holes set_Board set_Deck set_ActorsToAct set_LastRaiseSize
       set_CurrentBet set_Phase set_TurnIdx] in Hcards, Hout, Hin, Hseat.
  destruct (cards_fields _ _ _ _ Hs) as (HO & HB & _).
  split; [exact (eq_trans HO Ho) |].
  split; [exact HB |].
  split; [exact Hcards |].
  split.
  - intros p Hp. destruct (Hseat p Hp) as [st Hst].
    apply (Hin p st Hp Hst). destruct (Hall p st Hst) as [-> ->]. reflexivity.
  - intros p Hp. rewrite (Hout p Hp). apply lookup_empty.
Qed.


Lemma StartHand_deals_witness :
  StartHand demoSeated demoRand = Ok demoStart /\
  NoDup (Order demoSeated) /\
  holeCards demoStart (Order demoSeated) ++ Deck demoStart = NewDeck demoRand /\
  Board demoStart = [].
Proof.
  assert (H1 : StartHand demoSeated demoRand = Ok demoStart) by (vm_compute; reflexivity).
  assert (H2 : NoDup (Order demoSeated))
    by (apply (bool_decide_unpack _); vm_compute; reflexivity).
  repeat (split; [assumption |]).
  destruct (StartHand_deals _ _ _ H1 H2) as (_ & Hb & Hd & _).
  split; [exact Hd | exact Hb].
Defined.

(** ** StartHand: the blinds *)

Lemma dealHoles_fields order : forall s s',
  dealHoles s order = Ok s' -> s' = set_Deck (set_Holes s (Holes s')) (Deck s').
Proof.
  induction order as [| pid rest IH]; intros s s' H; cbn [dealHoles] in H.
  - inversion H; subst. now destruct s'.
  - destruct (Seats s !! pid) as [st |]; [| discriminate].
    destruct (InHand st && negb (Folded st)); [| exact (IH _ _ H)].
    destruct (Deck s) as [| c0 [| c1 deck']]; try discriminate.
    exact (IH _ _ H).
Qed.

Lemma postBlind_frame s p amt s' :
  postBlind s p amt = Some s' -> s' = set_Pot (set_Seats s (Seats s')) (Pot s').
Proof.
  unfold postBlind. destruct (Seats s !! p) as [seat |]; [| discriminate].
  cbn [mbind option_bind]. destruct (Stack seat <=? 0); intros H; inversion H; reflexivity.
Qed.

Lemma pot_fields s s' m q :
  s' = set_Pot (set_Seats s m) q ->
  Order s' = Order s /\ BigBlind s' = BigBlind s /\ SmallBlind s' = SmallBlind s /\
  DealerIdx s' = DealerIdx s /\ HandActive s' = HandActive s /\ Holes s' = Holes s.
Proof. intros ->. repeat split; reflexivity. Qed.

Lemma cards_frame s s' h d :
  s' = set_Deck (set_Holes s h) d ->
  Order s' = Order s /\ Board s' = Board s /\ Seats s' = Seats s /\ Pot s' = Pot s /\
  DealerIdx s' = DealerIdx s /\ TurnIdx s' = TurnIdx s /\ Phase s' = Phase s /\
  CurrentBet s' = CurrentBet s /\ LastRaiseSize s' = LastRaiseSize s /\
  ActorsToAct s' = ActorsToAct s /\ HandActive s' = HandActive s /\
  SmallBlind s' = SmallBlind s /\ BigBlind s' = BigBlind s.
Proof. intros ->. repeat split; reflexivity. Qed.

(** What [StartHand] went through when it returned without an error: the
    dealer button moved one seat, the two seats after it posted the blinds,
    and the round opened at the big blind. *)
Lemma StartHand_Ok_inv s r s' :
  StartHand s r = Ok s' ->
  let n := len (Order s) in
  let d := rem64 (add64 (DealerIdx s) 1) n in
  let s1 := set_DealerIdx
              (set_HandActive (set_Seats (set_Pot s 0) (resetSeatForHand <$> Seats s)) true) d in
  exists psb pbb s2 s3,
    2 <= n /\
    index (Order s) (rem64 (add64 d 1) n) = Some psb /\
    postBlind s1 psb (SmallBlind s) = Some s2 /\
    index (Order s) (rem64 (add64 d 2) n) = Some pbb /\
    postBlind s2 pbb (BigBlind s) = Some s3 /\
    Seats s' = Seats s3 /\ Pot s' = Pot s3 /\ Order s' = Order s /\
    SmallBlind s' = SmallBlind s /\ BigBlind s' = BigBlind s /\
    DealerIdx s' = d /\ TurnIdx s' = rem64 (add64 (rem64 (add64 d 2) n) 1) n /\
    Phase s' = PhasePreflop /\ HandActive s' = true /\ Board s' = [] /\
    CurrentBet s' = BigBlind s /\ LastRaiseSize s' = BigBlind s.
Proof.
  unfold StartHand. generalize (NewDeck r). intros deck.
  destruct (len (Order s) <? 2) eqn:En; [discriminate |]. apply Z.ltb_ge in En.
  cbv zeta.
  match goal with
  | |- match ?m with _ => _ end = _ -> _ => destruct m as [s2 |] eqn:E2
  end; [| discriminate].
  match goal with
  | |- match ?m with _ => _ end = _ -> _ => destruct m as [s3 |] eqn:E3
  end; [| discriminate].
  intros H.
  apply bind_Some in E2. destruct E2 as (psb & Hsb & E2).
  apply bind_Some in E3. destruct E3 as (pbb & Hbb & E3).
  exists psb, pbb, s2, s3.
  destruct (pot_fields _ _ _ _ (postBlind_frame _ _ _ _ E2)) as (Ho2 & Hb2 & Hs2 & Hd2 & Ha2 & _).
  destruct (pot_fields _ _ _ _ (postBlind_frame _ _ _ _ E3)) as (Ho3 & Hb3 & Hs3 & Hd3 & Ha3 & _).
  cbn [Order BigBlind SmallBlind DealerIdx HandActive set_DealerIdx set_HandActive set_Seats
       set_Pot] in Ho2, Hb2, Hs2, Hd2, Ha2.
  destruct (cards_frame _ _ _ _ (dealHoles_fields _ _ _ H))
    as (HO & HB & HS & HP & HD & HT & HPh & HC & HL & _ & HA & HSb & HBb).
  split; [exact En |].
  split; [exact Hsb |].
  split; [exact E2 |].
  split; [rewrite <- Hbb, Ho2; reflexivity |].
  split; [rewrite <- E3, Hb2; reflexivity |].
  split; [exact HS |]. split; [exact HP |].
  split; [rewrite HO; cbn [Order set_Holes set_Board set_Deck set_ActorsToAct
            set_LastRaiseSize set_CurrentBet set_Phase set_TurnIdx]; congruence |].
  split; [rewrite HSb; cbn [SmallBlind set_Holes set_Board set_Deck set_ActorsToAct
            set_LastRaiseSize set_CurrentBet set_Phase set_TurnIdx]; congruence |].
  split; [rewrite HBb; cbn [BigBlind set_Holes set_Board set_Deck set_ActorsToAct
            set_LastRaiseSize set_CurrentBet set_Phase set_TurnIdx]; congruence |].
  split; [rewrite HD; cbn [DealerIdx set_Holes set_Board set_Deck set_ActorsToAct
            set_LastRaiseSize set_CurrentBet set_Phase set_TurnIdx]; congruence |].
  split; [rewrite HT; cbn [TurnIdx set_Holes set_Board set_Deck set_ActorsToAct
            set_LastRaiseSize set_CurrentBet set_Phase set_TurnIdx]; reflexivity |].
  split; [exact HPh |].
  split; [rewrite HA; cbn [HandActive set_Holes set_Board set_Deck set_ActorsToAct
            set_LastRaiseSize set_CurrentBet set_Phase set_TurnIdx]; congruence |].
  split; [exact HB |].
  split; [rewrite HC | rewrite HL];
    cbn [CurrentBet LastRaiseSize BigBlind set_Holes set_Board set_Deck set_ActorsToAct
         set_LastRaiseSize set_CurrentBet set_Phase set_TurnIdx]; congruence.
Qed.


Lemma postBlind_pays s p amt seat s' :
  postBlind s p amt = Some s' ->
  Seats s !! p = Some (resetSeatForHand seat) ->
  0 <= Stack seat <= MaxInt64 -> 0 < amt ->
  0 <= Pot s -> Pot s + amt <= MaxInt64 ->
  Seats s' = <[p := blindSeat seat amt]> (Seats s) /\
  Pot s' = Pot s + Z.min (Stack seat) amt.
Proof.
  unfold postBlind. intros H Hs Hst Hamt Hp0 Hp1. rewrite Hs in H.
  destruct seat as [pl stk cm ih ai fo].
  cbv [mbind option_bind blindSeat resetSeatForHand set_AllIn set_Folded set_InHand
       set_Committed set_Stack Stack Committed Player InHand AllIn Folded] in *.
  unfold sub64, add64 in H.
  destruct (stk <=? 0) eqn:E0.
  - apply Z.leb_le in E0. assert (E : stk = 0) by lia. subst stk.
    inversion H; subst s'. cbn [Seats Pot putSeat set_Seats].
    rewrite Z.min_l by lia. rewrite bool_decide_eq_true_2 by lia.
    split; [reflexivity | lia].
  - apply Z.leb_gt in E0.
    destruct (stk <? amt) eqn:E1.
    + apply Z.ltb_lt in E1.
      rewrite !wrap64_id in H by (unfold MinInt64, MaxInt64 in *; lia).
      inversion H; subst s'. cbn [Seats Pot putSeat set_Seats set_Pot].
      rewrite Z.min_l by lia. rewrite bool_decide_eq_true_2 by lia.
      split; reflexivity.
    + apply Z.ltb_ge in E1.
      rewrite !wrap64_id in H by (unfold MinInt64, MaxInt64 in *; lia).
      inversion H; subst s'. cbn [Seats Pot putSeat set_Seats set_Pot].
      rewrite Z.min_r by lia. rewrite bool_decide_eq_false_2 by lia.
      split; reflexivity.
Qed.

Lemma mod_succ_ne a n : 2 <= n -> (a + 1) mod n <> (a + 2) mod n.
Proof.
  intros Hn Heq.
  assert (H1 : ((a + 2) - (a + 1)) mod n = 1) by (replace (a + 2 - (a + 1)) with 1 by lia;
                                                  apply Z.mod_small; lia).
  rewrite Zminus_mod, <- Heq, Z.sub_diag, Z.mod_0_l in H1 by lia. lia.
Qed.

(** X5. When StartHand succeeds (Order without duplicates and of a length Go
    can hold, dealer index inside Order, the two blind seats with stacks that
    are non-negative int64 values, positive blinds whose sum fits an int64),
    the dealer index moves one seat on, the next two seats are different
    players and post the small and the big blind, each paying min(stack,
    blind); a stack below its blind is marked all-in (a stack equal to it is
    not); every other seat is reset for the hand; the pot is the sum of the
    two payments, CurrentBet and LastRaiseSize are the big blind, the phase is
    preflop, the hand is active, and the turn is the seat after the big blind. *)
Theorem StartHand_posts_blinds (s : State) (r : Rand) (s' : State)
    (psb pbb : string) (stS stB : Seat) :
  let n := len (Order s) in
  let d := (DealerIdx s + 1) mod n in
  StartHand s r = Ok s' ->
  NoDup (Order s) -> 2 * n <= MaxInt64 -> 0 <= DealerIdx s < n ->
  index (Order s) ((d + 1) mod n) = Some psb ->
  index (Order s) ((d + 2) mod n) = Some pbb ->
  Seats s !! psb = Some stS -> Seats s !! pbb = Some stB ->
  0 <= Stack stS <= MaxInt64 -> 0 <= Stack stB <= MaxInt64 ->
  0 < SmallBlind s -> 0 < BigBlind s -> SmallBlind s + BigBlind s <= MaxInt64 ->
  psb <> pbb /\
  DealerIdx s' = d /\ TurnIdx s' = (d + 3) mod n /\
  Seats s' = <[pbb := blindSeat stB (BigBlind s)]>
               (<[psb := blindSeat stS (SmallBlind s)]> (resetSeatForHand <$> Seats s)) /\
  Pot s' = Z.min (Stack stS) (SmallBlind s) + Z.min (Stack stB) (BigBlind s) /\
  CurrentBet s' = BigBlind s /\ LastRaiseSize s' = BigBlind s /\
  Phase s' = PhasePreflop /\ HandActive s' = true.
Proof.
  intros n d H Hnd Hn Hd Hisb Hibb HstS HstB HrS HrB Hsb Hbb Hsum.
  destruct (StartHand_Ok_inv s r s' H)
    as (psb' & pbb' & s2 & s3 & Hn2 & Hsb' & E2 & Hbb' & E3 & HS & HP & HO & _ & _ &
        HD & HT & HPh & HA & _ & HC & HL).
  fold n in Hn2, Hsb', Hbb', HD, HT, E2.
  assert (Hd1 : rem64 (add64 (DealerIdx s) 1) n = d /\ 0 <= d < n)
    by (apply next_index; assumption).
  destruct Hd1 as [Hd1 Hdr]. rewrite Hd1 in *.
  assert (Hd2 : rem64 (add64 d 1) n = (d + 1) mod n /\ 0 <= (d + 1) mod n < n)
    by (apply next_index; assumption).
  destruct Hd2 as [Hd2 Hd2r]. rewrite Hd2 in *.
  assert (Hd3 : rem64 (add64 d 2) n = (d + 2) mod n /\ 0 <= (d + 2) mod n < n).
  { unfold rem64, add64.
    rewrite wrap64_id by (unfold MinInt64, MaxInt64 in *; lia).
    rewrite Z.rem_mod_nonneg by lia. split; [reflexivity | apply Z.mod_pos_bound; lia]. }
  destruct Hd3 as [Hd3 Hd3r]. rewrite Hd3 in *.
  assert (Hd4 : rem64 (add64 ((d + 2) mod n) 1) n = (d + 3) mod n).
  { destruct (next_index ((d + 2) mod n) n Hd3r Hn) as [-> _].
    rewrite Z.add_mod_idemp_l by lia. f_equal. lia. }
  rewrite Hd4 in HT.
  assert (psb' = psb) by congruence. assert (pbb' = pbb) by congruence. subst psb' pbb'.
  assert (Hne : psb <> pbb).
  { intros ->. apply index_Some in Hisb as [_ H1]. apply index_Some in Hibb as [_ H2].
    pose proof (NoDup_lookup _ _ _ _ Hnd H1 H2) as Heq.
    apply (mod_succ_ne d n Hn2). lia. }
  destruct (postBlind_pays _ _ _ stS _ E2) as [Hs2 Hp2]; try assumption.
  { cbn [Seats set_DealerIdx set_HandActive set_Seats]. rewrite lookup_fmap, HstS. reflexivity. }
  { cbn. lia. }
  { cbn. lia. }
  cbn [Seats Pot set_DealerIdx set_HandActive set_Seats set_Pot] in Hs2, Hp2.
  destruct (postBlind_pays _ _ _ stB _ E3) as [Hs3 Hp3]; try assumption.
  { rewrite Hs2, lookup_insert_ne by exact Hne. rewrite lookup_fmap, HstB. reflexivity. }
  { rewrite Hp2. lia. }
  { rewrite Hp2. lia. }
  split; [exact Hne |].
  split; [exact HD |]. split; [exact HT |].
  split; [rewrite HS, Hs3, Hs2; reflexivity |].
  split; [rewrite HP, Hp3, Hp2; lia |].
  repeat split; assumption.
Qed.


Lemma StartHand_posts_blinds_witness :
  StartHand demoSeated demoRand = Ok demoStart /\
  index (Order demoSeated) 2 = Some "c"%string /\
  index (Order demoSeated) 0 = Some "a"%string /\
  Seats demoSeated !! "c"%string = Some (mkSeat "c" 1000 0 false false false) /\
  Seats demoSeated !! "a"%string = Some (mkSeat "a" 1000 0 false false false) /\
  DealerIdx demoStart = 1 /\ TurnIdx demoStart = 1 /\ Pot demoStart = 15 /\
  CurrentBet demoStart = 10.
Proof.
  assert (H1 : StartHand demoSeated demoRand = Ok demoStart) by (vm_compute; reflexivity).
  assert (H2 : index (Order demoSeated) 2 = Some "c"%string) by (vm_compute; reflexivity).
  assert (H3 : index (Order demoSeated) 0 = Some "a"%string) by (vm_compute; reflexivity).
  assert (H4 : Seats demoSeated !! "c"%string = Some (mkSeat "c" 1000 0 false false false))
    by (vm_compute; reflexivity).
  assert (H5 : Seats demoSeated !! "a"%string = Some (mkSeat "a" 1000 0 false false false))
    by (vm_compute; reflexivity).
  repeat (split; [assumption |]).
  destruct (StartHand_posts_blinds demoSeated demoRand demoStart "c" "a" _ _ H1
              ltac:(apply (bool_decide_unpack _); vm_compute; reflexivity)
              ltac:(vm_compute; discriminate)
              ltac:(vm_compute; split; [discriminate | reflexivity])
              H2 H3 H4 H5
              ltac:(vm_compute; split; discriminate)
              ltac:(vm_compute; split; discriminate)
              ltac:(vm_compute; reflexivity)
              ltac:(vm_compute; reflexivity)
              ltac:(vm_compute; discriminate))
    as (_ & Hd & Ht & _ & Hp & Hc & _).
  split; [rewrite Hd; reflexivity |].
  split; [rewrite Ht; reflexivity |].
  split; [rewrite Hp; reflexivity | rewrite Hc; reflexivity].
Defined.

(** ** Seating: Sit and Leave *)

Lemma ascii_compare_trans a b c :
  Ascii.compare a b = Lt -> Ascii.compare b c = Lt -> Ascii.compare a c = Lt.
Proof.
  unfold Ascii.compare. rewrite !N.compare_lt_iff. lia.
Qed.

Lemma string_compare_trans a : forall b c,
  String.compare a b = Lt -> String.compare b c = Lt -> String.compare a c = Lt.
Proof.
  induction a as [| x a IH]; intros [| y b] [| z c]; cbn [String.compare]; try discriminate;
    try reflexivity.
  destruct (Ascii.compare x y) eqn:Exy; try discriminate.
  - apply Ascii.compare_eq_iff in Exy. subst y.
    destruct (Ascii.compare x z) eqn:Exz; try discriminate; [apply IH | reflexivity].
  - intros _. destruct (Ascii.compare y z) eqn:Eyz; try discriminate.
    + apply Ascii.compare_eq_iff in Eyz. subst z. now rewrite Exy.
    + intros _. now rewrite (ascii_compare_trans x y z Exy Eyz).
Qed.

Lemma ltb_asym a b : String.ltb a b = true -> String.ltb b a = false.
Proof.
  unfold String.ltb. rewrite (String.compare_antisym b a).
  destruct (String.compare a b); cbn; congruence.
Qed.

Lemma ltb_irrefl a : String.ltb a a = false.
Proof. destruct (String.ltb a a) eqn:E; [| reflexivity]. now rewrite (ltb_asym a a E) in E. Qed.

Lemma ltb_trans a b c :
  String.ltb a b = true -> String.ltb b c = true -> String.ltb a c = true.
Proof.
  unfold String.ltb.
  destruct (String.compare a b) eqn:E1; try discriminate.
  destruct (String.compare b c) eqn:E2; try discriminate.
  now rewrite (string_compare_trans a b c E1 E2).
Qed.

Lemma ltb_total a b : String.ltb a b = false -> String.ltb b a = false -> a = b.
Proof.
  unfold String.ltb. rewrite (String.compare_antisym b a).
  destruct (String.compare a b) eqn:E; cbn; try discriminate.
  intros _ _. now apply String.compare_eq_iff.
Qed.

(** [b] may follow [a] and [c] may follow [b]: [c] may follow [a]. *)
Lemma geb_trans a b c :
  String.ltb b a = false -> String.ltb c b = false -> String.ltb c a = false.
Proof.
  intros Hab Hbc. destruct (String.ltb c a) eqn:Hca; [| reflexivity].
  destruct (String.ltb a b) eqn:E.
  - now rewrite (ltb_trans c a b Hca E) in Hbc.
  - rewrite (ltb_total a b E Hab) in Hca. congruence.
Qed.

Lemma ascending_cons a l :
  ascending (a :: l) = true <->
  ascending l = true /\ forall b, b ∈ l -> String.ltb b a = false.
Proof.
  revert a. induction l as [| b l IH]; intros a.
  - cbn. split; [intros _; split; [reflexivity |]; intros b Hb; now apply not_elem_of_nil in Hb
                | reflexivity].
  - change (ascending (a :: b :: l)) with (negb (String.ltb b a) && ascending (b :: l)).
    rewrite andb_true_iff, negb_true_iff. split.
    + intros [Hab Hl]. split; [exact Hl |].
      intros c Hc. apply elem_of_cons in Hc. destruct Hc as [-> | Hc]; [exact Hab |].
      apply (geb_trans a b c Hab). apply IH in Hl. now apply Hl.
    + intros [Hl Hall]. split; [apply Hall; now left | exact Hl].
Qed.

Lemma insertBy_ascending x l :
  ascending l = true -> ascending (insertBy String.ltb x l) = true.
Proof.
  induction l as [| y l IH]; intros Hl; [reflexivity |].
  cbn [insertBy]. destruct (String.ltb y x) eqn:E.
  - apply ascending_cons. apply ascending_cons in Hl. destruct Hl as [Hl Hall].
    split; [now apply IH |].
    intros b Hb. rewrite insertBy_perm in Hb. apply elem_of_cons in Hb.
    destruct Hb as [-> | Hb]; [now apply ltb_asym | now apply Hall].
  - change (negb (String.ltb y x) && ascending (y :: l) = true). now rewrite E, Hl.
Qed.

Lemma sortBy_ascending l : ascending (sortBy String.ltb l) = true.
Proof.
  unfold sortBy. induction l as [| x l IH]; [reflexivity |].
  cbn [foldr]. now apply insertBy_ascending.
Qed.

Lemma filter_ascending (P : string -> bool) l :
  ascending l = true -> ascending (List.filter P l) = true.
Proof.
  induction l as [| a l IH]; [reflexivity |].
  intros H. apply ascending_cons in H. destruct H as [Hl Hall].
  cbn [List.filter]. destruct (P a); [| now apply IH].
  apply ascending_cons. split; [now apply IH |].
  intros b Hb. apply list_elem_of_In, filter_In in Hb. destruct Hb as [Hb _].
  apply Hall. now apply list_elem_of_In.
Qed.

(** An ascending list without duplicates is determined by its elements. *)
Lemma ascending_unique l : forall l',
  ascending l = true -> ascending l' = true -> NoDup l -> NoDup l' ->
  l ≡ₚ l' -> l = l'.
Proof.
  induction l as [| a l IH]; intros l' Hl Hl' Hnd Hnd' Hp.
  - apply Permutation_nil_l in Hp. now subst.
  - destruct l' as [| a' l']; [now apply Permutation_nil_r in Hp |].
    apply ascending_cons in Hl. destruct Hl as [Hl Hall].
    apply ascending_cons in Hl'. destruct Hl' as [Hl' Hall'].
    apply NoDup_cons in Hnd. destruct Hnd as [Ha Hnd].
    apply NoDup_cons in Hnd'. destruct Hnd' as [Ha' Hnd'].
    assert (a = a').
    { assert (H1 : a ∈ a' :: l') by (rewrite <- Hp; now left).
      assert (H2 : a' ∈ a :: l) by (rewrite Hp; now left).
      apply elem_of_cons in H1. destruct H1 as [-> | H1]; [reflexivity |].
      apply elem_of_cons in H2. destruct H2 as [-> | H2]; [reflexivity |].
      apply ltb_total; [apply Hall'; exact H1 | apply Hall; exact H2]. }
    subst a'. f_equal. apply IH; try assumption.
    now apply Permutation_cons_inv in Hp.
Qed.


Lemma seatingOk_ext s s' :
  Order s' = Order s ->
  (forall q, is_Some (Seats s' !! q) <-> is_Some (Seats s !! q)) ->
  seatingOk s -> seatingOk s'.
Proof.
  intros HO HS (Hnd & Hasc & Hdom). unfold seatingOk. rewrite HO.
  split; [exact Hnd |]. split; [exact Hasc |].
  intros p. rewrite HS. apply Hdom.
Qed.

Lemma Sit_new (s : State) (p : string) (buyin : Z) :
  Seats s !! p = None ->
  exists s',
    Sit s p buyin = Ok s' /\
    s' = set_Order (set_Seats s (Seats s')) (Order s') /\
    Seats s' = <[p := mkSeat p buyin 0 false false false]> (Seats s) /\
    Order s' = sortBy String.ltb (Order s ++ [p]).
Proof.
  intros Hp. unfold Sit. rewrite Hp. eexists. split; [reflexivity |].
  repeat split; reflexivity.
Qed.

Lemma seatingOk_seat (s s' : State) (p : string) (st : Seat) :
  seatingOk s -> Seats s !! p = None ->
  Seats s' = <[p := st]> (Seats s) ->
  Order s' = sortBy String.ltb (Order s ++ [p]) ->
  Order s' ≡ₚ p :: Order s /\ seatingOk s'.
Proof.
  intros (Hnd & Hasc & Hdom) Hp HS HO.
  assert (Hperm : Order s' ≡ₚ p :: Order s).
  { rewrite HO, sortBy_perm. symmetry. apply Permutation_cons_append. }
  split; [exact Hperm |].
  unfold seatingOk. split; [| split].
  - rewrite Hperm. apply NoDup_cons. split; [| exact Hnd].
    rewrite Hdom, Hp. intros [x Hx]. discriminate.
  - rewrite HO. apply sortBy_ascending.
  - intros q. rewrite Hperm, HS, elem_of_cons, lookup_insert_is_Some, Hdom.
    destruct (decide (p = q)) as [-> | Hne]; [tauto |].
    split; [intros [-> | H]; [contradiction | auto] | intros [-> | [_ H]]; auto].
Qed.

Lemma Leave_fields (s : State) (p : string) :
  Order (Leave s p) = List.filter (fun id => negb (String.eqb id p)) (Order s) /\
  Seats (Leave s p) = delete p (Seats s) /\
  Holes (Leave s p) = delete p (Holes s).
Proof.
  unfold Leave. cbn [Order TurnIdx set_Order set_Holes set_Seats].
  destruct (len _ <=? TurnIdx s); repeat split; reflexivity.
Qed.

Lemma Leave_in (s : State) (p q : string) :
  q ∈ Order (Leave s p) <-> q <> p /\ q ∈ Order s.
Proof.
  destruct (Leave_fields s p) as (-> & _).
  rewrite !list_elem_of_In, filter_In, negb_true_iff, String.eqb_neq. tauto.
Qed.

Lemma seatingOk_Leave (s : State) (p : string) : seatingOk s -> seatingOk (Leave s p).
Proof.
  intros (Hnd & Hasc & Hdom). unfold seatingOk. split; [| split].
  - destruct (Leave_fields s p) as (-> & _).
    apply NoDup_ListNoDup, List.NoDup_filter, NoDup_ListNoDup, Hnd.
  - destruct (Leave_fields s p) as (-> & _). apply filter_ascending, Hasc.
  - intros q. rewrite Leave_in. destruct (Leave_fields s p) as (_ & -> & _).
    rewrite Hdom, lookup_delete_is_Some. split; intros [H1 H2]; split; auto.
Qed.

Lemma seatingOk_NewState sb bb : seatingOk (NewState sb bb).
Proof.
  split; [apply NoDup_nil_2 |]. split; [reflexivity |].
  intros p. cbn. rewrite lookup_empty. split; [intros H; now apply not_elem_of_nil in H |].
  intros [x Hx]. discriminate.
Qed.

Lemma seatingOk_Sit s p buyin : seatingOk s -> seatingOk (stateOf (Sit s p buyin)).
Proof.
  intros Hok. destruct (Seats s !! p) as [st |] eqn:Hp.
  - unfold Sit. rewrite Hp. exact Hok.
  - destruct (Sit_new s p buyin Hp) as (s1 & -> & _ & HS & HO).
    exact (proj2 (seatingOk_seat s s1 p _ Hok Hp HS HO)).
Qed.

Lemma demoSeated_seatingOk : seatingOk demoSeated.
Proof. unfold demoSeated. repeat apply seatingOk_Sit. apply seatingOk_NewState. Qed.

(** X6. On a table whose Order lists exactly the seated players, once each and
    in ascending order of id: Sit for a seated player fails with
    ErrAlreadySeated and changes nothing; Sit for a new player succeeds, adds
    a seat holding the buy-in as stack with nothing committed, changes only
    Seats and Order, and Order is again the list of the seated players, once
    each, in ascending order. *)
Theorem Sit_seats_in_order (s : State) (p : string) (buyin : Z) :
  seatingOk s ->
  (forall st, Seats s !! p = Some st -> Sit s p buyin = Fail ErrAlreadySeated s) /\
  (Seats s !! p = None ->
   exists s',
     Sit s p buyin = Ok s' /\
     s' = set_Order (set_Seats s (Seats s')) (Order s') /\
     Seats s' = <[p := mkSeat p buyin 0 false false false]> (Seats s) /\
     Order s' ≡ₚ p :: Order s /\
     seatingOk s').
Proof.
  intros Hok. split.
  - intros st Hst. unfold Sit. rewrite Hst. reflexivity.
  - intros Hp. destruct (Sit_new s p buyin Hp) as (s' & Hsit & Hshape & HS & HO).
    destruct (seatingOk_seat s s' p _ Hok Hp HS HO) as [Hperm Hok'].
    exists s'. split; [exact Hsit |]. split; [exact Hshape |].
    split; [exact HS |]. split; [exact Hperm | exact Hok'].
Qed.

Lemma Sit_seats_in_order_witness :
  seatingOk demoSeated /\
  Sit demoSeated "b" 500 = Fail ErrAlreadySeated demoSeated /\
  exists s', Sit demoSeated "ab" 500 = Ok s' /\ Order s' = ["a"; "ab"; "b"; "c"]%string.
Proof.
  assert (H : seatingOk demoSeated) by exact demoSeated_seatingOk.
  split; [exact H |]. split.
  - destruct (Sit_seats_in_order demoSeated "b" 500 H) as [Hdup _].
    exact (Hdup _ ltac:(vm_compute; reflexivity)).
  - destruct (Sit_seats_in_order demoSeated "ab" 500 H) as [_ Hnew].
    destruct (Hnew ltac:(vm_compute; reflexivity)) as (s' & Hs & _).
    exists s'. split; [exact Hs |].
    vm_compute in Hs. inversion Hs. reflexivity.
Defined.

(** X7. On a table whose Order lists exactly the seated players, once each and
    ascending: Leave removes the player's seat and hole cards and removes the
    player from Order, keeping Order the ascending duplicate-free list of the
    seated players; for a player who is not in Order, Order is unchanged; and
    a non-negative TurnIdx is brought back inside a non-empty Order. *)
Theorem Leave_unseats (s : State) (p : string) :
  seatingOk s ->
  seatingOk (Leave s p) /\
  Seats (Leave s p) = delete p (Seats s) /\
  Holes (Leave s p) = delete p (Holes s) /\
  (forall q, q ∈ Order (Leave s p) <-> q <> p /\ q ∈ Order s) /\
  (p ∉ Order s -> Order (Leave s p) = Order s) /\
  (0 <= TurnIdx s -> Order (Leave s p) <> [] ->
   0 <= TurnIdx (Leave s p) < len (Order (Leave s p))).
Proof.
  intros Hok. destruct (Leave_fields s p) as (HO & HS & HH).
  split; [exact (seatingOk_Leave s p Hok) |].
  split; [exact HS |]. split; [exact HH |].
  split; [intros q; apply Leave_in |].
  split.
  { intros Hp. rewrite HO. clear -Hp.
    induction (Order s) as [| a l IH]; [reflexivity |].
    apply not_elem_of_cons in Hp. destruct Hp as [Hne Hp]. cbn [List.filter].
    assert (E : String.eqb a p = false) by (apply String.eqb_neq; congruence).
    rewrite E. cbn [negb]. f_equal. exact (IH Hp). }
  intros Ht Hne. rewrite HO in Hne |- *. unfold Leave.
  cbn [Order TurnIdx set_Order set_Holes set_Seats].
  set (o := List.filter (fun id => negb (String.eqb id p)) (Order s)) in *.
  clearbody o.
  assert (0 < len o) by (unfold len; destruct o; [congruence | cbn [length]; lia]).
  destruct (len o <=? TurnIdx s) eqn:E;
    cbn [TurnIdx Order set_TurnIdx set_Order set_Holes set_Seats].
  - lia.
  - apply Z.leb_gt in E. lia.
Qed.

Lemma Leave_unseats_witness :
  seatingOk demoSeated /\
  seatingOk (Leave demoSeated "b") /\
  Seats (Leave demoSeated "b") = delete "b"%string (Seats demoSeated) /\
  Order (Leave demoSeated "b") = ["a"; "c"]%string.
Proof.
  assert (H : seatingOk demoSeated) by exact demoSeated_seatingOk.
  split; [exact H |].
  destruct (Leave_unseats demoSeated "b" H) as (Hok & HS & _).
  split; [exact Hok |]. split; [exact HS | vm_compute; reflexivity].
Defined.

(** X8. Seating a new player and then removing that player gives back the
    seats and the Order the table had before (on a table whose Order lists
    exactly the seated players, once each and ascending). *)
Theorem Sit_then_Leave (s : State) (p : string) (buyin : Z) (s' : State) :
  seatingOk s ->
  Sit s p buyin = Ok s' ->
  Seats (Leave s' p) = Seats s /\
  Order (Leave s' p) = Order s /\
  seatingOk (Leave s' p).
Proof.
  intros Hok Hsit.
  destruct (Seats s !! p) as [st |] eqn:Hp.
  { unfold Sit in Hsit. rewrite Hp in Hsit. discriminate. }
  destruct (Sit_new s p buyin Hp) as (s1 & Hs1 & _ & Hseats & HO).
  assert (s1 = s') by congruence. subst s1.
  destruct (seatingOk_seat s s' p _ Hok Hp Hseats HO) as [Hperm Hok1].
  pose proof (seatingOk_Leave s' p Hok1) as Hok2.
  destruct (Leave_fields s' p) as (_ & HS & _).
  split; [rewrite HS, Hseats; apply delete_insert_id; exact Hp |].
  split; [| exact Hok2].
  destruct Hok as (Hnd & Hasc & Hdom).
  destruct Hok2 as (Hnd2 & Hasc2 & _).
  apply ascending_unique; try assumption.
  apply NoDup_Permutation; try assumption.
  intros q. rewrite Leave_in, Hperm, elem_of_cons.
  assert (Hnp : p ∉ Order s) by (rewrite Hdom, Hp; intros [x Hx]; discriminate).
  split; [intros [Hne [-> | H]]; [contradiction | exact H] |].
  intros H. split; [intros ->; contradiction | now right].
Qed.


Lemma Sit_then_Leave_witness :
  seatingOk demoSeated /\
  Sit demoSeated "ab" 500 = Ok (stateOf (Sit demoSeated "ab" 500)) /\
  Seats (Leave (stateOf (Sit demoSeated "ab" 500)) "ab") = Seats demoSeated /\
  Order (Leave (stateOf (Sit demoSeated "ab" 500)) "ab") = Order demoSeated.
Proof.
  assert (H1 : seatingOk demoSeated) by exact demoSeated_seatingOk.
  assert (H2 : Sit demoSeated "ab" 500 = Ok (stateOf (Sit demoSeated "ab" 500)))
    by (vm_compute; reflexivity).
  repeat (split; [assumption |]).
  destruct (Sit_then_Leave demoSeated "ab" 500 _ H1 H2) as (HS & HO & _).
  split; [exact HS | exact HO].
Defined.

Lemma sameSeating_refl s : sameSeating s s.
Proof. split; [reflexivity | intros q; reflexivity]. Qed.

Lemma sameSeating_fields s s' :
  Order s' = Order s -> Seats s' = Seats s -> sameSeating s s'.
Proof. intros HO HS. split; [exact HO |]. intros q. now rewrite HS. Qed.

Lemma sameSeating_trans s1 s2 s3 :
  sameSeating s1 s2 -> sameSeating s2 s3 -> sameSeating s1 s3.
Proof.
  intros [H1 H2] [H3 H4]. split; [congruence |].
  intros q. rewrite H4. apply H2.
Qed.

Lemma sameSeating_put s p st st' :
  Seats s !! p = Some st ->
  forall s1, Order s1 = Order s -> Seats s1 = <[p := st']> (Seats s) -> sameSeating s s1.
Proof.
  intros Hp s1 HO HS. split; [exact HO |].
  intros q. rewrite HS, lookup_insert_is_Some.
  destruct (decide (p = q)) as [<- | Hne]; [rewrite Hp; split; eauto |].
  split; [intros [? | [_ H]]; [contradiction | exact H] | intros H; right; auto].
Qed.

Lemma sameSeating_finish s s' :
  returned (finish (advanceTurn s)) s' -> sameSeating s s'.
Proof.
  unfold finish, advanceTurn. intros Hr.
  destruct (len (Order s) =? 0).
  - returned_inv Hr. apply sameSeating_refl.
  - destruct (advanceTurnLoop _ s) as [s1 |] eqn:E; returned_inv Hr.
    apply advanceTurnLoop_same in E. rewrite E. apply sameSeating_fields; reflexivity.
Qed.

Lemma sameSeating_dealHoles order : forall s s',
  returned (dealHoles s order) s' -> sameSeating s s'.
Proof.
  induction order as [| pid rest IH]; intros s s' Hr; cbn [dealHoles] in Hr.
  - returned_inv Hr. apply sameSeating_refl.
  - destruct (Seats s !! pid) as [st |]; [| returned_inv Hr].
    destruct (InHand st && negb (Folded st)); [| exact (IH _ _ Hr)].
    destruct (Deck s) as [| c0 [| c1 deck']];
      try (returned_inv Hr; apply sameSeating_refl).
    apply IH in Hr. exact Hr.
Qed.

Lemma sameSeating_postBlind s p amt s' :
  postBlind s p amt = Some s' -> sameSeating s s'.
Proof.
  unfold postBlind. destruct (Seats s !! p) as [seat |] eqn:E; [| discriminate].
  cbn [mbind option_bind].
  destruct (Stack seat <=? 0); intros H; inversion H;
    eapply sameSeating_put; try exact E; reflexivity.
Qed.

Lemma sameSeating_fmap s (f : Seat -> Seat) s1 :
  Order s1 = Order s -> Seats s1 = f <$> Seats s -> sameSeating s s1.
Proof.
  intros HO HS. split; [exact HO |]. intros q. rewrite HS, lookup_fmap.
  destruct (Seats s !! q); cbn; split; intros [x Hx]; try discriminate; eauto.
Qed.

Lemma sameSeating_StartHand s r s' :
  returned (StartHand s r) s' -> sameSeating s s'.
Proof.
  unfold StartHand. generalize (NewDeck r). intros deck.
  destruct (len (Order s) <? 2); [intros Hr; returned_inv Hr; apply sameSeating_refl |].
  cbv zeta.
  match goal with
  | |- returned (match ?m with _ => _ end) _ -> _ => destruct m as [s2 |] eqn:E2
  end; [| intros Hr; returned_inv Hr].
  match goal with
  | |- returned (match ?m with _ => _ end) _ -> _ => destruct m as [s3 |] eqn:E3
  end; [| intros Hr; returned_inv Hr].
  intros Hr.
  apply bind_Some in E2. destruct E2 as (p2 & _ & E2).
  apply bind_Some in E3. destruct E3 as (p3 & _ & E3).
  apply sameSeating_postBlind in E2, E3. apply sameSeating_dealHoles in Hr.
  eapply sameSeating_trans; [| exact Hr].
  eapply sameSeating_trans; [| apply sameSeating_fields; reflexivity].
  eapply sameSeating_trans; [| exact E3].
  eapply sameSeating_trans; [| exact E2].
  apply (sameSeating_fmap s resetSeatForHand); reflexivity.
Qed.

Lemma sameSeating_remainderLoop n : forall i start w ws s rm s' rem',
  remainderLoop n i start w ws s rm = Some (s', rem') -> sameSeating s s'.
Proof.
  induction n as [| n IH]; intros i start w ws s rm s' rem' H;
    cbn [remainderLoop] in H; [inversion H; apply sameSeating_refl |].
  destruct (rm <=? 0); [inversion H; apply sameSeating_refl |].
  destruct (index _ _) as [pid |]; [| discriminate]. cbn [mbind option_bind] in H.
  destruct (ws !! pid) as [idx |]; [| exact (IH _ _ _ _ _ _ _ _ H)].
  destruct (w !! idx) as [w0 |]; [| discriminate]. cbn [mbind option_bind] in H.
  destruct (Seats s !! swPlayer w0) as [st |] eqn:E; [| exact (IH _ _ _ _ _ _ _ _ H)].
  apply IH in H. eapply sameSeating_trans; [| exact H].
  eapply sameSeating_put; [exact E | reflexivity | reflexivity].
Qed.

Lemma sameSeating_ResolveShowdown s s' sum :
  ResolveShowdown s = Some (s', sum) -> sameSeating s s'.
Proof.
  unfold ResolveShowdown. intros E.
  destruct (collectEvals s (Order s)) as [evals |]; [| discriminate].
  cbn [mbind option_bind] in E. destruct evals as [| e rest].
  { inversion E; subst. apply sameSeating_fields; reflexivity. }
  match type of E with
  | mbind _ ?m = _ => destruct m as [s2 |] eqn:E2; [| discriminate]
  end.
  cbn [mbind option_bind] in E. inversion E; subst. clear E.
  eapply sameSeating_trans; [| apply sameSeating_fields; reflexivity].
  match type of E2 with
  | (if ?c then _ else _) = _ => destruct c
  end.
  - destruct (remainderLoop _ _ _ _ _ _ _) as [[s3 rem'] |] eqn:El; [| discriminate].
    cbn in E2. inversion E2; subst. apply sameSeating_remainderLoop in El.
    eapply sameSeating_trans; [| exact El].
    split; [reflexivity |]. intros q. cbn [Seats set_Seats]. apply payPer_dom.
  - inversion E2. split; [reflexivity |]. intros q. cbn [Seats set_Seats]. apply payPer_dom.
Qed.

Lemma sameSeating_AdvancePhase s : sameSeating s (AdvancePhase s).
Proof.
  assert (Hreset : forall x, sameSeating x (resetCommittedAndSetTurnFromDealer x)).
  { intros x. unfold resetCommittedAndSetTurnFromDealer. cbn [Order set_Seats].
    destruct (len (Order x) =? 0);
      apply (sameSeating_fmap x (fun seat => set_Committed seat 0)); reflexivity. }
  assert (Hdeal : forall x k, sameSeating x (dealBoard x k)).
  { intros x k. unfold dealBoard. destruct (_ <=? _); apply sameSeating_fields; reflexivity. }
  unfold AdvancePhase.
  repeat match goal with |- context [if ?c then _ else _] => destruct c end;
    try (apply sameSeating_fields; reflexivity);
    (eapply sameSeating_trans; [apply Hdeal |]);
    (eapply sameSeating_trans; [apply Hreset |]); apply sameSeating_fields; reflexivity.
Qed.

(** Destructs the tests of a betting call down to its returns. *)
Ltac seating_tac Hr :=
  repeat match type of Hr with
         | context [match ?x with _ => _ end] => destruct x eqn:?
         end;
  try (returned_inv Hr; apply sameSeating_refl);
  try (apply sameSeating_finish in Hr;
       (eapply sameSeating_trans; [| exact Hr]);
       first [ apply sameSeating_fields; reflexivity
             | eapply sameSeating_put; [eassumption | reflexivity | reflexivity] ]).

Lemma sameSeating_Bet s p amt s' : returned (Bet s p amt) s' -> sameSeating s s'.
Proof. unfold Bet. intros Hr. seating_tac Hr. Qed.

Lemma sameSeating_Check s p s' : returned (Check s p) s' -> sameSeating s s'.
Proof. unfold Check. intros Hr. seating_tac Hr. Qed.

Lemma sameSeating_Call s p s' : returned (Call s p) s' -> sameSeating s s'.
Proof. unfold Call. intros Hr. seating_tac Hr. Qed.

Lemma sameSeating_Fold s p s' : returned (Fold s p) s' -> sameSeating s s'.
Proof. unfold Fold. intros Hr. seating_tac Hr. Qed.

Lemma sameSeating_Raise fuel s p add s' :
  returned (Raise (S fuel) s p add) s' -> sameSeating s s'.
Proof.
  rewrite Raise_fuel. cbn [Raise]. intros Hr. seating_tac Hr.
  all: try (apply sameSeating_finish in Hr; (eapply sameSeating_trans; [| exact Hr]));
    try returned_inv Hr;
    (split; [reflexivity |]); intros q;
    cbn [Seats putSeat set_Seats set_Pot set_ActorsToAct set_CurrentBet set_LastRaiseSize];
    rewrite ?lookup_insert_is_Some;
    match goal with
    | H : Seats _ !! ?k = Some _ |- _ =>
      destruct (decide (k = q)) as [<- | ?]; [rewrite H; split; eauto | tauto]
    end.
Qed.

Lemma seatingOk_same s s' : sameSeating s s' -> seatingOk s -> seatingOk s'.
Proof. intros [HO HS]. now apply seatingOk_ext. Qed.

(** X9. Order is always the list of the seated players, once each and
    ascending by id: this holds for NewState and is preserved by every engine
    call other than RestoreFromSnapshot (Sit, Leave, StartHand, Bet, Check,
    Call, Raise, Fold, AdvancePhase, ResolveShowdown and the alignment of the
    blinds), whether the call succeeds or returns an error. *)
Theorem seating_invariant (sb bb : Z) :
  seatingOk (NewState sb bb) /\
  forall s c s',
    isRestore c = false -> afterCallOf s c = Some s' -> seatingOk s -> seatingOk s'.
Proof.
  split.
  { apply seatingOk_NewState. }
  intros s c s' Hc H Hok. destruct c; cbn [afterCallOf isRestore] in H, Hc;
    try discriminate Hc.
  - pose proof (seatingOk_Sit s p buyin Hok) as Hs.
    destruct (Sit s p buyin); cbn in H, Hs; try discriminate H;
      inversion H; subst; exact Hs.
  - inversion H; subst. exact (seatingOk_Leave s p Hok).
  - apply afterCallOf_returned, sameSeating_StartHand in H. exact (seatingOk_same _ _ H Hok).
  - apply afterCallOf_returned, sameSeating_Bet in H. exact (seatingOk_same _ _ H Hok).
  - apply afterCallOf_returned, sameSeating_Check in H. exact (seatingOk_same _ _ H Hok).
  - apply afterCallOf_returned, sameSeating_Call in H. exact (seatingOk_same _ _ H Hok).
  - apply afterCallOf_returned in H. unfold raiseFuel in H.
    apply sameSeating_Raise in H. exact (seatingOk_same _ _ H Hok).
  - apply afterCallOf_returned, sameSeating_Fold in H. exact (seatingOk_same _ _ H Hok).
  - inversion H; subst. exact (seatingOk_same _ _ (sameSeating_AdvancePhase s) Hok).
  - destruct (ResolveShowdown s) as [[s1 sum] |] eqn:E; [| discriminate].
    cbn in H. inversion H; subst.
    exact (seatingOk_same _ _ (sameSeating_ResolveShowdown _ _ _ E) Hok).
  - inversion H; subst. apply (seatingOk_same s); [| exact Hok].
    apply sameSeating_fields; reflexivity.
Qed.


(** ** Actions that fail *)

Lemma finish_not_Fail o e s : finish o <> Fail e s.
Proof. destruct o; discriminate. Qed.

(** Destructs the tests of a betting call that returned an error. *)
Ltac failed_tac H :=
  repeat match type of H with
         | context [match ?x with _ => _ end] => destruct x eqn:?
         end;
  try (now apply finish_not_Fail in H);
  try (inversion H; subst; reflexivity);
  try discriminate H.

(** X10. A Bet, Check, Call or Fold that returns an error leaves the engine
    state exactly as it was; so does a Raise that returns any error other than
    ErrInsufficient (the short all-in branch of Raise can move the call part
    into the pot before it returns that error). *)
Theorem failed_action_keeps_state (s : State) (p : string) (x : Z) (e : EngineError)
    (s' : State) (fuel : nat) :
  (Bet s p x = Fail e s' -> s' = s) /\
  (Check s p = Fail e s' -> s' = s) /\
  (Call s p = Fail e s' -> s' = s) /\
  (Fold s p = Fail e s' -> s' = s) /\
  (Raise (S fuel) s p x = Fail e s' -> e <> ErrInsufficient -> s' = s).
Proof.
  split; [unfold Bet; intros H; failed_tac H |].
  split; [unfold Check; intros H; failed_tac H |].
  split; [unfold Call; intros H; failed_tac H |].
  split; [unfold Fold; intros H; failed_tac H |].
  rewrite Raise_fuel. cbn [Raise]. intros H He. failed_tac H.
  all: inversion H; subst; congruence.
Qed.

(** X11. Bet, Check, Call, Fold and Raise all fail with ErrUnknownPlayer for a
    player without a seat, and with ErrNotPlayersTurn for a seated player when
    the current player is somebody else; in both cases the state is unchanged. *)
Theorem action_guards (s : State) (p : string) (x : Z) (fuel : nat) :
  (Seats s !! p = None ->
   Bet s p x = Fail ErrUnknownPlayer s /\ Check s p = Fail ErrUnknownPlayer s /\
   Call s p = Fail ErrUnknownPlayer s /\ Fold s p = Fail ErrUnknownPlayer s /\
   Raise (S fuel) s p x = Fail ErrUnknownPlayer s) /\
  (forall q, is_Some (Seats s !! p) -> CurrentPlayer s = Some q -> q <> p ->
   Bet s p x = Fail ErrNotPlayersTurn s /\ Check s p = Fail ErrNotPlayersTurn s /\
   Call s p = Fail ErrNotPlayersTurn s /\ Fold s p = Fail ErrNotPlayersTurn s /\
   Raise (S fuel) s p x = Fail ErrNotPlayersTurn s).
Proof.
  split.
  - intros Hp. unfold Bet, Check, Call, Fold. cbn [Raise]. rewrite Hp. repeat split.
  - intros q [st Hst] Hq Hne. unfold Bet, Check, Call, Fold. cbn [Raise].
    unfold ensureTurn. rewrite Hst, Hq. cbn [mbind option_bind].
    assert (E : String.eqb q p = false) by now apply String.eqb_neq.
    rewrite E. repeat split.
Qed.


(** ** Bet, Check and Fold *)

Lemma demoFlop_wellSeated : wellSeated demoFlop.
Proof. split; [vm_compute; reflexivity | vm_compute; discriminate]. Qed.

(** X12. For the seated player whose turn it is (every player of Order having
    a seat): with no standing bet, a Bet that is at least the big blind,
    positive and within the stack succeeds; it moves the amount from the stack
    to the seat's committed chips and to the pot (int64 arithmetic), makes the
    seat's committed chips the CurrentBet and the amount the LastRaiseSize,
    recounts the players still to act, so that ActorsToAct becomes the number
    of players of Order that are in the hand, not folded, not all-in and
    behind the new bet (or all of those, should the new bet be 0), and
    advances the turn. Otherwise the state is unchanged and the error is the
    first that applies of: a bet already exists (CurrentBet > 0), the amount
    is below the big blind, the amount is not positive, the stack is
    insufficient. *)
Theorem bet_opens_the_round (s : State) (p : string) (st : Seat) (amt : Z) :
  wellSeated s ->
  Seats s !! p = Some st ->
  CurrentPlayer s = Some p ->
  (CurrentBet s <= 0 -> BigBlind s <= amt -> 0 < amt -> amt <= Stack st ->
   exists s' st',
     Bet s p amt = Ok s' /\
     Seats s' = <[p := st']> (Seats s) /\
     Stack st' = sub64 (Stack st) amt /\
     (Stack st <= MaxInt64 -> Stack st' = Stack st - amt) /\
     Committed st' = add64 (Committed st) amt /\
     AllIn st' = AllIn st /\ InHand st' = InHand st /\ Folded st' = Folded st /\
     Pot s' = add64 (Pot s) amt /\
     CurrentBet s' = Committed st' /\
     LastRaiseSize s' = amt /\
     ActorsToAct s' = ActorsToAct (afterBet s p st' amt) /\
     ActorsToAct s' = len (List.filter (needsToAct s') (Order s')) /\
     turnAdvanced (afterBet s p st' amt) s') /\
  (0 < CurrentBet s -> Bet s p amt = Fail ErrBetExists s) /\
  (CurrentBet s <= 0 -> amt < BigBlind s -> Bet s p amt = Fail ErrBetBelowBigBlind s) /\
  (CurrentBet s <= 0 -> BigBlind s <= amt -> amt <= 0 ->
   Bet s p amt = Fail ErrBetNotPositive s) /\
  (CurrentBet s <= 0 -> BigBlind s <= amt -> 0 < amt -> Stack st < amt ->
   Bet s p amt = Fail ErrInsufficient s).
Proof.
  intros Hwf Hst Hcur.
  assert (Hseat : is_Some (Seats s !! p)) by eauto.
  assert (Hrange : Order s <> [] -> 0 <= TurnIdx s < len (Order s))
    by (apply (CurrentPlayer_range s p Hcur)).
  unfold Bet. rewrite Hst, (ensureTurn_current s p Hcur).
  split; [| split; [| split; [| split]]].
  - intros H1 H2 H3 H4.
    assert ((0 <? CurrentBet s) = false) as -> by (apply Z.ltb_ge; lia).
    assert ((amt <? BigBlind s) = false) as -> by (apply Z.ltb_ge; lia).
    assert ((amt <=? 0) = false) as -> by (apply Z.leb_gt; lia).
    assert ((Stack st <? amt) = false) as -> by (apply Z.ltb_ge; lia).
    set (st' := set_Committed (set_Stack st (sub64 (Stack st) amt))
                              (add64 (Committed st) amt)).
    destruct (finish_advanceTurn (afterBet s p st' amt)) as (s' & Hrun & Hadv).
    { apply (wellSeated_putSeat s p st' Hseat Hwf). }
    { exact Hrange. }
    exists s', st'. split; [exact Hrun |].
    assert (Hcount : ActorsToAct s' = len (List.filter (needsToAct s') (Order s'))).
    { apply (ActorsToAct_recounted
               (set_LastRaiseSize
                  (set_CurrentBet (set_Pot (putSeat s p st') (add64 (Pot s) amt))
                                  (Committed st')) amt) s'); [| exact Hadv].
      destruct Hwf as [_ Hlen]. pose proof (len_nonneg (Order s)).
      cbn [Order putSeat set_Seats set_Pot set_CurrentBet set_LastRaiseSize]. lia. }
    destruct (turnAdvanced_fields _ _ Hadv) as (HS & HP & HC & HL & HA & _).
    repeat (split; [first [exact Hcount
                          | rewrite ?HS, ?HP, ?HC, ?HL, ?HA; reflexivity
                          | intros Hmax; cbn; unfold sub64; apply wrap64_id;
                            unfold MinInt64, MaxInt64 in *; lia] |]).
    exact Hadv.
  - intros H1. assert ((0 <? CurrentBet s) = true) as -> by (apply Z.ltb_lt; lia).
    reflexivity.
  - intros H1 H2.
    assert ((0 <? CurrentBet s) = false) as -> by (apply Z.ltb_ge; lia).
    assert ((amt <? BigBlind s) = true) as -> by (apply Z.ltb_lt; lia).
    reflexivity.
  - intros H1 H2 H3.
    assert ((0 <? CurrentBet s) = false) as -> by (apply Z.ltb_ge; lia).
    assert ((amt <? BigBlind s) = false) as -> by (apply Z.ltb_ge; lia).
    assert ((amt <=? 0) = true) as -> by (apply Z.leb_le; lia).
    reflexivity.
  - intros H1 H2 H3 H4.
    assert ((0 <? CurrentBet s) = false) as -> by (apply Z.ltb_ge; lia).
    assert ((amt <? BigBlind s) = false) as -> by (apply Z.ltb_ge; lia).
    assert ((amt <=? 0) = false) as -> by (apply Z.leb_gt; lia).
    assert ((Stack st <? amt) = true) as -> by (apply Z.ltb_lt; lia).
    reflexivity.
Qed.

Lemma bet_opens_the_round_witness :
  wellSeated demoFlop /\
  Seats demoFlop !! "c"%string = Some (mkSeat "c" 990 0 true false false) /\
  CurrentPlayer demoFlop = Some "c"%string /\
  (exists s' st',
     Bet demoFlop "c" 20 = Ok s' /\ Seats s' = <[ "c"%string := st' ]> (Seats demoFlop) /\
     Stack st' = 970 /\ Committed st' = 20 /\ Pot s' = 50 /\
     CurrentBet s' = 20 /\ LastRaiseSize s' = 20 /\
     ActorsToAct demoFlop = 3 /\ ActorsToAct s' = 2 /\
     List.filter (needsToAct s') (Order s') = ["a"; "b"]%string) /\
  Bet demoFlop "c" 9 = Fail ErrBetBelowBigBlind demoFlop /\
  Bet demoFlop "c" 991 = Fail ErrInsufficient demoFlop.
Proof.
  assert (H1 : wellSeated demoFlop) by exact demoFlop_wellSeated.
  assert (H2 : Seats demoFlop !! "c"%string = Some (mkSeat "c" 990 0 true false false))
    by (vm_compute; reflexivity).
  assert (H3 : CurrentPlayer demoFlop = Some "c"%string) by (vm_compute; reflexivity).
  repeat (split; [assumption |]).
  split; [| split].
  - destruct (bet_opens_the_round demoFlop "c" _ 20 H1 H2 H3) as [Hok _].
    destruct (Hok ltac:(vm_compute; discriminate) ltac:(vm_compute; discriminate)
                  ltac:(vm_compute; reflexivity) ltac:(vm_compute; discriminate))
      as (s' & st' & Hb & HS & Hst & _ & Hco & _ & _ & _ & HP & HB & HL & _ & HN & _).
    assert (Hs' : s' = stateOf (Bet demoFlop "c" 20)) by (rewrite Hb; reflexivity).
    exists s', st'. split; [exact Hb |]. split; [exact HS |].
    split; [rewrite Hst; reflexivity |].
    split; [rewrite Hco; reflexivity |].
    split; [rewrite HP; reflexivity |].
    split; [rewrite HB, Hco; reflexivity |].
    split; [exact HL |].
    split; [vm_compute; reflexivity |].
    split; [rewrite HN, Hs'; vm_compute; reflexivity |].
    rewrite Hs'. vm_compute. reflexivity.
  - destruct (bet_opens_the_round demoFlop "c" _ 9 H1 H2 H3) as (_ & _ & Hlow & _).
    exact (Hlow ltac:(vm_compute; discriminate) ltac:(vm_compute; reflexivity)).
  - destruct (bet_opens_the_round demoFlop "c" _ 991 H1 H2 H3) as (_ & _ & _ & _ & Hins).
    exact (Hins ltac:(vm_compute; discriminate) ltac:(vm_compute; discriminate)
                ltac:(vm_compute; reflexivity) ltac:(vm_compute; reflexivity)).
Defined.

(** X13. For the seated player whose turn it is: Check succeeds when there is
    no bet (CurrentBet = 0) or the player's committed chips equal CurrentBet;
    it decrements ActorsToAct, advances the turn and changes neither seats,
    pot nor bet; otherwise it fails and changes nothing. Fold always succeeds:
    it marks the seat folded and out of the hand, leaves pot, CurrentBet and
    LastRaiseSize alone, decrements ActorsToAct only if the player was behind
    a standing bet, and advances the turn. *)
Theorem check_and_fold (s : State) (p : string) (st : Seat) :
  wellSeated s ->
  Seats s !! p = Some st ->
  CurrentPlayer s = Some p ->
  (CurrentBet s = 0 \/ Committed st = CurrentBet s ->
   exists s', Check s p = Ok s' /\ turnAdvanced (afterCheck s) s' /\
     Seats s' = Seats s /\ Pot s' = Pot s /\ CurrentBet s' = CurrentBet s /\
     ActorsToAct s' = sub64 (ActorsToAct s) 1) /\
  (CurrentBet s <> 0 -> Committed st <> CurrentBet s ->
   Check s p = Fail ErrCannotCheck s) /\
  (exists s', Fold s p = Ok s' /\ turnAdvanced (afterFold s p st) s' /\
     Seats s' = <[p := set_InHand (set_Folded st true) false]> (Seats s) /\
     Pot s' = Pot s /\ CurrentBet s' = CurrentBet s /\
     LastRaiseSize s' = LastRaiseSize s /\
     ActorsToAct s' =
       (if (0 <? CurrentBet s) && (Committed st <? CurrentBet s)
        then sub64 (ActorsToAct s) 1 else ActorsToAct s)).
Proof.
  intros Hwf Hst Hcur.
  assert (Hseat : is_Some (Seats s !! p)) by eauto.
  assert (Hrange : Order s <> [] -> 0 <= TurnIdx s < len (Order s))
    by (apply (CurrentPlayer_range s p Hcur)).
  split; [| split].
  - intros Hok.
    destruct (finish_advanceTurn (afterCheck s)) as (s' & Hrun & Hadv);
      [exact Hwf | exact Hrange |].
    exists s'. split.
    { unfold Check. rewrite Hst, (ensureTurn_current s p Hcur).
      destruct (CurrentBet s =? 0) eqn:E0; [exact Hrun |].
      apply Z.eqb_neq in E0. destruct Hok as [Hok | Hok]; [contradiction |].
      assert ((Committed st =? CurrentBet s) = true) as -> by (apply Z.eqb_eq; exact Hok).
      exact Hrun. }
    split; [exact Hadv |].
    destruct (turnAdvanced_fields _ _ Hadv) as (HS & HP & HC & HL & HA & _).
    rewrite HS, HP, HC, HA. repeat split.
  - intros H0 Hne. unfold Check. rewrite Hst, (ensureTurn_current s p Hcur).
    assert ((CurrentBet s =? 0) = false) as -> by (apply Z.eqb_neq; exact H0).
    assert ((Committed st =? CurrentBet s) = false) as -> by (apply Z.eqb_neq; exact Hne).
    reflexivity.
  - destruct (finish_advanceTurn (afterFold s p st)) as (s' & Hrun & Hadv).
    { unfold afterFold. apply wellSeated_putSeat.
      - destruct (_ && _); exact Hseat.
      - destruct (_ && _); exact Hwf. }
    { unfold afterFold. destruct (_ && _); exact Hrange. }
    exists s'. split.
    { unfold Fold. rewrite Hst, (ensureTurn_current s p Hcur). exact Hrun. }
    split; [exact Hadv |].
    destruct (turnAdvanced_fields _ _ Hadv) as (HS & HP & HC & HL & HA & _).
    rewrite HS, HP, HC, HL, HA. unfold afterFold.
    destruct ((0 <? CurrentBet s) && (Committed st <? CurrentBet s)); repeat split.
Qed.


Lemma check_and_fold_witness :
  wellSeated demoStart /\
  Seats demoStart !! "b"%string = Some (mkSeat "b" 1000 0 true false false) /\
  CurrentPlayer demoStart = Some "b"%string /\
  Check demoStart "b" = Fail ErrCannotCheck demoStart /\
  exists s', Fold demoStart "b" = Ok s' /\ Pot s' = 15 /\
    ActorsToAct s' = sub64 (ActorsToAct demoStart) 1.
Proof.
  assert (H1 : wellSeated demoStart) by exact demoStart_wellSeated.
  assert (H2 : Seats demoStart !! "b"%string = Some (mkSeat "b" 1000 0 true false false))
    by (vm_compute; reflexivity).
  assert (H3 : CurrentPlayer demoStart = Some "b"%string) by (vm_compute; reflexivity).
  repeat (split; [assumption |]).
  destruct (check_and_fold demoStart "b" _ H1 H2 H3) as (_ & Hno & s' & Hf & _ & _ & HP & _ & _ & HA).
  split; [exact (Hno ltac:(vm_compute; discriminate) ltac:(vm_compute; discriminate)) |].
  exists s'. split; [exact Hf |].
  split; [rewrite HP; reflexivity | rewrite HA; reflexivity].
Defined.

(** ** Players still to act; the board *)

(** X14. For an Order whose length fits an int, countNeedToAct is the number
    of players of Order that are eligible (seated, in the hand, not folded,
    not all-in) and either face no bet or have committed less than CurrentBet;
    it lies between 0 and len(Order), and it is 0 exactly when Order has no
    such player. *)
Theorem countNeedToAct_counts_pending (s : State) :
  len (Order s) <= MaxInt64 ->
  countNeedToAct s = len (List.filter (needsToAct s) (Order s)) /\
  0 <= countNeedToAct s <= len (Order s) /\
  (countNeedToAct s = 0 <-> forall p, p ∈ Order s -> needsToAct s p = false).
Proof.
  intros HL. rewrite (countNeedToAct_count s HL).
  split; [reflexivity |]. split.
  - split; [apply len_nonneg |]. unfold len.
    pose proof (filter_length (needsToAct s) (Order s)). 
    assert (length (List.filter (needsToAct s) (Order s)) <= length (Order s))%nat.
    { clear. induction (Order s) as [| a l IH]; cbn [List.filter length]; [lia |].
      destruct (needsToAct s a); cbn [length]; lia. }
    lia.
  - unfold len. split.
    + intros H p Hp. destruct (needsToAct s p) eqn:E; [| reflexivity].
      assert (Hin : In p (List.filter (needsToAct s) (Order s)))
        by (apply filter_In; split; [now apply list_elem_of_In | exact E]).
      destruct (List.filter (needsToAct s) (Order s)); [destruct Hin | cbn in H; lia].
    + intros H.
      assert (E : List.filter (needsToAct s) (Order s) = []).
      { clear HL. induction (Order s) as [| a l IH]; [reflexivity |]. cbn [List.filter].
        rewrite (H a) by now left. apply IH. intros p Hp. apply H. now right. }
      now rewrite E.
Qed.

Lemma countNeedToAct_counts_pending_witness :
  len (Order demoStart) <= MaxInt64 /\
  countNeedToAct demoStart = 2 /\
  countNeedToAct demoPreflopDone = 0.
Proof.
  assert (H : len (Order demoStart) <= MaxInt64) by (vm_compute; discriminate).
  split; [exact H |].
  destruct (countNeedToAct_counts_pending demoStart H) as (Hc & _).
  split; [rewrite Hc; vm_compute; reflexivity |].
  destruct (countNeedToAct_counts_pending demoPreflopDone ltac:(vm_compute; discriminate))
    as (Hc' & _).
  rewrite Hc'. vm_compute. reflexivity.
Defined.

(** ** AdvancePhase and the cards *)

(** X15. AdvancePhase never loses or invents a card and never moves chips: the
    board followed by the deck is the same card sequence before and after, and
    hole cards, pot, Order and every stack are unchanged. From preflop it
    moves three cards from the top of the deck to the board, from flop and
    from turn one card; when the deck is too short it deals nothing but still
    advances the phase. From the river it only sets the phase to showdown and
    ends the hand; in any other phase it does nothing. *)
Theorem AdvancePhase_deals_the_board (s : State) :
  let s' := AdvancePhase s in
  Board s' ++ Deck s' = Board s ++ Deck s /\
  Holes s' = Holes s /\ Pot s' = Pot s /\ Order s' = Order s /\
  (forall p, Stack <$> (Seats s' !! p) = Stack <$> (Seats s !! p)) /\
  (Phase s = PhasePreflop ->
   Phase s' = PhaseFlop /\
   (3 <= len (Deck s) -> Board s' = Board s ++ take 3 (Deck s)) /\
   (len (Deck s) < 3 -> Board s' = Board s)) /\
  (Phase s = PhaseFlop \/ Phase s = PhaseTurn ->
   Phase s' = Phase s + 1 /\
   (1 <= len (Deck s) -> Board s' = Board s ++ take 1 (Deck s)) /\
   (len (Deck s) < 1 -> Board s' = Board s)) /\
  (Phase s = PhaseRiver ->
   s' = set_HandActive (set_Phase s PhaseShowdown) false) /\
  (Phase s < PhasePreflop \/ PhaseRiver < Phase s -> s' = s).
Proof.
  assert (Hreset : forall x,
             Board (resetCommittedAndSetTurnFromDealer x) = Board x /\
             Deck (resetCommittedAndSetTurnFromDealer x) = Deck x /\
             Holes (resetCommittedAndSetTurnFromDealer x) = Holes x /\
             Pot (resetCommittedAndSetTurnFromDealer x) = Pot x /\
             Order (resetCommittedAndSetTurnFromDealer x) = Order x /\
             Seats (resetCommittedAndSetTurnFromDealer x)
               = (fun seat => set_Committed seat 0) <$> Seats x).
  { intros x. unfold resetCommittedAndSetTurnFromDealer. cbn [Order set_Seats].
    destruct (len (Order x) =? 0); repeat split; reflexivity. }
  assert (Hdeal : forall x k,
             Board (dealBoard x k) ++ Deck (dealBoard x k) = Board x ++ Deck x /\
             Holes (dealBoard x k) = Holes x /\ Pot (dealBoard x k) = Pot x /\
             Order (dealBoard x k) = Order x /\ Seats (dealBoard x k) = Seats x /\
             (Z.of_nat k <= len (Deck x) -> Board (dealBoard x k) = Board x ++ take k (Deck x)) /\
             (len (Deck x) < Z.of_nat k -> Board (dealBoard x k) = Board x)).
  { intros x k. unfold dealBoard. destruct (Z.of_nat k <=? len (Deck x)) eqn:E.
    - apply Z.leb_le in E. cbn [Board Deck Holes Pot Order Seats set_Deck set_Board].
      rewrite <- app_assoc, take_drop. repeat split; try reflexivity. lia.
    - apply Z.leb_gt in E. repeat split; try reflexivity. lia. }
  assert (Hstack : forall (m : gmap string Seat) p,
             Stack <$> (((fun seat => set_Committed seat 0) <$> m) !! p) = Stack <$> (m !! p)).
  { intros m p. rewrite lookup_fmap. destruct (m !! p); reflexivity. }
  intros s'. subst s'. unfold AdvancePhase.
  unfold PhasePreflop, PhaseFlop, PhaseTurn, PhaseRiver, PhaseShowdown.
  destruct (Phase s =? 0) eqn:E0; [apply Z.eqb_eq in E0 | apply Z.eqb_neq in E0].
  { destruct (Hdeal s 3%nat) as (H1 & H2 & H3 & H4 & H5 & H6 & H7).
    destruct (Hreset (dealBoard s 3)) as (R1 & R2 & R3 & R4 & R5 & R6).
    cbn [Board Deck Holes Pot Order Seats Phase set_Phase].
    rewrite R1, R2, R3, R4, R5, R6, H2, H3, H4, H5.
    split; [exact H1 |].
    repeat first [split | intro]; try reflexivity; try lia; try apply Hstack;
      first [apply H6 | apply H7]; lia. }
  destruct (Phase s =? 1) eqn:E1; [apply Z.eqb_eq in E1 | apply Z.eqb_neq in E1].
  { destruct (Hdeal s 1%nat) as (H1 & H2 & H3 & H4 & H5 & H6 & H7).
    destruct (Hreset (dealBoard s 1)) as (R1 & R2 & R3 & R4 & R5 & R6).
    cbn [Board Deck Holes Pot Order Seats Phase set_Phase].
    rewrite R1, R2, R3, R4, R5, R6, H2, H3, H4, H5.
    split; [exact H1 |].
    repeat first [split | intro]; try reflexivity; try lia; try apply Hstack;
      first [apply H6 | apply H7]; lia. }
  destruct (Phase s =? 2) eqn:E2; [apply Z.eqb_eq in E2 | apply Z.eqb_neq in E2].
  { destruct (Hdeal s 1%nat) as (H1 & H2 & H3 & H4 & H5 & H6 & H7).
    destruct (Hreset (dealBoard s 1)) as (R1 & R2 & R3 & R4 & R5 & R6).
    cbn [Board Deck Holes Pot Order Seats Phase set_Phase].
    rewrite R1, R2, R3, R4, R5, R6, H2, H3, H4, H5.
    split; [exact H1 |].
    repeat first [split | intro]; try reflexivity; try lia; try apply Hstack;
      first [apply H6 | apply H7]; lia. }
  destruct (Phase s =? 3) eqn:E3; [apply Z.eqb_eq in E3 | apply Z.eqb_neq in E3].
  { repeat first [split | intro]; try reflexivity; try lia. }
  repeat first [split | intro]; try reflexivity; try lia.
Qed.


(** ** Stacks stay in range *)

Lemma stacksOk_insert s s1 p st :
  Seats s1 = <[p := st]> (Seats s) -> stacksOk s -> 0 <= Stack st <= MaxInt64 -> stacksOk s1.
Proof.
  intros HS Hok Hst q st0. rewrite HS.
  destruct (decide (p = q)) as [<- | Hne].
  - rewrite lookup_insert_eq. intros H. inversion H; subst. exact Hst.
  - rewrite lookup_insert_ne by exact Hne. apply Hok.
Qed.

Lemma stacksOk_finish s s' :
  returned (finish (advanceTurn s)) s' -> stacksOk s -> stacksOk s'.
Proof.
  unfold finish, advanceTurn. intros Hr Hok.
  destruct (len (Order s) =? 0).
  - returned_inv Hr. exact Hok.
  - destruct (advanceTurnLoop _ s) as [s1 |] eqn:E; returned_inv Hr.
    apply advanceTurnLoop_same in E. rewrite E. exact Hok.
Qed.

(** Turns the tests a call went through into facts for [lia]. *)
Ltac tests_to_props :=
  repeat match goal with
         | H : (_ <? _) = true |- _ => apply Z.ltb_lt in H
         | H : (_ <? _) = false |- _ => apply Z.ltb_ge in H
         | H : (_ <=? _) = true |- _ => apply Z.leb_le in H
         | H : (_ <=? _) = false |- _ => apply Z.leb_gt in H
         | H : (_ =? _) = true |- _ => apply Z.eqb_eq in H
         | H : (_ =? _) = false |- _ => apply Z.eqb_neq in H
         | H : _ && _ = true |- _ => apply andb_true_iff in H; destruct H
         end.

Ltac stacks_tac Hr Hok :=
  repeat match type of Hr with
         | context [match ?x with _ => _ end] => destruct x eqn:?
         end;
  try (returned_inv Hr; exact Hok);
  try (apply stacksOk_finish in Hr; [exact Hr |]).

Lemma stacksOk_Raise (s : State) (p : string) (x : Z) (s' : State) (fuel : nat) :
  stacksOk s ->
  (forall st, Seats s !! p = Some st ->
     0 <= Committed st /\ 0 <= CurrentBet s /\ CurrentBet s + x <= MaxInt64) ->
  returned (Raise (S fuel) s p x) s' -> stacksOk s'.
Proof.
  intros Hok Hguard. rewrite Raise_fuel. cbn [Raise]. intros Hr.
  repeat match type of Hr with
         | context [match ?x with _ => _ end] => destruct x eqn:?
         end.
  all: first [ apply stacksOk_finish in Hr; [exact Hr | clear Hr] | returned_inv Hr ].
  all: try exact Hok.
  all: match goal with
       | H : Seats _ !! ?k = Some ?st |- _ =>
         pose proof (Hok k st H) as Hst; pose proof (Hguard st eq_refl) as (Hc & Hb & Hx);
         clear Hguard H; destruct st as [pl stk cm ih ai fo]
       end.
  all: tests_to_props.
  all: unfold min64 in *.
  all: repeat match goal with
         | H : context [if ?a <? ?b then _ else _] |- _ => destruct (Z.ltb_spec a b)
         | |- context [if ?a <? ?b then _ else _] => destruct (Z.ltb_spec a b)
         end.
  all: cbv [Stack Committed set_Stack set_Committed set_AllIn Player InHand AllIn Folded] in *.
  all: (eapply (stacksOk_insert s);
        [cbn [Seats putSeat set_Seats set_Pot set_ActorsToAct set_CurrentBet set_LastRaiseSize];
         rewrite ?insert_insert_eq; reflexivity
        | exact Hok |]).
  all: cbv [Stack Committed set_Stack set_Committed set_AllIn Player InHand AllIn Folded] in *.
  all: try (unfold MaxInt64; lia).
  all: unfold MaxInt64, MinInt64 in *; wrap_lia.
Qed.

Lemma demoStart_stacksOk : stacksOk demoStart.
Proof.
  change (map_Forall (fun (_ : string) st => 0 <= Stack st <= MaxInt64) (Seats demoStart)).
  apply (bool_decide_unpack _). vm_compute. reflexivity.
Qed.

(** X16. If every stack is a non-negative int64, it still is after Bet, Check,
    Call or Fold, successful or failed, and after Raise provided the raiser's
    committed chips and CurrentBet are non-negative and CurrentBet plus the
    raise fits an int64: no action drives a stack negative or makes it wrap
    around. *)
Theorem stacks_stay_in_range (s : State) (p : string) (x : Z) (s' : State) :
  stacksOk s ->
  (returned (Bet s p x) s' -> stacksOk s') /\
  (returned (Check s p) s' -> stacksOk s') /\
  (returned (Call s p) s' -> stacksOk s') /\
  (returned (Fold s p) s' -> stacksOk s') /\
  (forall fuel,
     (forall st, Seats s !! p = Some st ->
        0 <= Committed st /\ 0 <= CurrentBet s /\ CurrentBet s + x <= MaxInt64) ->
     returned (Raise (S fuel) s p x) s' -> stacksOk s').
Proof.
  intros Hok. split; [| split; [| split; [| split]]].
  - unfold Bet. intros Hr. stacks_tac Hr Hok.
    eapply (stacksOk_insert s); [reflexivity | exact Hok |].
    match goal with H : Seats s !! p = Some ?st |- _ => pose proof (Hok p st H) end.
    tests_to_props. cbn [Stack set_Committed set_Stack]. unfold sub64.
    rewrite wrap64_id by (unfold MinInt64, MaxInt64 in *; lia). lia.
  - unfold Check. intros Hr. stacks_tac Hr Hok; exact Hok.
  - unfold Call. intros Hr. stacks_tac Hr Hok.
    + eapply (stacksOk_insert s); [reflexivity | exact Hok |].
      match goal with H : Seats s !! p = Some ?st |- _ => pose proof (Hok p st H) end.
      tests_to_props. cbn [Stack set_Committed set_Stack]. unfold sub64 in *.
      match goal with
      | |- context [wrap64 (Stack ?a - ?b)] =>
        rewrite (wrap64_id (Stack a - b)) by (unfold MinInt64, MaxInt64 in *; lia)
      end. lia.
    + eapply (stacksOk_insert s); [reflexivity | exact Hok |].
      cbn [Stack set_Committed set_Stack set_AllIn]. unfold MaxInt64. lia.
  - unfold Fold. intros Hr. stacks_tac Hr Hok.
    all: eapply (stacksOk_insert s); [reflexivity | exact Hok |];
      match goal with H : Seats _ !! ?k = Some ?st |- _ => exact (Hok k st H) end.
  - intros fuel Hg Hr. exact (stacksOk_Raise s p x s' fuel Hok Hg Hr).
Qed.


Lemma stacks_stay_in_range_witness :
  stacksOk demoStart /\
  stacksOk (stateOf (Call demoStart "b")) /\
  stacksOk (stateOf (Raise 1 demoStart "b" 10)).
Proof.
  assert (H : stacksOk demoStart) by exact demoStart_stacksOk.
  split; [exact H |]. split.
  - destruct (stacks_stay_in_range demoStart "b" 0 (stateOf (Call demoStart "b")) H)
      as (_ & _ & Hc & _).
    apply Hc. left. vm_compute. reflexivity.
  - destruct (stacks_stay_in_range demoStart "b" 10 (stateOf (Raise 1 demoStart "b" 10)) H)
      as (_ & _ & _ & _ & Hr).
    apply (Hr 0%nat).
    + intros st Hst. vm_compute in Hst. inversion Hst; subst st.
      vm_compute. repeat split; discriminate.
    + left. vm_compute. reflexivity.
Defined.

(** ** Hand values *)

Lemma equalRanks_eq a : forall b,
  length a = length b -> (equalRanks a b = true <-> a = b).
Proof.
  induction a as [| x a IH]; intros [| y b]; cbn [equalRanks length]; try discriminate.
  - intros _. split; reflexivity.
  - intros Hlen. destruct (x =? y) eqn:E; cbn [negb].
    + apply Z.eqb_eq in E. subst y. rewrite IH by lia. split; [intros ->; reflexivity |].
      intros H. now inversion H.
    + apply Z.eqb_neq in E. split; [discriminate | intros H; inversion H; contradiction].
Qed.

Lemma Equal_eq a b :
  length (Ranks a) = length (Ranks b) -> (Equal a b = true <-> a = b).
Proof.
  intros Hlen. unfold Equal. destruct a as [ca ra], b as [cb rb]. cbn [Cat Ranks] in *.
  destruct (ca =? cb) eqn:E; cbn [negb].
  - apply Z.eqb_eq in E. subst cb. rewrite (equalRanks_eq ra rb Hlen).
    split; [intros ->; reflexivity | intros H; now inversion H].
  - apply Z.eqb_neq in E. split; [discriminate | intros H; inversion H; contradiction].
Qed.

Lemma Less_asym a b : Less a b = true -> Less b a = false.
Proof.
  intros H. destruct (Less b a) eqn:E; [| reflexivity].
  pose proof (Less_trans a b a H E) as H1. now rewrite Less_irrefl in H1.
Qed.

(** X17. On the hand values BestHand7 returns, Less is a strict order and
    Equal is equality: no hand is less than itself, Less is transitive, Equal
    holds exactly for identical values, and of any two hands exactly one of
    less, equal, greater holds. *)
Theorem hand_values_are_ordered (b1 h1 b2 h2 b3 h3 : list Card) (x y z : HandValue)
    (c1 c2 c3 : list Card) :
  BestHand7 b1 h1 = Some (x, c1) ->
  BestHand7 b2 h2 = Some (y, c2) ->
  BestHand7 b3 h3 = Some (z, c3) ->
  Less x x = false /\
  (Less x y = true -> Less y z = true -> Less x z = true) /\
  (Equal x y = true <-> x = y) /\
  ((Less x y = true /\ Equal x y = false /\ Less y x = false) \/
   (Less x y = false /\ Equal x y = true /\ Less y x = false) \/
   (Less x y = false /\ Equal x y = false /\ Less y x = true)).
Proof.
  intros Hx Hy Hz.
  pose proof (BestHand7_ranks _ _ _ _ Hx) as Lx.
  pose proof (BestHand7_ranks _ _ _ _ Hy) as Ly.
  assert (Hlen : length (Ranks x) = length (Ranks y)) by congruence.
  split; [apply Less_irrefl |].
  split; [apply Less_trans |].
  split; [apply Equal_eq, Hlen |].
  destruct (Less x y) eqn:Exy.
  - left. split; [reflexivity |]. split; [| now apply Less_asym].
    destruct (Equal x y) eqn:E; [| reflexivity].
    apply (Equal_eq x y Hlen) in E. subst y. now rewrite Less_irrefl in Exy.
  - destruct (Less y x) eqn:Eyx.
    + right. right. split; [reflexivity |]. split; [| reflexivity].
      destruct (Equal x y) eqn:E; [| reflexivity].
      apply (Equal_eq x y Hlen) in E. subst y. now rewrite Less_irrefl in Eyx.
    + right. left. split; [reflexivity |]. split; [| reflexivity].
      apply (Equal_eq x y Hlen). now apply Less_eq.
Qed.

Lemma hand_values_are_ordered_witness :
  let pair := mkHandValue 1 [14; 13; 9; 5; 0] in
  let trips := mkHandValue 3 [9; 14; 13; 0; 0] in
  let flush := mkHandValue 5 [14; 13; 7; 5; 3] in
  BestHand7 demoBoard [mkCard 14 3; mkCard 4 0] =
    Some (pair, [mkCard 14 2; mkCard 14 3; mkCard 13 2; mkCard 9 1; mkCard 5 2]) /\
  BestHand7 demoBoard [mkCard 9 3; mkCard 9 0] =
    Some (trips, [mkCard 9 1; mkCard 9 3; mkCard 9 0; mkCard 14 2; mkCard 13 2]) /\
  BestHand7 demoBoard [mkCard 3 2; mkCard 7 2] =
    Some (flush, [mkCard 14 2; mkCard 13 2; mkCard 7 2; mkCard 5 2; mkCard 3 2]) /\
  Less pair pair = false /\
  (Less pair trips = true -> Less trips flush = true -> Less pair flush = true) /\
  (Equal pair trips = true <-> pair = trips).
Proof.
  intros pair trips flush.
  assert (H1 : BestHand7 demoBoard [mkCard 14 3; mkCard 4 0] =
    Some (pair, [mkCard 14 2; mkCard 14 3; mkCard 13 2; mkCard 9 1; mkCard 5 2]))
    by (vm_compute; reflexivity).
  assert (H2 : BestHand7 demoBoard [mkCard 9 3; mkCard 9 0] =
    Some (trips, [mkCard 9 1; mkCard 9 3; mkCard 9 0; mkCard 14 2; mkCard 13 2]))
    by (vm_compute; reflexivity).
  assert (H3 : BestHand7 demoBoard [mkCard 3 2; mkCard 7 2] =
    Some (flush, [mkCard 14 2; mkCard 13 2; mkCard 7 2; mkCard 5 2; mkCard 3 2]))
    by (vm_compute; reflexivity).
  repeat (split; [assumption |]).
  destruct (hand_values_are_ordered _ _ _ _ _ _ _ _ _ _ _ _ H1 H2 H3) as (Hi & Ht & He & _).
  split; [exact Hi |]. split; [exact Ht | exact He].
Defined.

Lemma pad5_length {A} (z : A) l : length (pad5 z l) = 5%nat.
Proof. unfold pad5. rewrite length_take, length_app, length_replicate. lia. Qed.

Lemma setAt_length {A} (l : list A) i x : length (setAt l i x) = length l.
Proof. apply length_insert. Qed.

Lemma forallb_false {A} (f : A -> bool) l :
  forallb f l = false -> exists c, c ∈ l /\ f c = false.
Proof.
  induction l as [| a l IH]; cbn [forallb]; [discriminate |].
  destruct (f a) eqn:E; cbn [andb].
  - intros H. destruct (IH H) as (c & Hc & Hr). exists c. split; [now right | exact Hr].
  - intros _. exists a. split; [now left | exact E].
Qed.

(** X18. BestHand7 panics exactly when some card has a rank outside 0..14 or a
    suit outside 0..3 (the counting arrays are indexed out of range);
    otherwise, for any number of cards, it returns a category between high
    card (0) and straight flush (8), exactly five tie-break ranks and five
    cards. *)
Theorem BestHand7_shape (board holes : list Card) :
  (BestHand7 board holes = None <->
   exists c, c ∈ board ++ holes /\ cardInRange c = false) /\
  (forall hv five, BestHand7 board holes = Some (hv, five) ->
     0 <= Cat hv <= 8 /\ length (Ranks hv) = 5%nat /\ length five = 5%nat).
Proof.
  split.
  - unfold BestHand7.
    destruct (forallb _ (board ++ holes)) eqn:E; cbn [negb].
    + split.
      * repeat case_match; discriminate.
      * intros (c & Hc & Hr). rewrite forallb_forall in E.
        apply list_elem_of_In in Hc. specialize (E c Hc). unfold cardInRange in Hr. congruence.
    + split; [| reflexivity]. intros _.
      destruct (forallb_false _ _ E) as (c & Hc & Hr). exists c. split; assumption.
  - intros hv five H. split; [| split; [exact (BestHand7_ranks _ _ _ _ H) |]].
    + unfold BestHand7 in H. repeat case_match; simplify_eq;
        cbv [fill Cat CatHighCard CatOnePair CatTwoPair CatTrips CatStraight CatFlush
             CatFullHouse CatQuads CatStraightFlush]; lia.
    + unfold BestHand7 in H.
      repeat case_match; simplify_eq;
        unfold pickStraight, collectOfRank; cbn [snd];
        rewrite ?setAt_length; apply pad5_length.
Qed.

(** X19. When BestHand7 returns, it reports a flush or a straight flush
    exactly when some suit occurs at least five times among the board and hole
    cards. *)
Theorem flush_detection (board holes : list Card) (hv : HandValue) (five : list Card) :
  BestHand7 board holes = Some (hv, five) ->
  (Cat hv = CatFlush \/ Cat hv = CatStraightFlush <->
   exists s, 5 <= suitCount (board ++ holes) s).
Proof.
  intros H.
  assert (Hcards : forall c, c ∈ board ++ holes -> 0 <= Suit c <= 3).
  { intros c Hc. unfold BestHand7 in H.
    destruct (forallb _ (board ++ holes)) eqn:E; [| discriminate].
    rewrite forallb_forall in E. apply list_elem_of_In in Hc. specialize (E c Hc).
    rewrite !andb_true_iff, !Z.leb_le in E. lia. }
  assert (Hfl : is_Some (flushSuitOf (board ++ holes)) <->
                exists s, 5 <= suitCount (board ++ holes) s).
  { unfold flushSuitOf. split.
    - intros [fs Hfs]. apply head_Some_elem_of, list_elem_of_In, filter_In in Hfs.
      destruct Hfs as [_ Hfs]. exists fs. now apply Z.leb_le.
    - intros (s & Hs).
      assert (Hin : In s [0; 1; 2; 3]).
      { unfold suitCount in Hs.
        destruct (List.filter (fun c => Suit c =? s) (board ++ holes)) as [| c l] eqn:Ef;
          [unfold len in Hs; cbn in Hs; lia |].
        assert (Hc : In c (List.filter (fun c => Suit c =? s) (board ++ holes)))
          by (rewrite Ef; now left).
        apply filter_In in Hc. destruct Hc as [Hc Heq]. apply Z.eqb_eq in Heq.
        apply list_elem_of_In, Hcards in Hc. cbn. lia. }
      assert (Hf : In s (List.filter (fun s => 5 <=? suitCount (board ++ holes) s) [0; 1; 2; 3]))
        by (apply filter_In; split; [exact Hin | now apply Z.leb_le]).
      destruct (List.filter _ [0; 1; 2; 3]) as [| a l]; [destruct Hf | cbn; eauto]. }
  rewrite <- Hfl. unfold BestHand7 in H.
  destruct (forallb _ (board ++ holes)); [| discriminate]. cbn [negb] in H.
  destruct (flushSuitOf (board ++ holes)) as [fs |].
  - split; [eauto |]. intros _.
    repeat case_match; simplify_eq; cbn [fill Cat]; auto.
  - split; [| intros [x Hx]; discriminate].
    unfold CatFlush, CatStraightFlush.
    repeat case_match; simplify_eq;
      cbv [fill Cat CatHighCard CatOnePair CatTwoPair CatTrips CatStraight CatFlush
           CatFullHouse CatQuads CatStraightFlush]; intros [? | ?]; discriminate.
Qed.


Lemma flush_detection_witness :
  BestHand7 demoBoard [mkCard 3 2; mkCard 7 2] =
    Some (mkHandValue 5 [14; 13; 7; 5; 3],
          [mkCard 14 2; mkCard 13 2; mkCard 7 2; mkCard 5 2; mkCard 3 2]) /\
  exists s, 5 <= suitCount (demoBoard ++ [mkCard 3 2; mkCard 7 2]) s.
Proof.
  assert (H : BestHand7 demoBoard [mkCard 3 2; mkCard 7 2] =
    Some (mkHandValue 5 [14; 13; 7; 5; 3],
          [mkCard 14 2; mkCard 13 2; mkCard 7 2; mkCard 5 2; mkCard 3 2]))
    by (vm_compute; reflexivity).
  split; [exact H |].
  apply (flush_detection _ _ _ _ H). left. reflexivity.
Defined.

(** ** Engine snapshots restored *)

Lemma RestoreFromSnapshot_is (s : State) (ss : EngineSnapshot) :
  RestoreFromSnapshot s ss =
  mkState (esSmallBlind ss) (esBigBlind ss) (esDealerIdx ss) (esOrder ss) (esTurnIdx ss)
    (esPhase ss) (esPot ss) (esSeats ss) (Deck s) (esBoard ss) (Holes s) (CurrentBet s)
    (ActorsToAct s) (LastRaiseSize s) (HandActive s).
Proof.
  pose proof (RestoreFromSnapshot_Seats s ss) as HS.
  destruct (RestoreFromSnapshot s ss) as [a1 a2 a3 a4 a5 a6 a7 a8 a9 a10 a11 a12 a13 a14 a15] eqn:E.
  cbn [Seats] in HS. subst a8.
  unfold RestoreFromSnapshot in E.
  inversion E. reflexivity.
Qed.

(** X20. Restoring a snapshot and taking a snapshot again gives back that
    snapshot, for every snapshot and every receiving state;
    RestoreFromSnapshot leaves the fields a snapshot does not carry as they
    were (deck, hole cards, CurrentBet, LastRaiseSize, ActorsToAct,
    HandActive); and restoring the same snapshot a second time changes
    nothing. *)
Theorem restore_then_snapshot (s : State) (ss : EngineSnapshot) :
  let s' := RestoreFromSnapshot s ss in
  Snapshot s' = ss /\
  Deck s' = Deck s /\ Holes s' = Holes s /\ CurrentBet s' = CurrentBet s /\
  LastRaiseSize s' = LastRaiseSize s /\ ActorsToAct s' = ActorsToAct s /\
  HandActive s' = HandActive s /\
  RestoreFromSnapshot s' ss = s'.
Proof.
  intros s'. subst s'. rewrite (RestoreFromSnapshot_is (RestoreFromSnapshot s ss) ss).
  rewrite (RestoreFromSnapshot_is s ss). cbn.
  split; [destruct ss; reflexivity |]. repeat split.
Qed.


(** ** The replica: replays, dropped messages, takeover, snapshots *)

Lemma logRecorded_fields t t' :
  t_log t' = t_log t -> t_dedup t' = t_dedup t -> logRecorded t -> logRecorded t'.
Proof. unfold logRecorded. intros -> ->. auto. Qed.

Lemma logRecorded_grows t t' : grows t t' -> logRecorded t -> logRecorded t'.
Proof.
  intros (_ & _ & _ & _ & _ & _ & _ & l & Hl & _ & Hd & _) Hok a.
  rewrite Hl, Hd, elem_of_app, elem_of_union, elem_of_list_to_set.
  intros [H | H]; [right; now apply Hok | left].
  apply list_elem_of_fmap. exists a. split; [reflexivity | exact H].
Qed.

Lemma logRecorded_append t a :
  logRecorded t ->
  logRecorded (set_dedup (set_log t (t_log t ++ [a])) ({[aID a]} ∪ t_dedup t)).
Proof.
  intros Hok b. cbn [t_log t_dedup set_dedup set_log].
  rewrite elem_of_app, elem_of_union, elem_of_singleton, list_elem_of_singleton.
  intros [H | ->]; [right; now apply Hok | now left].
Qed.

Section ReplicaMore.

Variable RandActionID : nat -> string.
Variable newRand : Z -> Rand.
Variable json_Marshal_engine : EngineSnapshot -> option (list Z).
Variable json_Unmarshal_engine : list Z -> option EngineSnapshot.

Local Abbreviation onNet' := (onNet RandActionID newRand json_Marshal_engine json_Unmarshal_engine).
Local Abbreviation apply' := (apply RandActionID newRand).
Local Abbreviation runStep' :=
  (runStep RandActionID newRand json_Marshal_engine json_Unmarshal_engine).
Local Abbreviation commitAndBroadcast' := (commitAndBroadcast RandActionID newRand).
Local Abbreviation applyCommit' := (applyCommit RandActionID newRand).
Local Abbreviation ProposeLocal' := (ProposeLocal RandActionID newRand).
Local Abbreviation snapshot' := (snapshot json_Marshal_engine).
Local Abbreviation installSnapshot' := (installSnapshot json_Unmarshal_engine).
Local Abbreviation tryAuthorityTakeover' := (tryAuthorityTakeover json_Marshal_engine).

Lemma commitWith_recorded t a t' :
  commitAndBroadcast' t a = Done t' -> aID a ∈ t_dedup t'.
Proof.
  unfold commitAndBroadcast, commitWith.
  destruct (bool_decide (aID a ∈ t_dedup t)) eqn:E.
  - intros H. inversion H; subst. now apply bool_decide_eq_true in E.
  - destruct (apply' applyFuel _ a) as [t1 | |]; cbn [andThen]; try discriminate.
    intros H. inversion H. cbn [t_dedup send set_netOut set_clock set_dedup].
    apply elem_of_union. left. now apply elem_of_singleton.
Qed.

(** X21. Once an action has been committed on a replica (by commitAndBroadcast
    returning, or by applyCommit with an unseen id and the next sequence
    number), its id is in dedup, and committing the same action again, by
    either function and with any sequence number, changes nothing: it is not
    applied a second time, not logged again and nothing is sent. *)
Theorem committed_action_is_not_replayed (t : Table) (a : Action) (t' : Table) (sq : Z) :
  commitAndBroadcast' t a = Done t' \/
  ((aID a ∉ t_dedup t) /\ sq = wrapU64 (t_seq t + 1) /\ applyCommit' t a sq = Done t') ->
  aID a ∈ t_dedup t' /\
  commitAndBroadcast' t' a = Done t' /\
  forall sq', applyCommit' t' a sq' = Done t'.
Proof.
  intros H.
  assert (Hin : aID a ∈ t_dedup t').
  { destruct H as [H | (Hnin & Hsq & H)]; [exact (commitWith_recorded _ _ _ H) |].
    unfold applyCommit in H. rewrite (bool_decide_eq_false_2 _ Hnin) in H.
    rewrite Hsq, Z.eqb_refl in H. cbn [negb] in H.
    destruct (apply' applyFuel _ a) as [t1 | |]; cbn [andThen] in H; try discriminate.
    inversion H. cbn [t_dedup set_dedup]. apply elem_of_union. left.
    now apply elem_of_singleton. }
  split; [exact Hin |]. split.
  - unfold commitAndBroadcast, commitWith. now rewrite (bool_decide_eq_true_2 _ Hin).
  - intros sq'. unfold applyCommit. now rewrite (bool_decide_eq_true_2 _ Hin).
Qed.

(** X22. The id of every logged action is in the dedup set: every step of the
    replica's event loop that returns (handling a network message, a takeover
    attempt, a heartbeat tick) preserves this. *)
Theorem log_ids_are_recorded (t : Table) (st : ReplicaStep) (t' : Table) :
  logRecorded t -> runStep' t st = Done t' -> logRecorded t'.
Proof.
  intros Hok Hrun. destruct st as [now msg | now |]; cbn [runStep] in Hrun.
  - unfold onNet in Hrun. fold (merged t msg) in Hrun.
    assert (Hm : logRecorded (merged t msg)) by (revert Hok; apply logRecorded_fields; reflexivity).
    destruct (msgType msg).
    + destruct (negb (t_authority (merged t msg))) eqn:Ha; [inversion Hrun; subst; exact Hm |].
      destruct (msgAction msg) as [a |]; [| inversion Hrun; subst; exact Hm].
      destruct (isKick a && _); [inversion Hrun; subst; exact Hm |].
      apply negb_false_iff in Ha.
      apply (logRecorded_grows (merged t msg)); [| exact Hm].
      eapply commitWith_grows; [apply (apply_grows RandActionID newRand applyFuel) | exact Ha |].
      exact Hrun.
    + destruct (msgAction msg) as [a |]; [| inversion Hrun; subst; exact Hm].
      destruct (msgEpoch msg <? _); [inversion Hrun; subst; exact Hm |].
      destruct (isKick a && _); [inversion Hrun; subst; exact Hm |].
      destruct (applyCommit' (merged t msg) a (msgSeq msg)) as [t1 | |] eqn:E;
        cbn [andThen] in Hrun; try discriminate.
      assert (H1 : logRecorded t1).
      { unfold applyCommit in E.
        destruct (bool_decide _); [inversion E; subst; exact Hm |].
        destruct (negb _);
          [inversion E; subst; revert Hm; apply logRecorded_fields; reflexivity |].
        destruct (apply' applyFuel _ a) as [t2 | |] eqn:E2; cbn [andThen] in E;
          try discriminate.
        inversion E; subst. apply logRecorded_append.
        apply (logRecorded_grows _ _ (apply_grows RandActionID newRand applyFuel _ _ _ E2)).
        revert Hm. apply logRecorded_fields; reflexivity. }
      inversion Hrun; subst. revert H1. destruct (_ || _); apply logRecorded_fields; reflexivity.
    + destruct (msgState msg) as [ss |]; [| inversion Hrun; subst; exact Hm].
      destruct (msgEpoch msg <? _); inversion Hrun; subst; [exact Hm |].
      revert Hm. apply logRecorded_fields; unfold installSnapshot;
        repeat case_match; reflexivity.
    + destruct (t_authority (merged t msg)); inversion Hrun; subst; [| exact Hm].
      revert Hm. apply logRecorded_fields; unfold sendSnapshotTo; case_match; reflexivity.
    + destruct (msgEpoch msg <? _); inversion Hrun; subst; [exact Hm |].
      revert Hm. apply logRecorded_fields; reflexivity.
    + inversion Hrun; subst; exact Hm.
  - inversion Hrun; subst. revert Hok. apply logRecorded_fields;
      unfold tryAuthorityTakeover, sendSnapshotTo, sendHeartbeat; repeat case_match; reflexivity.
  - inversion Hrun; subst. revert Hok. apply logRecorded_fields;
      unfold sendHeartbeat; case_match; reflexivity.
Qed.

(** X23. onNet merges the Lamport stamp of every message into the clock; it
    then drops the message, changing nothing else and sending nothing, when a
    follower receives a propose or a state query; when a commit, snapshot or
    heartbeat carries an epoch below the replica's; when a propose or commit
    carries a kick that does not come from the authority, or carries no
    action; when a snapshot message carries no snapshot; and when the message
    type is unknown. *)
Theorem dropped_messages (now : Z) (t : Table) (msg : NetMessage) :
  (msgType msg = MsgPropose -> t_authority t = false ->
   onNet' now t msg = Done (merged t msg)) /\
  (msgType msg = MsgStateQuery -> t_authority t = false ->
   onNet' now t msg = Done (merged t msg)) /\
  (msgType msg = MsgCommit \/ msgType msg = MsgSnapshot \/ msgType msg = MsgHeartbeat ->
   msgEpoch msg < t_epoch t ->
   onNet' now t msg = Done (merged t msg)) /\
  (forall a, msgType msg = MsgPropose \/ msgType msg = MsgCommit ->
   msgAction msg = Some a -> aType a = ActKick -> msgFrom msg <> t_authorityID t ->
   onNet' now t msg = Done (merged t msg)) /\
  (msgType msg = MsgPropose \/ msgType msg = MsgCommit -> msgAction msg = None ->
   onNet' now t msg = Done (merged t msg)) /\
  (msgType msg = MsgSnapshot -> msgState msg = None ->
   onNet' now t msg = Done (merged t msg)) /\
  (msgType msg = MsgOther -> onNet' now t msg = Done (merged t msg)).
Proof.
  unfold onNet. fold (merged t msg).
  change (t_authority (merged t msg)) with (t_authority t).
  change (t_epoch (merged t msg)) with (t_epoch t).
  change (t_authorityID (merged t msg)) with (t_authorityID t).
  split; [intros -> ->; reflexivity |].
  split; [intros -> ->; reflexivity |].
  split.
  { intros Hty He. apply Z.ltb_lt in He.
    destruct Hty as [-> | [-> | ->]]; rewrite ?He.
    - destruct (msgAction msg); reflexivity.
    - destruct (msgState msg); reflexivity.
    - reflexivity. }
  split.
  { intros a Hty Ha Hk Hfrom.
    assert (E : isKick a && negb (String.eqb (msgFrom msg) (t_authorityID t)) = true).
    { unfold isKick. rewrite (bool_decide_eq_true_2 _ Hk). cbn [andb].
      apply negb_true_iff, String.eqb_neq. exact Hfrom. }
    destruct Hty as [-> | ->]; rewrite Ha, E.
    - destruct (negb (t_authority t)); reflexivity.
    - destruct (msgEpoch msg <? t_epoch t); reflexivity. }
  split.
  { intros [-> | ->] ->; [destruct (negb (t_authority t)) |]; reflexivity. }
  split; [intros -> ->; reflexivity |].
  intros ->. reflexivity.
Qed.

(** X24. A follower never commits on its own and never becomes the authority
    by handling a message: ProposeLocal on a follower only sends a propose
    carrying the action (sequence number 0, clock ticked), and handling any
    network message leaves it a follower and sends either nothing or exactly
    one state query, in which case its sequence number, log, dedup set and
    engine are unchanged. *)
Theorem follower_proposes_and_sends_queries_only (t : Table) :
  t_authority t = false ->
  (forall a, ProposeLocal' t a = Done (send t MsgPropose 0 (Some a) None)) /\
  (forall now msg t', onNet' now t msg = Done t' ->
     t_authority t' = false /\
     (t_netOut t' = t_netOut t \/
      exists q, t_netOut t' = t_netOut t ++ [q] /\ isStateQuery t q /\ sameReplicated t t')).
Proof.
  intros Hf. split.
  { intros a. unfold ProposeLocal. rewrite Hf. reflexivity. }
  intros now msg t'. unfold onNet. fold (merged t msg).
  change (t_authority (merged t msg)) with (t_authority t). rewrite Hf. cbn [negb].
  destruct (msgType msg).
  - intros H. inversion H. split; [exact Hf | left; reflexivity].
  - destruct (msgAction msg) as [a |]; [| intros H; inversion H; auto].
    destruct (msgEpoch msg <? _); [intros H; inversion H; auto |].
    destruct (isKick a && _); [intros H; inversion H; auto |].
    unfold applyCommit.
    change (t_dedup (merged t msg)) with (t_dedup t).
    destruct (bool_decide (aID a ∈ t_dedup t)); cbn [andThen].
    { intros H. inversion H. split; [destruct (_ || _); exact Hf |].
      left. destruct (_ || _); reflexivity. }
    destruct (negb _); cbn [andThen].
    { intros H. inversion H. split; [destruct (_ || _); exact Hf |].
      right. eexists. split; [destruct (_ || _); reflexivity |].
      split; [repeat split; reflexivity |].
      repeat split; destruct (_ || _); reflexivity. }
    destruct (apply' applyFuel _ a) as [t1 | |] eqn:E; cbn [andThen]; try discriminate.
    destruct (apply_grows RandActionID newRand applyFuel _ _ _ E)
      as (_ & _ & _ & Ha & _ & _ & _ & l & _ & _ & _ & Hfol).
    cbn [t_authority set_seq merged set_clock] in Ha, Hfol.
    destruct (Hfol Hf) as (_ & Hn & _).
    cbn [t_netOut set_seq merged set_clock] in Hn.
    intros H. inversion H. split.
    + destruct (_ || _); cbn; congruence.
    + left. destruct (_ || _); cbn; exact Hn.
  - destruct (msgState msg) as [ss |]; [| intros H; inversion H; auto].
    destruct (msgEpoch msg <? _); intros H; inversion H; [auto |].
    split; [| left]; unfold installSnapshot; repeat case_match; try reflexivity; exact Hf.
  - intros H. inversion H. auto.
  - destruct (msgEpoch msg <? _); intros H; inversion H; auto.
  - intros H. inversion H. auto.
Qed.

(** X25. tryAuthorityTakeover does nothing on an authority, before the
    follower timeout (the larger of FollowerTO and 3 s since the last
    heartbeat) has passed, or when the replica's id is not smaller than the
    authority's (an empty authority id always allows it). Otherwise the
    replica becomes the authority with the epoch incremented (uint64) and
    itself as authority id, keeps sequence number, log, dedup set and engine,
    and sends exactly a heartbeat and then a snapshot, both with the new epoch
    and consecutive Lamport stamps, the snapshot carrying the new epoch, the
    current sequence number and the new authority. *)
Theorem takeover_promotes_the_follower (now : Z) (t : Table) :
  let t' := tryAuthorityTakeover' now t in
  (t_authority t = false ->
   maxDur (cfgFollowerTO (t_cfg t)) (3 * Second) <= now - t_lastHeartbeat t ->
   isSmallestNodeID t = true ->
   t_authority t' = true /\
   t_epoch t' = wrapU64 (t_epoch t + 1) /\
   t_authorityID t' = t_self t /\
   sameReplicated t t' /\
   exists hb sn ss,
     t_netOut t' = t_netOut t ++ [hb; sn] /\
     msgType hb = MsgHeartbeat /\ msgEpoch hb = t_epoch t' /\ msgSeq hb = t_seq t /\
     msgFrom hb = t_self t /\
     msgType sn = MsgSnapshot /\ msgEpoch sn = t_epoch t' /\ msgFrom sn = t_self t /\
     msgState sn = Some ss /\
     ssEpoch ss = t_epoch t' /\ ssSeq ss = t_seq t /\ ssAuthority ss = t_self t /\
     msgLamport hb = TickLocal (t_clock t) /\ msgLamport sn = TickLocal (msgLamport hb)) /\
  (t_authority t = true \/
   now - t_lastHeartbeat t < maxDur (cfgFollowerTO (t_cfg t)) (3 * Second) \/
   isSmallestNodeID t = false ->
   t' = t).
Proof.
  intros t'. subst t'. unfold tryAuthorityTakeover. split.
  - intros Hf Hto Hsm. rewrite Hf, Hsm.
    assert ((now - t_lastHeartbeat t <? maxDur (cfgFollowerTO (t_cfg t)) (3 * Second)) = false)
      as -> by (apply Z.ltb_ge; exact Hto).
    cbn [negb]. unfold sendSnapshotTo, sendHeartbeat.
    cbn [t_authority set_authorityID set_epoch set_authority negb send set_netOut set_clock].
    repeat split. do 3 eexists.
    cbn [t_netOut set_netOut set_clock send t_self t_epoch t_seq t_clock
         set_authorityID set_epoch set_authority].
    rewrite <- app_assoc. cbn [app].
    split; [reflexivity |]. repeat split.
  - intros [Ha | [Hto | Hsm]].
    + now rewrite Ha.
    + destruct (t_authority t); [reflexivity |].
      assert ((now - t_lastHeartbeat t <? maxDur (cfgFollowerTO (t_cfg t)) (3 * Second)) = true)
        as -> by (apply Z.ltb_lt; exact Hto).
      reflexivity.
    + destruct (t_authority t); [reflexivity |]. destruct (_ <? _); [reflexivity |].
      now rewrite Hsm.
Qed.

(** X26. If the JSON codec round-trips the engine snapshot of replica a (with
    a non-empty payload), installing a's table snapshot on any replica f gives
    f the config, sequence number, epoch and authority id of a and the public
    engine state of a, so that f's own snapshot equals a's; the log, the dedup
    set and the authority flag of f are not touched, nor are the deck, hole
    cards and hand flag of its engine. *)
Theorem snapshot_brings_a_follower_up_to_date (a f : Table) (b : list Z) :
  json_Marshal_engine (Snapshot (t_eng a)) = Some b ->
  0 < len b ->
  json_Unmarshal_engine b = Some (Snapshot (t_eng a)) ->
  let f' := installSnapshot' f (snapshot' a) in
  t_cfg f' = t_cfg a /\ t_seq f' = t_seq a /\ t_epoch f' = t_epoch a /\
  t_authorityID f' = t_authorityID a /\
  Snapshot (t_eng f') = Snapshot (t_eng a) /\
  snapshot' f' = snapshot' a /\
  t_log f' = t_log f /\ t_dedup f' = t_dedup f /\ t_authority f' = t_authority f /\
  Deck (t_eng f') = Deck (t_eng f) /\ Holes (t_eng f') = Holes (t_eng f) /\
  HandActive (t_eng f') = HandActive (t_eng f).
Proof.
  intros Hm Hlen Hu f'. subst f'. unfold installSnapshot, snapshot.
  cbn [ssCfg ssSeq ssEpoch ssAuthority ssEngineJSON]. rewrite Hm. unfold default, from_option, id.
  assert ((0 <? len b) = true) as -> by (apply Z.ltb_lt; exact Hlen).
  rewrite Hu.
  cbn [t_cfg t_seq t_epoch t_authorityID t_eng t_log t_dedup t_authority
       set_eng set_authorityID set_epoch set_seq set_cfg].
  rewrite (RestoreFromSnapshot_is (t_eng f) (Snapshot (t_eng a))).
  assert (Hs : Snapshot
                 (mkState (esSmallBlind (Snapshot (t_eng a))) (esBigBlind (Snapshot (t_eng a)))
                    (esDealerIdx (Snapshot (t_eng a))) (esOrder (Snapshot (t_eng a)))
                    (esTurnIdx (Snapshot (t_eng a))) (esPhase (Snapshot (t_eng a)))
                    (esPot (Snapshot (t_eng a))) (esSeats (Snapshot (t_eng a)))
                    (Deck (t_eng f)) (esBoard (Snapshot (t_eng a))) (Holes (t_eng f))
                    (CurrentBet (t_eng f)) (ActorsToAct (t_eng f)) (LastRaiseSize (t_eng f))
                    (HandActive (t_eng f)))
               = Snapshot (t_eng a)) by reflexivity.
  rewrite Hs, Hm. repeat split.
Qed.

End ReplicaMore.

Lemma committed_action_is_not_replayed_witness :
  exists t',
    (aID demoCallB ∉ t_dedup demoFollower) /\
    applyCommit demoIDs demoNewRand demoFollower demoCallB 3 = Done t' /\
    aID demoCallB ∈ t_dedup t' /\
    applyCommit demoIDs demoNewRand t' demoCallB 4 = Done t'.
Proof.
  destruct (applyCommit demoIDs demoNewRand demoFollower demoCallB 3) as [t' | |] eqn:E;
    [| vm_compute in E; discriminate E | vm_compute in E; discriminate E].
  exists t'.
  assert (H1 : aID demoCallB ∉ t_dedup demoFollower) by apply not_elem_of_empty.
  split; [exact H1 |]. split; [reflexivity |].
  assert (H2 : 3 = wrapU64 (t_seq demoFollower + 1)) by (vm_compute; reflexivity).
  destruct (committed_action_is_not_replayed demoIDs demoNewRand demoFollower demoCallB t' 3
              (or_intror (conj H1 (conj H2 E))))
    as (Hin & _ & Hre).
  split; [exact Hin | exact (Hre 4)].
Defined.

Lemma log_ids_are_recorded_witness :
  exists t',
    logRecorded demoFollower /\
    runStep demoIDs demoNewRand noMarshal noUnmarshal demoFollower
      (StepNet 100 (demoCommit 3 demoCallB)) = Done t' /\
    t_log t' = [demoCallB] /\
    logRecorded t'.
Proof.
  destruct (runStep demoIDs demoNewRand noMarshal noUnmarshal demoFollower
              (StepNet 100 (demoCommit 3 demoCallB))) as [t' | |] eqn:E;
    [| vm_compute in E; discriminate E | vm_compute in E; discriminate E].
  exists t'.
  assert (H1 : logRecorded demoFollower)
    by (intros a Ha; vm_compute in Ha; apply elem_of_nil in Ha; destruct Ha).
  split; [exact H1 |]. split; [reflexivity |].
  split; [vm_compute in E; inversion E; reflexivity |].
  exact (log_ids_are_recorded demoIDs demoNewRand noMarshal noUnmarshal _ _ _ H1 E).
Defined.

Lemma follower_proposes_and_sends_queries_only_witness :
  t_authority demoFollower = false /\
  ProposeLocal demoIDs demoNewRand demoFollower demoCallB =
    Done (send demoFollower MsgPropose 0 (Some demoCallB) None).
Proof.
  assert (H : t_authority demoFollower = false) by reflexivity.
  split; [exact H |].
  destruct (follower_proposes_and_sends_queries_only demoIDs demoNewRand noMarshal noUnmarshal
              demoFollower H) as [Hp _].
  exact (Hp demoCallB).
Defined.

Lemma snapshot_brings_a_follower_up_to_date_witness :
  demoMarshal (Snapshot (t_eng demoFollower)) = Some [123; 125] /\
  0 < len [123; 125] /\
  demoUnmarshal [123; 125] = Some (Snapshot (t_eng demoFollower)) /\
  let f' := installSnapshot demoUnmarshal demoAuthority (snapshot demoMarshal demoFollower) in
  t_seq f' = 2 /\ t_epoch f' = 4 /\
  Snapshot (t_eng f') = Snapshot demoStart.
Proof.
  assert (H1 : demoMarshal (Snapshot (t_eng demoFollower)) = Some [123; 125]) by reflexivity.
  assert (H2 : 0 < len [123; 125]) by (vm_compute; reflexivity).
  assert (H3 : demoUnmarshal [123; 125] = Some (Snapshot (t_eng demoFollower))) by reflexivity.
  repeat (split; [assumption |]).
  destruct (snapshot_brings_a_follower_up_to_date demoMarshal demoUnmarshal
              demoFollower demoAuthority _ H1 H2 H3)
    as (_ & Hs & He & _ & Hg & _).
  split; [exact Hs |]. split; [exact He | exact Hg].
Defined.

(** X27. Below the last uint64 value the Lamport clock only moves forward:
    TickLocal adds one, and TickRemote returns max(local, remote) + 1, which
    is above both the local and the remote value. At 2^64 - 1 the counter
    wraps: TickLocal of the last value, and TickRemote with the last value as
    remote stamp, give 0. *)
Theorem lamport_clock_moves_forward (v remote : Z) :
  0 <= v < two64 - 1 -> 0 <= remote < two64 - 1 ->
  TickLocal v = v + 1 /\
  TickRemote v remote = Z.max v remote + 1 /\
  v < TickRemote v remote /\ remote < TickRemote v remote /\
  TickLocal (two64 - 1) = 0 /\ TickRemote v (two64 - 1) = 0.
Proof.
  intros Hv Hr. unfold TickLocal, TickRemote, wrapU64.
  assert (H1 : (v + 1) mod two64 = v + 1) by (apply Z.mod_small; lia).
  assert (H2 : (remote + 1) mod two64 = remote + 1) by (apply Z.mod_small; lia).
  assert (H3 : (v <=? two64 - 1) = true) by (apply Z.leb_le; lia).
  rewrite H3. destruct (v <=? remote) eqn:E;
    [apply Z.leb_le in E | apply Z.leb_gt in E]; rewrite ?H1, ?H2;
    repeat split; try lia; reflexivity.
Qed.


Lemma lamport_clock_moves_forward_witness :
  0 <= 3 < two64 - 1 /\ 0 <= 7 < two64 - 1 /\
  TickLocal 3 = 4 /\ TickRemote 3 7 = 8.
Proof.
  assert (H1 : 0 <= 3 < two64 - 1) by (vm_compute; split; [discriminate | reflexivity]).
  assert (H2 : 0 <= 7 < two64 - 1) by (vm_compute; split; [discriminate | reflexivity]).
  repeat (split; [assumption |]).
  destruct (lamport_clock_moves_forward 3 7 H1 H2) as (Hl & Hr & _).
  split; [exact Hl | exact Hr].
Defined.

(** ** netx: frames *)

Lemma lor_shiftl_add a b k :
  0 <= k -> 0 <= a < 2 ^ k -> 0 <= b -> Z.lor a (Z.shiftl b k) = a + b * 2 ^ k.
Proof.
  intros Hk Ha Hb. rewrite Z.shiftl_mul_pow2 by exact Hk.
  symmetry. apply Z.add_nocarry_lor.
  apply Z.bits_inj'. intros n Hn. rewrite Z.land_spec, Z.bits_0.
  destruct (Z.lt_ge_cases n k) as [Hlt | Hge].
  - rewrite Z.mul_pow2_bits_low by exact Hlt. apply andb_false_r.
  - destruct (Z.eq_dec a 0) as [-> | Hne]; [now rewrite Z.bits_0 |].
    rewrite (Z.bits_above_log2 a n); [reflexivity | lia |].
    apply Z.log2_lt_pow2; [lia |].
    apply Z.lt_le_trans with (2 ^ k); [lia |]. apply Z.pow_le_mono_r; lia.
Qed.

Lemma getUint32_putUint32 v :
  0 <= v < two32 ->
  match putUint32 v with
  | [b0; b1; b2; b3] => getUint32 b0 b1 b2 b3 = v
  | _ => False
  end.
Proof.
  intros Hv. unfold putUint32, getUint32, wrap8, two32 in *.
  rewrite !Z.shiftr_div_pow2 by lia.
  assert (H0 : 0 <= v mod 256 < 256) by (apply Z.mod_pos_bound; lia).
  assert (H1 : 0 <= (v / 2 ^ 8) mod 256 < 256) by (apply Z.mod_pos_bound; lia).
  assert (H2 : 0 <= (v / 2 ^ 16) mod 256 < 256) by (apply Z.mod_pos_bound; lia).
  assert (H3 : 0 <= (v / 2 ^ 24) mod 256 < 256) by (apply Z.mod_pos_bound; lia).
  rewrite (lor_shiftl_add (v mod 256) _ 8) by lia.
  rewrite (lor_shiftl_add _ _ 16) by lia.
  rewrite (lor_shiftl_add _ _ 24) by lia.
  change (2 ^ 8) with 256 in *. change (2 ^ 16) with 65536 in *.
  change (2 ^ 24) with 16777216 in *.
  Z.to_euclidean_division_equations. lia.
Qed.

Section CodecFacts.

Variable json_Marshal_msg : NetMessage -> option (list Z).
Variable json_Unmarshal_msg : list Z -> option NetMessage.

Local Abbreviation Encode' := (Encode json_Marshal_msg).
Local Abbreviation Decode' := (Decode json_Unmarshal_msg).

Lemma readFull_enough r n rest :
  length r = n -> readFull (r ++ rest) n = (inr r, rest).
Proof.
  intros Hn. unfold readFull. destruct (n =? 0)%nat eqn:E0.
  - apply Nat.eqb_eq in E0. subst n. destruct r; [reflexivity | discriminate].
  - apply Nat.eqb_neq in E0.
    assert ((length (r ++ rest) =? 0)%nat = false) as ->
      by (apply Nat.eqb_neq; rewrite length_app; lia).
    assert ((length (r ++ rest) <? n)%nat = false) as ->
      by (apply Nat.ltb_ge; rewrite length_app; lia).
    rewrite take_app_length' by (symmetry; exact Hn).
    rewrite drop_app_length' by (symmetry; exact Hn). reflexivity.
Qed.

Lemma readFull_short r n :
  (length r < n)%nat ->
  exists e, readFull r n = (inl e, []) /\ (e = ErrEOF \/ e = ErrUnexpectedEOF).
Proof.
  intros Hn. unfold readFull.
  assert ((n =? 0)%nat = false) as -> by (apply Nat.eqb_neq; lia).
  destruct (length r =? 0)%nat; [eauto |].
  assert ((length r <? n)%nat = true) as -> by (apply Nat.ltb_lt; exact Hn). eauto.
Qed.

Lemma Decode_header v body :
  0 <= v < two32 ->
  Decode' (putUint32 v ++ body) =
  if maxFrame <? v then (inl (ErrFrameTooLarge v), body)
  else
    match readFull body (Z.to_nat v) with
    | (inl e, r2) => (inl e, r2)
    | (inr buf, r2) =>
      match json_Unmarshal_msg buf with
      | Some msg => (inr msg, r2)
      | None => (inl ErrUnmarshal, r2)
      end
    end.
Proof.
  intros Hv. unfold Decode.
  rewrite (readFull_enough (putUint32 v) 4 body) by reflexivity.
  pose proof (getUint32_putUint32 v Hv) as H.
  unfold putUint32 in *. cbv zeta. rewrite H. reflexivity.
Qed.

(** X28. If json.Marshal gives the bytes b for a message, b has at most 10
    MiB, and json.Unmarshal of b gives the message back, then Encode returns a
    frame of 4 + len(b) bytes, and Decode on a reader holding that frame
    followed by any further bytes returns the message and leaves exactly those
    further bytes in the reader. *)
Theorem codec_roundtrip (msg : NetMessage) (b rest : list Z) :
  json_Marshal_msg msg = Some b ->
  len b <= maxFrame ->
  json_Unmarshal_msg b = Some msg ->
  exists frame,
    Encode' msg = Some frame /\
    len frame = 4 + len b /\
    Decode' (frame ++ rest) = (inr msg, rest).
Proof.
  intros Hm Hlen Hu. unfold Encode. rewrite Hm. eexists. split; [reflexivity |].
  assert (Hb : 0 <= len b < two32).
  { pose proof (len_nonneg b). unfold maxFrame, two32 in *. lia. }
  assert (Hw : wrapU32 (len b) = len b) by (unfold wrapU32; apply Z.mod_small; exact Hb).
  rewrite Hw. split.
  - unfold len. rewrite length_app. cbn [length putUint32]. lia.
  - rewrite <- app_assoc, (Decode_header (len b) (b ++ rest) Hb).
    assert ((maxFrame <? len b) = false) as -> by (apply Z.ltb_ge; exact Hlen).
    rewrite (readFull_enough b (Z.to_nat (len b)) rest) by (unfold len; lia).
    rewrite Hu. reflexivity.
Qed.

(** X29. Decode on an empty reader returns io.EOF. For a message whose JSON b
    is shorter than 2^32 bytes: if b is longer than 10 MiB, Encode still
    produces the frame but Decode rejects it as too large after consuming only
    the 4-byte header; if b has at most 10 MiB, Decode on any proper prefix of
    the frame returns io.EOF or io.ErrUnexpectedEOF, never a message. *)
Theorem codec_rejects (msg : NetMessage) (b rest : list Z) :
  json_Marshal_msg msg = Some b ->
  len b < two32 ->
  exists frame,
    Encode' msg = Some frame /\
    Decode' [] = (inl ErrEOF, []) /\
    (maxFrame < len b ->
     Decode' (frame ++ rest) = (inl (ErrFrameTooLarge (len b)), b ++ rest)) /\
    (len b <= maxFrame ->
     forall k, (k < length frame)%nat ->
       exists e, Decode' (take k frame) = (inl e, []) /\
                 (e = ErrEOF \/ e = ErrUnexpectedEOF)).
Proof.
  intros Hm Hlt. unfold Encode. rewrite Hm. eexists. split; [reflexivity |].
  assert (Hb : 0 <= len b < two32) by (pose proof (len_nonneg b); lia).
  assert (Hw : wrapU32 (len b) = len b) by (unfold wrapU32; apply Z.mod_small; exact Hb).
  rewrite Hw. split; [reflexivity |]. split.
  - intros Hbig. rewrite <- app_assoc, (Decode_header (len b) (b ++ rest) Hb).
    assert ((maxFrame <? len b) = true) as -> by (apply Z.ltb_lt; exact Hbig). reflexivity.
  - intros Hsmall k Hk. rewrite length_app in Hk.
    change (length (putUint32 (len b))) with 4%nat in Hk.
    destruct (Nat.lt_ge_cases k 4) as [Hk4 | Hk4].
    + rewrite take_app_le by (cbn; lia).
      unfold Decode.
      destruct (readFull_short (take k (putUint32 (len b))) 4) as (e & -> & He);
        [rewrite length_take; cbn; lia |]. eauto.
    + rewrite take_app_ge by (cbn; lia).
      change (length (putUint32 (len b))) with 4%nat.
      rewrite (Decode_header (len b) _ Hb).
      assert ((maxFrame <? len b) = false) as -> by (apply Z.ltb_ge; exact Hsmall).
      destruct (readFull_short (take (k - 4) b) (Z.to_nat (len b))) as (e & -> & He);
        [rewrite length_take; unfold len; lia |]. eauto.
Qed.

End CodecFacts.


Lemma codec_roundtrip_witness :
  demoMarshalMsg demoHeartbeat = Some [123; 125] /\
  len [123; 125] <= maxFrame /\
  demoUnmarshalMsg [123; 125] = Some demoHeartbeat /\
  Encode demoMarshalMsg demoHeartbeat = Some [0; 0; 0; 2; 123; 125] /\
  Decode demoUnmarshalMsg ([0; 0; 0; 2; 123; 125] ++ [0; 0]) = (inr demoHeartbeat, [0; 0]).
Proof.
  assert (H1 : demoMarshalMsg demoHeartbeat = Some [123; 125]) by reflexivity.
  assert (H2 : len [123; 125] <= maxFrame) by (vm_compute; discriminate).
  assert (H3 : demoUnmarshalMsg [123; 125] = Some demoHeartbeat) by reflexivity.
  repeat (split; [assumption |]).
  destruct (codec_roundtrip demoMarshalMsg demoUnmarshalMsg demoHeartbeat _ [0; 0] H1 H2 H3)
    as (frame & He & _ & Hd).
  assert (Hf : frame = [0; 0; 0; 2; 123; 125])
    by (vm_compute in He; inversion He; reflexivity).
  subst frame. split; [exact He | exact Hd].
Defined.

Lemma codec_rejects_witness :
  demoMarshalMsg demoHeartbeat = Some [123; 125] /\
  len [123; 125] < two32 /\
  exists e, Decode demoUnmarshalMsg [0; 0; 0; 2; 123] = (inl e, []) /\
            (e = ErrEOF \/ e = ErrUnexpectedEOF).
Proof.
  assert (H1 : demoMarshalMsg demoHeartbeat = Some [123; 125]) by reflexivity.
  assert (H2 : len [123; 125] < two32) by (vm_compute; reflexivity).
  repeat (split; [assumption |]).
  destruct (codec_rejects demoMarshalMsg demoUnmarshalMsg demoHeartbeat _ [] H1 H2)
    as (frame & He & _ & _ & Ht).
  assert (Hf : frame = [0; 0; 0; 2; 123; 125])
    by (vm_compute in He; inversion He; reflexivity).
  subst frame.
  exact (Ht ltac:(vm_compute; discriminate) 5%nat ltac:(vm_compute; lia)).
Defined.

(** ** table: the slice helpers *)

Lemma removeStrLoop_spec x orig todo arr w i :
  (w <= i)%nat -> (i + todo = length orig)%nat ->
  length arr = length orig ->
  take w arr = keepOthers x (take i orig) ->
  drop i arr = drop i orig ->
  let '(arr', w') := removeStrLoop x arr w i todo in
  take w' arr' = keepOthers x orig.
Proof.
  revert arr w i. induction todo as [| todo IH]; intros arr w i Hwi Hlen Harr Htake Hdrop.
  - cbn. rewrite Htake. rewrite take_ge by lia. reflexivity.
  - cbn [removeStrLoop].
    assert (Hi : (i < length orig)%nat) by lia.
    destruct (lookup_lt_is_Some_2 orig i Hi) as [s Hs].
    assert (Hs' : arr !! i = Some s).
    { rewrite <- (Nat.add_0_r i), <- lookup_drop, Hdrop, lookup_drop, Nat.add_0_r. exact Hs. }
    rewrite Hs'.
    assert (Hstep : keepOthers x (take (S i) orig) =
                    keepOthers x (take i orig) ++ (if String.eqb s x then [] else [s])).
    { rewrite (take_S_r orig i s Hs). unfold keepOthers. rewrite List.filter_app. cbn.
      destruct (String.eqb s x); reflexivity. }
    destruct (String.eqb s x) eqn:E.
    + apply IH; try lia; try assumption.
      * rewrite Hstep, app_nil_r. exact Htake.
      * rewrite <- !(Nat.add_1_r i), <- !drop_drop, Hdrop. reflexivity.
    + apply IH; try lia.
      * rewrite length_insert. exact Harr.
      * rewrite Hstep, <- Htake.
        rewrite (take_S_r (<[w:=s]> arr) w s).
        -- rewrite take_insert_ge by lia. reflexivity.
        -- apply list_lookup_insert_eq. lia.
      * rewrite drop_insert_lt by lia.
        rewrite <- !(Nat.add_1_r i), <- !drop_drop, Hdrop. reflexivity.
Qed.

Lemma contains_elem ss x : contains ss x = true <-> x ∈ ss.
Proof.
  induction ss as [| s ss IH]; cbn.
  - split; [discriminate | intros H; inversion H].
  - destruct (String.eqb s x) eqn:E.
    + apply String.eqb_eq in E. subst. split; [intros _; left | reflexivity].
    + apply String.eqb_neq in E. rewrite IH, elem_of_cons. split; [tauto | intros [? | ?]; congruence].
Qed.

(** X30. removeStr, which filters the slice in place while ranging over it,
    leaves exactly the elements different from x in their original order;
    afterwards contains reports false for x and is unchanged for every other
    string; a slice that does not contain x is left as it is; and contains is
    true exactly for the members of the slice. *)
Theorem removeStr_filters (ss : list string) (x : string) :
  removeStr ss x = keepOthers x ss /\
  contains (removeStr ss x) x = false /\
  (forall y, y <> x -> contains (removeStr ss x) y = contains ss y) /\
  (contains ss x = false -> removeStr ss x = ss) /\
  (contains ss x = true <-> x ∈ ss).
Proof.
  assert (H : removeStr ss x = keepOthers x ss).
  { unfold removeStr.
    pose proof (removeStrLoop_spec x ss (length ss) ss 0 0) as Hl.
    destruct (removeStrLoop x ss 0 0 (length ss)) as [arr w].
    apply Hl; try reflexivity; lia. }
  rewrite H. split; [reflexivity |]. repeat split.
  - destruct (contains (keepOthers x ss) x) eqn:E; [| reflexivity].
    apply contains_elem, list_elem_of_In, List.filter_In in E. destruct E as [_ E].
    rewrite String.eqb_refl in E. discriminate.
  - intros y Hy. apply eq_true_iff_eq. rewrite !contains_elem.
    unfold keepOthers. rewrite !list_elem_of_In, List.filter_In.
    split; [tauto |]. intros Hin. split; [exact Hin |].
    apply negb_true_iff, String.eqb_neq. exact Hy.
  - intros Hc. clear H. unfold keepOthers. induction ss as [| s ss IH]; [reflexivity |].
    cbn in Hc |- *. destruct (String.eqb s x); [discriminate |]. cbn. f_equal. apply IH. exact Hc.
  - apply contains_elem.
  - apply contains_elem.
Qed.

